(** * typed-navigation: the transition engine, embedded and verified

    A shallow embedding of the navigation engine of [internal/shared.ts]
    ([setupFromModelAndIntent] and the destination factories) and of the
    memory adapter of [internal/memory.ts] ([clampNavigationState],
    [setupMemory]), with the window adapters of [internal/fromWindow.ts]
    (the history adapter and the shims of [patchHistory]), the handler of
    [useBlockNavigation] and
    the converters between records, search parameters and form data of
    [Url.ts] and [Forms.ts].

    Effects are threaded explicitly: an [Engine] value holds the state cell,
    the two handler registries, the position in the stream of random
    identifiers and the part of the world the handlers and the adapter act
    on.  Every call of a handler, of the adapter's commit and every write of
    the state cell is recorded in a log, so that statements about which
    handlers ran, and in which order, can be made about the code itself. *)

From Stdlib Require Import ZArith String List Bool Arith Lia Permutation.
Import ListNotations.

Local Open Scope Z_scope.

Set Implicit Arguments.

(** ** JavaScript arrays *)

Module JsArray.

Section Ops.
Context {A : Type}.

Definition len (l : list A) : Z := Z.of_nat (length l).

(** A relative index, as [Array.prototype.slice] resolves its arguments:
    negative values count from the end, everything is clipped to the
    array. *)
Definition relative (n k : Z) : Z :=
  if k <? 0 then Z.max (n + k) 0 else Z.min k n.

(** [l.slice(start, fin)]; [fin = None] is the one-argument call. *)
Definition slice (start : Z) (fin : option Z) (l : list A) : list A :=
  let n := len l in
  let k := relative n start in
  let e := match fin with None => n | Some f => relative n f end in
  firstn (Z.to_nat (e - k)) (skipn (Z.to_nat k) l).

(** [l[i]]: [None] stands for [undefined]. *)
Definition get (l : list A) (i : Z) : option A :=
  if i <? 0 then None else nth_error l (Z.to_nat i).

(** [l.findIndex(p)] *)
Fixpoint findIndexFrom (p : A -> bool) (l : list A) (i : Z) : Z :=
  match l with
  | [] => -1
  | x :: rest => if p x then i else findIndexFrom p rest (i + 1)
  end.

Definition findIndex (p : A -> bool) (l : list A) : Z := findIndexFrom p l 0.
End Ops.

End JsArray.

(** ** JavaScript numbers

    Where the code takes a [number] without checking it ([currentIndex]
    and [maxEntries] of the memory options), it may be given any number: an
    integer, a fraction, NaN or an infinity.  [Finite num den] is the
    number [num / den]. *)

Module JsNumber.

Inductive t :=
| Finite (num : Z) (den : positive)
| NaN
| Infinity (negative : bool).

Definition ofZ (z : Z) : t := Finite z 1.

(** The integer a number is, if it is one. *)
Definition asInteger (x : t) : option Z :=
  match x with
  | Finite num den =>
      if num mod Z.pos den =? 0 then Some (num / Z.pos den) else None
  | NaN | Infinity _ => None
  end.

(** [-x] *)
Definition opp (x : t) : t :=
  match x with
  | Finite num den => Finite (- num) den
  | NaN => NaN
  | Infinity negative => Infinity (negb negative)
  end.

(** [Math.max(0, x)] *)
Definition max0 (x : t) : t :=
  match x with
  | Finite num den => if num <? 0 then ofZ 0 else x
  | NaN => NaN
  | Infinity negative => if negative then ofZ 0 else x
  end.

(** [Math.min(x, k)] for an integer [k]. *)
Definition minInt (x : t) (k : Z) : t :=
  match x with
  | Finite num den => if num <=? k * Z.pos den then x else ofZ k
  | NaN => NaN
  | Infinity negative => if negative then x else ofZ k
  end.

(** [ToIntegerOrInfinity(x)]: NaN is 0, a finite number is truncated
    towards zero; [inr negative] is an infinity. *)
Definition toIntegerOrInfinity (x : t) : Z + bool :=
  match x with
  | Finite num den => inl (Z.quot num (Z.pos den))
  | NaN => inl 0
  | Infinity negative => inr negative
  end.

Section Arrays.
Context {A : Type}.

(** [l.slice(start)] *)
Definition sliceFrom (start : t) (l : list A) : list A :=
  match toIntegerOrInfinity start with
  | inl k => JsArray.slice k None l
  | inr negative => if negative then l else []
  end.

(** [l[x]]: only a number that is an integer names an element. *)
Definition get (l : list A) (x : t) : option A :=
  match asInteger x with
  | Some i => JsArray.get l i
  | None => None
  end.
End Arrays.

End JsNumber.

(** ** Data model *)

Definition Uuid := string.

(** The parts of a [URL] object the engine reads. *)
Record URL := mkURL {
  url_origin : string;
  url_pathname : string;
  url_search : string;
  url_hash : string
}.

(** Values of type [unknown] (history state, info).  The engine inspects
    such a value in one way only: [isPatchedState] asks whether it is a
    non-array object with both marker fields.  [JsMarked] is such an object,
    with the three fields the code reads from it; [JsOpaque] is any other
    value that is not [undefined] or [null]. *)
Inductive JsValue :=
| JsUndefined
| JsNull
| JsOpaque (label : string)
| JsMarked (marker_id marker_key : Uuid) (marker_state : JsValue).

Record Destination := mkDestination {
  d_id : Uuid;
  d_key : Uuid;
  d_url : URL;
  d_state : JsValue;
  d_sameDocument : bool
}.

Record ProposedDestination := mkProposed {
  p_url : URL;
  p_state : JsValue;
  p_sameDocument : bool
}.

(** [to: Schema.Union(ProposedDestination, Destination)] *)
Inductive Target :=
| Proposed (p : ProposedDestination)
| Materialized (d : Destination).

Inductive NavigationType := Push | Replace | Reload | Traverse.

Record TransitionEvent := mkTransition {
  ev_type : NavigationType;
  ev_from : Destination;
  ev_to : Target;
  ev_delta : Z;
  ev_info : JsValue
}.

Record NavigationEvent := mkNavigationEvent {
  nev_type : NavigationType;
  nev_info : JsValue;
  nev_destination : Destination
}.

Record NavigationState := mkState {
  entries : list Destination;
  index : Z;
  transition : option TransitionEvent
}.

(** [NavigateOptions.history] *)
Inductive HistoryMode := HistoryReplace | HistoryPush | HistoryAuto.

Record NavigateOptions := mkNavigateOptions {
  opt_history : option HistoryMode;
  opt_state : JsValue;
  opt_info : JsValue
}.

(** [RedirectError.options]: the two fields the engine reads, each
    [undefined] when missing. *)
Record RedirectOptions := mkRedirectOptions {
  ro_state : JsValue;
  ro_info : JsValue
}.

Record RedirectError := mkRedirect {
  redirect_path : string + URL;
  redirect_options : option RedirectOptions
}.

Inductive HandlerError :=
| Redirect (r : RedirectError)
| CancelNavigation.

Record NavigationError := mkNavigationError { cause : string }.

Definition type_eqb (a b : NavigationType) : bool :=
  match a, b with
  | Push, Push | Replace, Replace | Reload, Reload | Traverse, Traverse => true
  | _, _ => false
  end.

(** ** The memory adapter's clamp ([internal/memory.ts]) *)

Definition clampNavigationState (maxEntries : Z) (state : NavigationState)
  : NavigationState :=
  let entries' := JsArray.slice (- maxEntries) None (entries state) in
  let index' := Z.min (Z.max 0 (index state)) (JsArray.len entries' - 1) in
  {| entries := entries'; index := index'; transition := transition state |}.

(** The same function on the state as its type has it, with an index that
    is any number, and for a bound that is any number.  On integers it is
    the function above ([clamp_integers]). *)
Module Unchecked.

Record NavigationState := mkState {
  entries : list Destination;
  index : JsNumber.t;
  transition : option TransitionEvent
}.

Definition clampNavigationState (maxEntries : JsNumber.t)
  (state : NavigationState) : NavigationState :=
  let entries' := JsNumber.sliceFrom (JsNumber.opp maxEntries) (entries state) in
  let index' :=
    JsNumber.minInt (JsNumber.max0 (index state)) (JsArray.len entries' - 1) in
  {| entries := entries'; index := index'; transition := transition state |}.

End Unchecked.

(** A state whose index is an integer, among the states of the code. *)
Definition unchecked (s : NavigationState) : Unchecked.NavigationState :=
  {| Unchecked.entries := entries s;
     Unchecked.index := JsNumber.ofZ (index s);
     Unchecked.transition := transition s |}.

(** The state of the integer model a state of the code is, when its index
    is an integer. *)
Definition checked (s : Unchecked.NavigationState) : option NavigationState :=
  match JsNumber.asInteger (Unchecked.index s) with
  | Some i =>
      Some {| entries := Unchecked.entries s;
              index := i;
              transition := Unchecked.transition s |}
  | None => None
  end.

(** ** Effects

    An [Effect<A, NavigationError>] either succeeds, fails in its typed
    error channel, or dies with a defect ([Effect.dieMessage], a thrown
    exception).  [Diverged] is the answer of a run that was given too little
    fuel; Part III shows that no request of the engine ever gives it. *)

Inductive Outcome (A : Type) :=
| Done (a : A)
| Failed (e : NavigationError)
| Died (message : string)
| Diverged.

Arguments Done {A} a.
Arguments Failed {A} e.
Arguments Died {A} message.
Arguments Diverged {A}.

(** What a poll of a before-handler answered. *)
Inductive Polled :=
| PollFailed (e : HandlerError)
| PollDeferred
| PollAbstained.

(** The observable actions of the engine, in the order they happen. *)
Inductive LogItem :=
| LBegin (depth : nat) (event : TransitionEvent)
    (* runNavigationEvent entered with this event at this depth *)
| LStore (stored : NavigationState)
    (* a write of the state cell, with the value that was stored *)
| LBefore (name : nat) (event : TransitionEvent) (answer : Polled)
    (* a before-handler was called *)
| LDeferred (name : nat) (failure : option HandlerError)
    (* the deferred effect a before-handler returned was run *)
| LCommit (to : Destination) (event : TransitionEvent)
    (failure : option NavigationError)
    (* the adapter's commit was called *)
| LAfter (name : nat) (event : NavigationEvent)
    (* an after-handler was called *)
| LAfterDeferred (name : nat).
    (* the deferred effect an after-handler returned was run *)

Definition loopMessage : string := "Redirect loop detected."%string.
Definition undefinedMessage : string := "TypeError: entry is undefined"%string.

(** Fuel for the recursion of [runNavigationEvent] through [handleError]:
    one unit per depth 0..25. *)
Definition redirectFuel : nat := 26.

Section Engine.

(** The part of the world user handlers and the adapter's commit read and
    write (counters, the host's history, ...). *)
Variable W : Type.

(** A deferred effect of a before-handler:
    [Effect<unknown, RedirectError | CancelNavigation>]; [None] is
    success. *)
Definition Deferred := NavigationState -> W -> W * option HandlerError.

(** [BeforeNavigationHandler] together with the context captured at
    registration.  The handler sees the event and may read the state cell;
    [bh_name] identifies the registration in the log.  A handler answers in
    its typed channels: it succeeds, with or without a deferred effect, or
    fails with a redirect or a cancellation.  The handlers of the model
    answer with an [Option], as [Handler.ts] types them first; a handler
    that answers with nothing at all, which the later types allow, is not
    part of the model. *)
Record BeforeNavigationHandler := mkBefore {
  bh_name : nat;
  bh_run : TransitionEvent -> NavigationState -> W ->
           W * (HandlerError + option Deferred)
}.

Definition AfterDeferred := NavigationState -> W -> W.

Record NavigationHandler := mkAfter {
  nh_name : nat;
  nh_run : NavigationEvent -> NavigationState -> W -> W * option AfterDeferred
}.

(** [Commit] of [Layer.ts]; [None] is success. *)
Definition Commit :=
  Destination -> TransitionEvent -> W -> W * option NavigationError.

(** What [setupFromModelAndIntent] closes over, and the platform services
    it calls. *)
Record Env := mkEnv {
  env_origin : string;
  env_base : string;
  (** [Some n]: the cell is [LazyRef.transform(ref, clamp n, clamp n)] of
      the memory adapter; [None]: the plain cell of the window adapters. *)
  env_maxEntries : option Z;
  env_commit : Commit;
  (** [newNavigationState], present for the platform Navigation API. *)
  env_newNavigationState : option (W -> NavigationState);
  (** The identifiers [makeUuid] builds from [GetRandomValues], in the
      order they are drawn.  Nothing makes them distinct. *)
  env_uuid : nat -> Uuid;
  (** [new URL(urlOrPath, origin)], for paths that parse. *)
  env_newURL : string -> string -> URL
}.

Record Engine := mkEngine {
  cell : NavigationState;
  beforeHandlers : list BeforeNavigationHandler;
  handlers : list NavigationHandler;
  drawn : nat;
  world : W
}.

Definition withCell (st : Engine) (c : NavigationState) : Engine :=
  {| cell := c; beforeHandlers := beforeHandlers st;
     handlers := handlers st; drawn := drawn st; world := world st |}.

Definition withWorld (st : Engine) (w : W) : Engine :=
  {| cell := cell st; beforeHandlers := beforeHandlers st;
     handlers := handlers st; drawn := drawn st; world := w |}.

Definition withDrawn (st : Engine) (n : nat) : Engine :=
  {| cell := cell st; beforeHandlers := beforeHandlers st;
     handlers := handlers st; drawn := n; world := world st |}.

Record Run (A : Type) := mkRun {
  final : Engine;
  log : list LogItem;
  outcome : Outcome A
}.

Definition M (A : Type) := Engine -> Run A.

Definition ret {A} (a : A) : M A := fun st => mkRun st [] (Done a).

Definition bind {A B} (m : M A) (f : A -> M B) : M B := fun st =>
  let r := m st in
  match outcome r with
  | Done a =>
      let r' := f a (final r) in
      mkRun (final r') (log r ++ log r') (outcome r')
  | Failed e => mkRun (final r) (log r) (Failed e)
  | Died msg => mkRun (final r) (log r) (Died msg)
  | Diverged => mkRun (final r) (log r) Diverged
  end.

Definition die {A} (msg : string) : M A := fun st => mkRun st [] (Died msg).
Definition diverge {A} : M A := fun st => mkRun st [] Diverged.
Definition tell (item : LogItem) : M unit := fun st => mkRun st [item] (Done tt).

(** Reading [entries[index]].  In a state with [0 <= index <
    entries.length] the entry is there, and the source and the model go on
    with it.  Outside such states the source reads [undefined] and throws
    only where it then reads a field of it ([from.key] in [navigate], the
    key of the neighbour in [back] and [forward]); elsewhere it goes on
    with [undefined].  The model has no [undefined] destination: it stops
    there, with this defect. *)
Definition orThrow {A} (o : option A) : M A :=
  match o with
  | Some a => ret a
  | None => die undefinedMessage
  end.

End Engine.

Arguments ret {W A} a.
Arguments bind {W A B} m f.
Arguments die {W A} msg.
Arguments diverge {W A}.
Arguments tell {W} item.
Arguments orThrow {W A} o.

Notation "x <- m ;; k" := (bind m (fun x => k))
  (at level 61, m at next level, right associativity).

(** ** Destination factories ([internal/shared.ts]) *)

Definition isPatchedState (state : JsValue) : bool :=
  match state with
  | JsMarked _ _ _ => true
  | _ => false
  end.

Definition getOriginalState (state : JsValue) : JsValue :=
  match state with
  | JsMarked _ _ inner => inner
  | _ => state
  end.

Definition isDestination (proposed : Target) : bool :=
  match proposed with
  | Materialized _ => true
  | Proposed _ => false
  end.

Definition getOriginFromUrl (url : URL) : string := url_origin url.

Section Navigation.

Variable W : Type.
Variable env : Env W.

Local Abbreviation Eff := (M W).

(** *** The state cell

    Modelled from the spec: the cell is a [LazyRef] of the package
    [@typed/lazy-ref], which is not part of this repository.  Following
    section 4.2 of the specification, [runUpdates] hands out a [get] and a
    [set] that run one after the other without interleaving, and a cell
    built with [LazyRef.transform(ref, from, to)] applies [from] on every
    read and [to] on every write; [set] answers with the value as it is
    read back. *)
Definition cellTransform : NavigationState -> NavigationState :=
  match env_maxEntries env with
  | Some maxEntries => clampNavigationState maxEntries
  | None => fun s => s
  end.

Definition observe (st : Engine W) : NavigationState :=
  cellTransform (cell st).

Definition get : Eff NavigationState :=
  fun st => mkRun st [] (Done (observe st)).

Definition set (a : NavigationState) : Eff NavigationState :=
  fun st =>
    let stored := cellTransform a in
    mkRun (withCell st stored) [LStore stored] (Done (cellTransform stored)).

Definition makeUuid : Eff Uuid :=
  fun st =>
    mkRun (withDrawn st (S (drawn st))) [] (Done (env_uuid env (drawn st))).

Definition getUrl (origin : string) (urlOrPath : string + URL) : URL :=
  match urlOrPath with
  | inl path => env_newURL env path origin
  | inr url => url
  end.

Definition makeDestination (url : URL) (state : JsValue) (origin : string)
  : Eff Destination :=
  match state with
  | JsMarked marker_id marker_key marker_state =>
      ret {| d_id := marker_id;
             d_key := marker_key;
             d_url := url;
             d_state := marker_state;
             d_sameDocument := String.eqb (url_origin url) origin |}
  | _ =>
      id <- makeUuid ;;
      key <- makeUuid ;;
      ret {| d_id := id;
             d_key := key;
             d_url := url;
             d_state := state;
             d_sameDocument := String.eqb (url_origin url) origin |}
  end.

Definition makeOrUpdateDestination (navigationState : NavigationState)
  (url : URL) (state : JsValue) (origin : string) : Eff Destination :=
  current <- orThrow (JsArray.get (entries navigationState)
                                  (index navigationState)) ;;
  let isSameOriginAndPath :=
    String.eqb (url_origin url) (url_origin (d_url current))
    && String.eqb (url_pathname url) (url_pathname (d_url current)) in
  if isSameOriginAndPath then
    id <- makeUuid ;;
    ret {| d_id := id;
           d_key := d_key current;
           d_url := url;
           d_state := getOriginalState state;
           d_sameDocument := String.eqb (url_origin url) origin |}
  else makeDestination url state origin.

Definition upgradeProposedDestination (proposed : ProposedDestination)
  : Eff Destination :=
  id <- makeUuid ;;
  key <- makeUuid ;;
  ret {| d_id := id;
         d_key := key;
         d_url := p_url proposed;
         d_state := p_state proposed;
         d_sameDocument := p_sameDocument proposed |}.

Definition makeRedirectEvent (origin : string) (redirect : RedirectError)
  (from : Destination) : Eff TransitionEvent :=
  let url := getUrl origin (redirect_path redirect) in
  let state := match redirect_options redirect with
               | Some o => ro_state o
               | None => JsUndefined
               end in
  let info := match redirect_options redirect with
              | Some o => ro_info o
              | None => JsUndefined
              end in
  to <- makeDestination url state origin ;;
  ret {| ev_type := Replace;
         ev_from := from;
         ev_to := Materialized to;
         ev_delta := 0;
         ev_info := info |}.

(** *** Handlers *)

(** [handler(event).pipe(Effect.provide(ctx), Effect.either)] *)
Definition pollBefore (h : BeforeNavigationHandler W) (event : TransitionEvent)
  : Eff (HandlerError + option (Deferred W)) :=
  fun st =>
    let '(w, exit) := bh_run h event (observe st) (world st) in
    let answer := match exit with
                  | inl e => PollFailed e
                  | inr (Some _) => PollDeferred
                  | inr None => PollAbstained
                  end in
    mkRun (withWorld st w) [LBefore (bh_name h) event answer] (Done exit).

(** [Effect.either(match)] *)
Definition runDeferred (name : nat) (d : Deferred W)
  : Eff (option HandlerError) :=
  fun st =>
    let '(w, exit) := d (observe st) (world st) in
    mkRun (withWorld st w) [LDeferred name exit] (Done exit).

(** The first loop of [runBeforeHandlers]. *)
Fixpoint pollBeforeHandlers (hs : list (BeforeNavigationHandler W))
  (event : TransitionEvent) (matches : list (nat * Deferred W))
  : Eff (HandlerError + list (nat * Deferred W)) :=
  match hs with
  | [] => ret (inr matches)
  | h :: rest =>
      exit <- pollBefore h event ;;
      match exit with
      | inr (Some d) =>
          pollBeforeHandlers rest event (matches ++ [(bh_name h, d)])
      | inr None => pollBeforeHandlers rest event matches
      | inl e => ret (inl e)
      end
  end.

(** The second loop of [runBeforeHandlers]. *)
Fixpoint runMatches (matches : list (nat * Deferred W))
  : Eff (option HandlerError) :=
  match matches with
  | [] => ret None
  | (name, d) :: rest =>
      exit <- runDeferred name d ;;
      match exit with
      | Some e => ret (Some e)
      | None => runMatches rest
      end
  end.

Definition runBeforeHandlers (event : TransitionEvent)
  : Eff (option HandlerError) :=
  hs <- (fun st => mkRun st [] (Done (beforeHandlers st))) ;;
  polled <- pollBeforeHandlers hs event [] ;;
  match polled with
  | inl e => ret (Some e)
  | inr matches => runMatches matches
  end.

Definition pollAfter (h : NavigationHandler W) (event : NavigationEvent)
  : Eff (option (AfterDeferred W)) :=
  fun st =>
    let '(w, m) := nh_run h event (observe st) (world st) in
    mkRun (withWorld st w) [LAfter (nh_name h) event] (Done m).

Definition runAfterDeferred (name : nat) (d : AfterDeferred W) : Eff unit :=
  fun st =>
    mkRun (withWorld st (d (observe st) (world st))) [LAfterDeferred name]
          (Done tt).

Fixpoint pollHandlers (hs : list (NavigationHandler W))
  (event : NavigationEvent) (matches : list (nat * AfterDeferred W))
  : Eff (list (nat * AfterDeferred W)) :=
  match hs with
  | [] => ret matches
  | h :: rest =>
      m <- pollAfter h event ;;
      match m with
      | Some d => pollHandlers rest event (matches ++ [(nh_name h, d)])
      | None => pollHandlers rest event matches
      end
  end.

(** [Effect.all(matches, { discard: true })], one effect after the other. *)
Fixpoint runAll (matches : list (nat * AfterDeferred W)) : Eff unit :=
  match matches with
  | [] => ret tt
  | (name, d) :: rest => _ <- runAfterDeferred name d ;; runAll rest
  end.

Definition runHandlers (event : NavigationEvent) : Eff unit :=
  hs <- (fun st => mkRun st [] (Done (handlers st))) ;;
  matches <- pollHandlers hs event [] ;;
  runAll matches.

Definition commit (to : Destination) (event : TransitionEvent) : Eff unit :=
  fun st =>
    let '(w, failure) := env_commit env to event (world st) in
    mkRun (withWorld st w) [LCommit to event failure]
          (match failure with
           | None => Done tt
           | Some e => Failed e
           end).

(** *** The transition pipeline *)

(** The state the Mutate phase writes (the [if] chain on
    [beforeEvent.type] at the end of [runNavigationEvent]). *)
Definition mutated (current : NavigationState) (beforeEvent : TransitionEvent)
  (to : Destination) : NavigationState :=
  match ev_type beforeEvent with
  | Push =>
      let index := index current + 1 in
      let entries :=
        JsArray.slice 0 (Some index) (entries current) ++ [to] in
      {| entries := entries; index := index; transition := None |}
  | Replace =>
      let index := index current in
      let before := JsArray.slice 0 (Some index) (entries current) in
      let after := JsArray.slice (index + 1) None (entries current) in
      let entries := before ++ [to] ++ after in
      {| entries := entries; index := index; transition := None |}
  | Reload =>
      {| entries := entries current; index := index current;
         transition := None |}
  | Traverse =>
      let nextIndex := index current + ev_delta beforeEvent in
      {| entries := entries current; index := nextIndex;
         transition := None |}
  end.

(** The first statement of [runNavigationEvent]:
    [set({ ...(yield* get), transition: Option.some(beforeEvent) })]. *)
Definition beginTransition (beforeEvent : TransitionEvent) (depth : nat)
  : Eff NavigationState :=
  _ <- tell (LBegin depth beforeEvent) ;;
  s <- get ;;
  set {| entries := entries s; index := index s;
         transition := Some beforeEvent |}.

(** [handleError], with the call back into [runNavigationEvent] passed
    in. *)
Definition handleErrorWith
  (runNavigationEvent : TransitionEvent -> nat -> Eff Destination)
  (error : HandlerError) (depth : nat) : Eff Destination :=
  if (25 <=? depth)%nat then die loopMessage
  else
    s <- get ;;
    from <- orThrow (JsArray.get (entries s) (index s)) ;;
    match error with
    | CancelNavigation =>
        _ <- set {| entries := entries s; index := index s;
                    transition := None |} ;;
        ret from
    | Redirect redirect =>
        event <- makeRedirectEvent (env_origin env) redirect from ;;
        runNavigationEvent event (depth + 1)%nat
    end.

(** The Commit, Mutate and After phases: [runNavigationEvent] from
    [const to = ...] to its end. *)
Definition finishTransition (current : NavigationState)
  (beforeEvent : TransitionEvent) (skipCommit : bool) : Eff Destination :=
  to <- match ev_to beforeEvent with
        | Materialized d => ret d
        | Proposed p => upgradeProposedDestination p
        end ;;
  _ <- (if skipCommit then ret tt else commit to beforeEvent) ;;
  match env_newNavigationState env with
  | Some newNavigationState =>
      host <- (fun st =>
                 mkRun st [] (Done (newNavigationState (world st)))) ;;
      adopted <- set host ;;
      orThrow (JsArray.get (entries adopted) (index adopted))
  | None =>
      let event := {| nev_type := ev_type beforeEvent;
                      nev_info := ev_info beforeEvent;
                      nev_destination := to |} in
      _ <- set (mutated current beforeEvent to) ;;
      _ <- runHandlers event ;;
      ret to
  end.

Fixpoint runNavigationEvent (fuel : nat) (beforeEvent : TransitionEvent)
  (depth : nat) (skipCommit : bool) : Eff Destination :=
  match fuel with
  | O => diverge
  | S fuel' =>
      current <- beginTransition beforeEvent depth ;;
      beforeError <- (if skipCommit then ret None
                      else runBeforeHandlers beforeEvent) ;;
      match beforeError with
      | Some error =>
          handleErrorWith
            (fun event d => runNavigationEvent fuel' event d false)
            error depth
      | None => finishTransition current beforeEvent skipCommit
      end
  end.

Definition handleError (fuel : nat) (error : HandlerError) (depth : nat)
  : Eff Destination :=
  handleErrorWith (fun event d => runNavigationEvent fuel event d false)
                  error depth.

(** *** Operations *)

(** Phase 1 of [navigate]: the event it assembles. *)
Definition navigateEvent (pathOrUrl : string + URL) (options : NavigateOptions)
  : Eff TransitionEvent :=
  state <- get ;;
  from <- orThrow (JsArray.get (entries state) (index state)) ;;
  let history := match opt_history options with
                 | Some h => h
                 | None => HistoryAuto
                 end in
  to <- makeOrUpdateDestination state (getUrl (env_origin env) pathOrUrl)
                                (opt_state options) (env_origin env) ;;
  let type := match history with
              | HistoryAuto =>
                  if String.eqb (d_key from) (d_key to) then Replace else Push
              | HistoryReplace => Replace
              | HistoryPush => Push
              end in
  ret {| ev_type := type;
         ev_from := from;
         ev_to := Materialized to;
         ev_delta := if type_eqb type Replace then 0 else 1;
         ev_info := opt_info options |}.

Definition navigate (pathOrUrl : string + URL) (options : NavigateOptions)
  (skipCommit : bool) : Eff Destination :=
  event <- navigateEvent pathOrUrl options ;;
  runNavigationEvent redirectFuel event 0 skipCommit.

Definition traverseTo (key : Uuid) (info : JsValue) (skipCommit : bool)
  : Eff Destination :=
  state <- get ;;
  from <- orThrow (JsArray.get (entries state) (index state)) ;;
  let nextIndex :=
    JsArray.findIndex (fun e => String.eqb (d_key e) key) (entries state) in
  if nextIndex =? -1 then ret from
  else
    id <- makeUuid ;;
    target <- orThrow (JsArray.get (entries state) nextIndex) ;;
    let to := {| d_id := id;
                 d_key := d_key target;
                 d_url := d_url target;
                 d_state := d_state target;
                 d_sameDocument := d_sameDocument target |} in
    let delta := nextIndex - index state in
    let event := {| ev_type := Traverse;
                    ev_from := from;
                    ev_to := Materialized to;
                    ev_delta := delta;
                    ev_info := info |} in
    runNavigationEvent redirectFuel event 0 skipCommit.

Definition back (info : JsValue) (skipCommit : bool) : Eff Destination :=
  state <- get ;;
  if index state =? 0 then orThrow (JsArray.get (entries state) (index state))
  else
    previous <- orThrow (JsArray.get (entries state) (index state - 1)) ;;
    traverseTo (d_key previous) info skipCommit.

Definition forward (info : JsValue) (skipCommit : bool) : Eff Destination :=
  state <- get ;;
  if index state =? JsArray.len (entries state) - 1
  then orThrow (JsArray.get (entries state) (index state))
  else
    next <- orThrow (JsArray.get (entries state) (index state + 1)) ;;
    traverseTo (d_key next) info skipCommit.

Definition reload (info : JsValue) (skipCommit : bool) : Eff Destination :=
  state <- get ;;
  current <- orThrow (JsArray.get (entries state) (index state)) ;;
  let event := {| ev_type := Reload;
                  ev_from := current;
                  ev_to := Materialized current;
                  ev_delta := 0;
                  ev_info := info |} in
  runNavigationEvent redirectFuel event 0 skipCommit.

Definition updateCurrentEntry (state : JsValue) : Eff Destination :=
  s <- get ;;
  current <- orThrow (JsArray.get (entries s) (index s)) ;;
  let event := {| ev_type := Replace;
                  ev_from := current;
                  ev_to := Materialized {| d_id := d_id current;
                                           d_key := d_key current;
                                           d_url := d_url current;
                                           d_state := state;
                                           d_sameDocument :=
                                             d_sameDocument current |};
                  ev_delta := 0;
                  ev_info := JsNull |} in
  runNavigationEvent redirectFuel event 0 false.

(** [beforeNavigation] and [onNavigation]: the acquisition that adds the
    pair to the registry ([new Set([...handlers, entry])] with a fresh
    pair). *)
Definition beforeNavigation (h : BeforeNavigationHandler W) : Eff unit :=
  fun st =>
    mkRun {| cell := cell st;
             beforeHandlers := beforeHandlers st ++ [h];
             handlers := handlers st;
             drawn := drawn st;
             world := world st |} [] (Done tt).

Definition onNavigation (h : NavigationHandler W) : Eff unit :=
  fun st =>
    mkRun {| cell := cell st;
             beforeHandlers := beforeHandlers st;
             handlers := handlers st ++ [h];
             drawn := drawn st;
             world := world st |} [] (Done tt).

End Navigation.

(** ** The memory adapter ([internal/memory.ts]) *)

Section Memory.

Variable W : Type.

(** [MemoryOptions] of [Layer.ts]: [currentIndex] and [maxEntries] are
    numbers, and nothing checks them. *)
Record MemoryOptions := mkMemoryOptions {
  mo_entries : list Destination;
  mo_origin : option string;
  mo_base : option string;
  mo_currentIndex : option JsNumber.t;
  mo_maxEntries : option JsNumber.t;
  mo_commit : option (Commit W)
}.

Record InitialMemoryOptions := mkInitialMemoryOptions {
  imo_url : URL;
  imo_origin : option string;
  imo_base : option string;
  imo_maxEntries : option JsNumber.t;
  imo_state : JsValue;
  imo_commit : option (Commit W)
}.

Definition orElse {A} (o : option A) (d : A) : A :=
  match o with
  | Some a => a
  | None => d
  end.

(** The value [setupMemory] hands to [LazyRef.of]. *)
Definition setupMemoryState (options : MemoryOptions)
  : Unchecked.NavigationState :=
  {| Unchecked.entries := mo_entries options;
     Unchecked.index :=
       orElse (mo_currentIndex options)
              (JsNumber.ofZ (JsArray.len (mo_entries options) - 1));
     Unchecked.transition := None |}.

(** [options.maxEntries ?? 50] *)
Definition setupMemoryBound (options : MemoryOptions) : JsNumber.t :=
  orElse (mo_maxEntries options) (JsNumber.ofZ 50).

(** What the first read of the cell of [setupMemory] gives:
    [LazyRef.transform] applies the clamp to the value in the cell. *)
Definition memoryStart (options : MemoryOptions) : Unchecked.NavigationState :=
  Unchecked.clampNavigationState (setupMemoryBound options)
                                 (setupMemoryState options).

Definition noCommit : Commit W := fun _ _ w => (w, None).

(** What [memory] comes to.  The engine of this development keeps its
    entries under an integer bound: for a bound that is a finite number (or
    NaN) that integer is the bound truncated, which is all [slice] reads of
    it; for an infinity there is none. *)
Inductive MemorySetup :=
| MemoryReady (env : Env W)
    (* the environment of the engine set up *)
| MemoryThrows
    (* no origin given and no entry to read one from *)
| MemoryUnbounded.
    (* [maxEntries] is an infinity *)

Definition memory (uuid : nat -> Uuid) (newURL : string -> string -> URL)
  (options : MemoryOptions) : MemorySetup :=
  let current :=
    JsNumber.get (mo_entries options)
                 (orElse (mo_currentIndex options) (JsNumber.ofZ 0)) in
  let origin :=
    match mo_origin options with
    | Some o => Some o
    | None => option_map (fun c => getOriginFromUrl (d_url c)) current
    end in
  match origin with
  | None => MemoryThrows
  | Some o =>
      match JsNumber.toIntegerOrInfinity (setupMemoryBound options) with
      | inr _ => MemoryUnbounded
      | inl maxEntries =>
          MemoryReady
            {| env_origin := o;
               env_base := orElse (mo_base options) "/"%string;
               env_maxEntries := Some maxEntries;
               env_commit := orElse (mo_commit options) noCommit;
               env_newNavigationState := None;
               env_uuid := uuid;
               env_newURL := newURL |}
      end
  end.

(** The engine as [setupMemory] leaves it: the raw value in the cell, no
    handler registered.  The cell of this development holds an integer
    index: there is an engine when the index given is an integer (or
    missing), and [None] when it is a fraction, NaN or an infinity. *)
Definition memoryEngine (options : MemoryOptions) (drawn0 : nat) (w : W)
  : option (Engine W) :=
  option_map
    (fun s =>
       {| cell := s;
          beforeHandlers := [];
          handlers := [];
          drawn := drawn0;
          world := w |})
    (checked (setupMemoryState options)).

(** [initialMemory]: the options it hands to [memory], with the one
    destination [makeDestination] builds for [options.url] (taken as a
    [URL] object here), and the number of identifiers drawn so far. *)
Definition initialMemoryOptions (uuid : nat -> Uuid)
  (options : InitialMemoryOptions) (drawn0 : nat)
  : MemoryOptions * nat :=
  let origin := orElse (imo_origin options) (getOriginFromUrl (imo_url options)) in
  let base := orElse (imo_base options) "/"%string in
  let '(destination, drawn1) :=
    match imo_state options with
    | JsMarked marker_id marker_key marker_state =>
        ({| d_id := marker_id; d_key := marker_key;
            d_url := imo_url options; d_state := marker_state;
            d_sameDocument :=
              String.eqb (url_origin (imo_url options)) origin |}, drawn0)
    | state =>
        ({| d_id := uuid drawn0; d_key := uuid (S drawn0);
            d_url := imo_url options; d_state := state;
            d_sameDocument :=
              String.eqb (url_origin (imo_url options)) origin |},
         S (S drawn0))
    end in
  ({| mo_entries := [destination];
      mo_origin := Some origin;
      mo_base := Some base;
      mo_currentIndex := Some (JsNumber.ofZ 0);
      mo_maxEntries := imo_maxEntries options;
      mo_commit := imo_commit options |}, drawn1).

End Memory.

(** ** Sequences of operations *)

Section Sessions.

Variable W : Type.
Variable env : Env W.

(** The operations that navigate, with the arguments the engine's own
    functions take. *)
Inductive Request :=
| ReqNavigate (pathOrUrl : string + URL) (options : NavigateOptions)
    (skipCommit : bool)
| ReqBack (info : JsValue) (skipCommit : bool)
| ReqForward (info : JsValue) (skipCommit : bool)
| ReqTraverseTo (key : Uuid) (info : JsValue) (skipCommit : bool)
| ReqReload (info : JsValue) (skipCommit : bool)
| ReqUpdateCurrentEntry (state : JsValue).

Definition request (q : Request) : M W Destination :=
  match q with
  | ReqNavigate p o skip => navigate env p o skip
  | ReqBack i skip => back env i skip
  | ReqForward i skip => forward env i skip
  | ReqTraverseTo k i skip => traverseTo env k i skip
  | ReqReload i skip => reload env i skip
  | ReqUpdateCurrentEntry s => updateCurrentEntry env s
  end.

(** The [skipCommit] a request runs its transition with. *)
Definition skips (q : Request) : bool :=
  match q with
  | ReqNavigate _ _ skip | ReqBack _ skip | ReqForward _ skip | ReqTraverseTo _ _ skip
  | ReqReload _ skip => skip
  | ReqUpdateCurrentEntry _ => false
  end.

Inductive Operation :=
| OpRequest (q : Request)
| OpBeforeNavigation (h : BeforeNavigationHandler W)
| OpOnNavigation (h : NavigationHandler W).

(** The engine an operation leaves behind, whether it succeeded, failed or
    died. *)
Definition perform (op : Operation) (st : Engine W) : Engine W :=
  match op with
  | OpRequest q => final (request q st)
  | OpBeforeNavigation h => final (beforeNavigation h st)
  | OpOnNavigation h => final (onNavigation h st)
  end.

Definition performAll (ops : list Operation) (st : Engine W) : Engine W :=
  fold_left (fun s op => perform op s) ops st.

Inductive reachable (start : Engine W) : Engine W -> Prop :=
| reachable_start : reachable start start
| reachable_step st op :
    reachable start st -> reachable start (perform op st).

End Sessions.

(** ** Reading a log *)

Fixpoint filterMap {A B} (f : A -> option B) (l : list A) : list B :=
  match l with
  | [] => []
  | x :: rest =>
      match f x with
      | Some y => y :: filterMap f rest
      | None => filterMap f rest
      end
  end.

(** The transitions [runNavigationEvent] was entered with, with their
    depth. *)
Definition begins : list LogItem -> list (nat * TransitionEvent) :=
  filterMap (fun i => match i with
                      | LBegin d e => Some (d, e)
                      | _ => None
                      end).

(** The calls of before-handlers. *)
Definition beforePolls : list LogItem -> list (nat * TransitionEvent * Polled) :=
  filterMap (fun i => match i with
                      | LBefore n e a => Some (n, e, a)
                      | _ => None
                      end).

(** The deferred effects of before-handlers that were run. *)
Definition deferredRuns : list LogItem -> list (nat * option HandlerError) :=
  filterMap (fun i => match i with
                      | LDeferred n f => Some (n, f)
                      | _ => None
                      end).

(** The calls of after-handlers. *)
Definition afterPolls : list LogItem -> list (nat * NavigationEvent) :=
  filterMap (fun i => match i with
                      | LAfter n e => Some (n, e)
                      | _ => None
                      end).

(** The calls of the adapter's commit. *)
Definition commits
  : list LogItem -> list (Destination * TransitionEvent * option NavigationError) :=
  filterMap (fun i => match i with
                      | LCommit t e f => Some (t, e, f)
                      | _ => None
                      end).

(** The errors before-handlers and their deferred effects raised. *)
Definition failureOf (i : LogItem) : option HandlerError :=
  match i with
  | LBefore _ _ (PollFailed e) => Some e
  | LDeferred _ (Some e) => Some e
  | _ => None
  end.

Definition failures : list LogItem -> list HandlerError := filterMap failureOf.

(** The names of the handlers whose poll answered with a deferred effect. *)
Definition deferring (polls : list (nat * Polled)) : list nat :=
  filterMap (fun p => match snd p with
                      | PollDeferred => Some (fst p)
                      | _ => None
                      end) polls.

Definition pollFailed (a : Polled) : bool :=
  match a with
  | PollFailed _ => true
  | _ => false
  end.

(** ** The two handler phases, as the specification words them

    Written from the specification, for [runBeforeHandlers] and
    [runHandlers] to be compared with: the handlers are called one after
    the other, each in the world the one before left; the effects they
    returned are run afterwards, one after the other, each in the world the
    one before left.  No accumulator, no log. *)

Section Phases.

Variable W : Type.

(** What a before-handler answered, as the log of a poll records it. *)
Definition polled (exit : HandlerError + option (Deferred W)) : Polled :=
  match exit with
  | inl e => PollFailed e
  | inr (Some _) => PollDeferred
  | inr None => PollAbstained
  end.

(** The polls of the Before phase: the handlers in the order of the
    registry, up to and with the first whose poll fails.  Answers with the
    world the last poll left and with what each handler answered. *)
Fixpoint pollInOrder (hs : list (BeforeNavigationHandler W))
  (event : TransitionEvent) (s : NavigationState) (w : W)
  : W * list (nat * (HandlerError + option (Deferred W))) :=
  match hs with
  | [] => (w, [])
  | h :: rest =>
      let '(w1, exit) := bh_run h event s w in
      match exit with
      | inl _ => (w1, [(bh_name h, exit)])
      | inr _ =>
          let '(w2, exits) := pollInOrder rest event s w1 in
          (w2, (bh_name h, exit) :: exits)
      end
  end.

(** The failure among the answers of the polls, if there is one. *)
Fixpoint pollFailure (exits : list (nat * (HandlerError + option (Deferred W))))
  : option HandlerError :=
  match exits with
  | [] => None
  | (_, inl e) :: _ => Some e
  | (_, inr _) :: rest => pollFailure rest
  end.

(** The deferred effects the polls returned, with the names of the handlers
    that returned them. *)
Fixpoint collected (exits : list (nat * (HandlerError + option (Deferred W))))
  : list (nat * Deferred W) :=
  match exits with
  | [] => []
  | (name, inr (Some d)) :: rest => (name, d) :: collected rest
  | _ :: rest => collected rest
  end.

(** The deferred effects, run in order up to and with the first that
    fails. *)
Fixpoint runInOrder (matches : list (nat * Deferred W)) (s : NavigationState)
  (w : W) : W * list (nat * option HandlerError) :=
  match matches with
  | [] => (w, [])
  | (name, d) :: rest =>
      let '(w1, exit) := d s w in
      match exit with
      | Some _ => (w1, [(name, exit)])
      | None =>
          let '(w2, runs) := runInOrder rest s w1 in
          (w2, (name, None) :: runs)
      end
  end.

Fixpoint runFailure (runs : list (nat * option HandlerError))
  : option HandlerError :=
  match runs with
  | [] => None
  | (_, Some e) :: _ => Some e
  | (_, None) :: rest => runFailure rest
  end.

(** The Before phase: the polls, then, when none failed, the deferred
    effects.  Answers with the last world, the answers of the polls and the
    answers of the effects that were run. *)
Definition beforePhase (hs : list (BeforeNavigationHandler W))
  (event : TransitionEvent) (s : NavigationState) (w : W)
  : W * list (nat * (HandlerError + option (Deferred W)))
    * list (nat * option HandlerError) :=
  let '(w1, exits) := pollInOrder hs event s w in
  match pollFailure exits with
  | Some _ => (w1, exits, [])
  | None =>
      let '(w2, runs) := runInOrder (collected exits) s w1 in
      (w2, exits, runs)
  end.

(** The calls of the After phase: every handler, in the order of the
    registry. *)
Fixpoint notifyInOrder (hs : list (NavigationHandler W))
  (event : NavigationEvent) (s : NavigationState) (w : W)
  : W * list (nat * option (AfterDeferred W)) :=
  match hs with
  | [] => (w, [])
  | h :: rest =>
      let '(w1, answer) := nh_run h event s w in
      let '(w2, answers) := notifyInOrder rest event s w1 in
      (w2, (nh_name h, answer) :: answers)
  end.

(** The effects the after-handlers returned. *)
Fixpoint returned (answers : list (nat * option (AfterDeferred W)))
  : list (nat * AfterDeferred W) :=
  match answers with
  | [] => []
  | (name, Some d) :: rest => (name, d) :: returned rest
  | (_, None) :: rest => returned rest
  end.

(** The world once the effects have run, in order. *)
Definition settle (effects : list (nat * AfterDeferred W))
  (s : NavigationState) (w : W) : W :=
  fold_left (fun w' effect => snd effect s w') effects w.

(** The After phase: the last world and the effects that were run. *)
Definition afterPhase (hs : list (NavigationHandler W))
  (event : NavigationEvent) (s : NavigationState) (w : W)
  : W * list (nat * AfterDeferred W) :=
  let '(w1, answers) := notifyInOrder hs event s w in
  (settle (returned answers) s w1, returned answers).

End Phases.

(** ** Well-formed states and configurations *)

Definition wellFormed (s : NavigationState) : Prop :=
  0 <= index s < JsArray.len (entries s).

(** A bound on the entries makes sense from 1 on. *)
Definition validBound {W} (env : Env W) : Prop :=
  match env_maxEntries env with
  | Some maxEntries => 1 <= maxEntries
  | None => True
  end.

Definition withTransition (s : NavigationState) (t : option TransitionEvent)
  : NavigationState :=
  {| entries := entries s; index := index s; transition := t |}.

(** The rule [navigate], [reload], [updateCurrentEntry] and
    [makeRedirectEvent] follow for [delta]. *)
Definition deltaRule (event : TransitionEvent) : Prop :=
  match ev_type event with
  | Push => ev_delta event = 1
  | Replace | Reload => ev_delta event = 0
  | Traverse => True
  end.

(** The state of the cell once [beginTransition] has run. *)
Definition begun {W} (env : Env W) (st : Engine W) (event : TransitionEvent)
  : Engine W :=
  withCell st (cellTransform env (withTransition (observe env st) (Some event))).

(** What the Mutate phase does to the state read through the cell, by the
    type of the committed event.  [old] is the state before the operation,
    [new] the state after it. *)
Definition mutation {W} (env : Env W) (old new : NavigationState)
  (event : TransitionEvent) (to : Destination) : Prop :=
  transition new = None
  /\ match ev_type event with
     | Push =>
         let grown := firstn (Z.to_nat (index old + 1)) (entries old) ++ [to] in
         (* the entries after the old index are gone, the target is appended,
            and the bound keeps the last entries of that *)
         (exists evicted, grown = evicted ++ entries new)
         /\ JsArray.len (entries new)
            = match env_maxEntries env with
              | Some maxEntries => Z.min (index old + 2) maxEntries
              | None => index old + 2
              end
         /\ index new = JsArray.len (entries new) - 1
         /\ JsArray.get (entries new) (index new) = Some to
     | Replace =>
         JsArray.len (entries new) = JsArray.len (entries old)
         /\ index new = index old
         /\ JsArray.get (entries new) (index old) = Some to
         /\ (forall i, i <> index old ->
                       JsArray.get (entries new) i = JsArray.get (entries old) i)
     | Reload =>
         entries new = entries old /\ index new = index old
     | Traverse =>
         entries new = entries old
         /\ (0 <= index old + ev_delta event < JsArray.len (entries old) ->
             index new = index old + ev_delta event)
     end.

Definition isBeforeItem (i : LogItem) : Prop :=
  match i with
  | LBefore _ _ _ | LDeferred _ _ => True
  | _ => False
  end.

Definition isAfterItem (i : LogItem) : Prop :=
  match i with
  | LAfter _ _ | LAfterDeferred _ => True
  | _ => False
  end.

(** The paths through [runNavigationEvent] and [handleError], as a relation
    between the arguments, the engine before and the run. *)
Section Paths.

Variable W : Type.
Variable env : Env W.

Inductive Path
  : nat -> nat -> TransitionEvent -> bool -> Engine W -> Run W Destination
    -> Prop :=
| path_no_fuel depth event skip st :
    Path 0 depth event skip st (mkRun st [] Diverged)
| path_loop fuel depth event st rb error :
    rb = runBeforeHandlers env event (begun env st event) ->
    outcome rb = Done (Some error) ->
    (25 <= depth)%nat ->
    Path (S fuel) depth event false st
         (mkRun (final rb)
                (LBegin depth event :: LStore (cell (begun env st event))
                 :: log rb)
                (Died loopMessage))
| path_undefined fuel depth event st rb error :
    rb = runBeforeHandlers env event (begun env st event) ->
    outcome rb = Done (Some error) ->
    (depth < 25)%nat ->
    JsArray.get (entries (observe env (final rb)))
                (index (observe env (final rb))) = None ->
    Path (S fuel) depth event false st
         (mkRun (final rb)
                (LBegin depth event :: LStore (cell (begun env st event))
                 :: log rb)
                (Died undefinedMessage))
| path_cancel fuel depth event st rb from stored :
    rb = runBeforeHandlers env event (begun env st event) ->
    outcome rb = Done (Some CancelNavigation) ->
    (depth < 25)%nat ->
    JsArray.get (entries (observe env (final rb)))
                (index (observe env (final rb))) = Some from ->
    stored = cellTransform env (withTransition (observe env (final rb)) None) ->
    Path (S fuel) depth event false st
         (mkRun (withCell (final rb) stored)
                (LBegin depth event :: LStore (cell (begun env st event))
                 :: log rb ++ [LStore stored])
                (Done from))
| path_redirect fuel depth event st rb redirect from rm event' r :
    rb = runBeforeHandlers env event (begun env st event) ->
    outcome rb = Done (Some (Redirect redirect)) ->
    (depth < 25)%nat ->
    JsArray.get (entries (observe env (final rb)))
                (index (observe env (final rb))) = Some from ->
    rm = makeRedirectEvent env (env_origin env) redirect from (final rb) ->
    outcome rm = Done event' ->
    log rm = [] ->
    Path fuel (S depth) event' false (final rm) r ->
    Path (S fuel) depth event false st
         (mkRun (final r)
                (LBegin depth event :: LStore (cell (begun env st event))
                 :: log rb ++ log r)
                (outcome r))
| path_pass fuel depth event st rb rf :
    rb = runBeforeHandlers env event (begun env st event) ->
    outcome rb = Done None ->
    rf = finishTransition env (observe env (begun env st event)) event false
                          (final rb) ->
    Path (S fuel) depth event false st
         (mkRun (final rf)
                (LBegin depth event :: LStore (cell (begun env st event))
                 :: log rb ++ log rf)
                (outcome rf))
| path_skip fuel depth event st rf :
    rf = finishTransition env (observe env (begun env st event)) event true
                          (begun env st event) ->
    Path (S fuel) depth event true st
         (mkRun (final rf)
                (LBegin depth event :: LStore (cell (begun env st event))
                 :: log rf)
                (outcome rf)).

End Paths.

(** A traverse event fits a state when its delta points at an existing
    entry, as the events [traverseTo] builds do. *)
Definition fits (s : NavigationState) (event : TransitionEvent) : Prop :=
  ev_type event = Traverse ->
  0 <= index s + ev_delta event < JsArray.len (entries s).

(** ** The read-only views ([internal/shared.ts])

    [canGoBack], [canGoForward] and [currentEntry] of
    [setupFromModelAndIntent]: [LazyRef.map] of the state cell. *)

Section Views.

Variable W : Type.
Variable env : Env W.

Definition canGoBack (st : Engine W) : bool :=
  0 <? index (observe env st).

Definition canGoForward (st : Engine W) : bool :=
  index (observe env st) <? JsArray.len (entries (observe env st)) - 1.

(** [s.entries[s.index]], [None] for [undefined]. *)
Definition currentEntry (st : Engine W) : option Destination :=
  JsArray.get (entries (observe env st)) (index (observe env st)).

(** The release of [beforeNavigation] and of [onNavigation]:
    [updated.delete(entry)] takes the registered pair out of the set.  The
    pair is a fresh object at every registration; in the registries of the
    model it is known by its name. *)
Fixpoint deleteBefore (name : nat) (l : list (BeforeNavigationHandler W))
  : list (BeforeNavigationHandler W) :=
  match l with
  | [] => []
  | h :: rest =>
      if Nat.eqb (bh_name h) name then rest else h :: deleteBefore name rest
  end.

Fixpoint deleteAfter (name : nat) (l : list (NavigationHandler W))
  : list (NavigationHandler W) :=
  match l with
  | [] => []
  | h :: rest =>
      if Nat.eqb (nh_name h) name then rest else h :: deleteAfter name rest
  end.

Definition releaseBeforeNavigation (h : BeforeNavigationHandler W)
  : M W unit :=
  fun st =>
    mkRun {| cell := cell st;
             beforeHandlers := deleteBefore (bh_name h) (beforeHandlers st);
             handlers := handlers st;
             drawn := drawn st;
             world := world st |} [] (Done tt).

Definition releaseOnNavigation (h : NavigationHandler W) : M W unit :=
  fun st =>
    mkRun {| cell := cell st;
             beforeHandlers := beforeHandlers st;
             handlers := deleteAfter (nh_name h) (handlers st);
             drawn := drawn st;
             world := world st |} [] (Done tt).

End Views.

(** ** The window adapters ([internal/fromWindow.ts]) *)

(** [HistoryEvent]: what the patched [history] methods and the listeners
    for [popstate] and [hashchange] hand to the engine. *)
Inductive HistoryEvent :=
| PushStateEvent (state : JsValue) (url : URL) (skipCommit : bool)
| ReplaceStateEvent (state : JsValue) (url : option URL) (skipCommit : bool)
| TraverseEvent (delta : Z) (skipCommit : bool)
| TraverseToEvent (key : Uuid) (state : JsValue) (skipCommit : bool).

(** The calls the adapter makes on the host's own [history] and
    [location]; for [HostReplaceState], [None] is [window.location.href]. *)
Inductive HostCall :=
| HostPushState (data : JsValue) (url : URL)
| HostReplaceState (data : JsValue) (url : option URL)
| HostReload
| HostGo (delta : Z).

(** [navigate(url, {}, ...)]: no option given. *)
Definition noOptions : NavigateOptions :=
  {| opt_history := None; opt_state := JsUndefined; opt_info := JsUndefined |}.

Section History.

(** The world of the handlers besides the host's history. *)
Variable U : Type.

(** [commit] of [setupWithHistory]; the host is the list of the calls made
    on it so far.  The calls themselves are taken not to throw. *)
Definition historyCommit : Commit (U * list HostCall) :=
  fun to event w =>
    let '(u, host) := w in
    match ev_type event with
    | Push =>
        ((u, host ++ [HostPushState
                        (JsMarked (d_id to) (d_key to) (d_state to))
                        (d_url to)]), None)
    | Replace =>
        ((u, host ++ [HostReplaceState
                        (JsMarked (d_id to) (d_key to) (d_state to))
                        (Some (d_url to))]), None)
    | Reload => ((u, host ++ [HostReload]), None)
    | Traverse =>
        ((u, host ++ [HostGo (ev_delta event);
                      HostReplaceState
                        (JsMarked (d_id to) (d_key to) (d_state to))
                        None]), None)
    end.

(** [fromWindow] for a window without the platform Navigation API: the
    environment [setupFromModelAndIntent] is called with. *)
Definition fromWindow (origin base : string) (uuid : nat -> Uuid)
  (newURL : string -> string -> URL) : Env (U * list HostCall) :=
  {| env_origin := origin;
     env_base := base;
     env_maxEntries := None;
     env_commit := historyCommit;
     env_newNavigationState := None;
     env_uuid := uuid;
     env_newURL := newURL |}.

Variable env : Env (U * list HostCall).

(** [handleHistoryEvent] of [fromWindow]. *)
Definition handleHistoryEvent (event : HistoryEvent)
  : M (U * list HostCall) Destination :=
  match event with
  | PushStateEvent _ url skipCommit =>
      navigate env (inr url) noOptions skipCommit
  | ReplaceStateEvent state (Some url) skipCommit =>
      navigate env (inr url)
               {| opt_history := Some HistoryReplace;
                  opt_state := state;
                  opt_info := JsUndefined |}
               skipCommit
  | ReplaceStateEvent state None _ => updateCurrentEntry env state
  | TraverseEvent delta skipCommit =>
      s <- get env ;;
      let toIndex :=
        Z.min (Z.max 0 (index s + delta)) (JsArray.len (entries s) - 1) in
      to <- orThrow (JsArray.get (entries s) toIndex) ;;
      traverseTo env (d_key to) JsUndefined skipCommit
  | TraverseToEvent key state skipCommit =>
      _ <- traverseTo env key JsUndefined skipCommit ;;
      updateCurrentEntry env state
  end.

(** The state cell [setupWithHistory] builds at its first read: one entry,
    made from the location and the host's history state. *)
Definition setupWithHistory (href : URL) (historyState : JsValue)
  (origin : string) : M (U * list HostCall) NavigationState :=
  destination <- makeDestination env href historyState origin ;;
  ret {| entries := [destination]; index := 0; transition := None |}.

End History.

(** The shims [patchHistory] puts in the place of the host's [history]
    methods, and its two listeners: the event each hands to [onEvent]. *)
Module PatchedHistory.

Section Shims.

Variable W : Type.
Variable env : Env W.

(** [location.origin] *)
Variable origin : string.

(** [if (url)] for a [string | URL | null | undefined]. *)
Definition truthy (url : option (string + URL)) : option (string + URL) :=
  match url with
  | Some (inl s) => if String.eqb s "" then None else Some (inl s)
  | Some (inr u) => Some (inr u)
  | None => None
  end.

Definition pushState (state : JsValue) (url : option (string + URL))
  : HistoryEvent :=
  match truthy url with
  | Some u => PushStateEvent state (getUrl env origin u) false
  | None => ReplaceStateEvent state None false
  end.

Definition replaceState (state : JsValue) (url : option (string + URL))
  : HistoryEvent :=
  ReplaceStateEvent state
    (match truthy url with
     | Some u => Some (getUrl env origin u)
     | None => None
     end)
    false.

(** [if (delta && delta !== 0)] *)
Definition go (delta : option Z) : option HistoryEvent :=
  match delta with
  | Some d => if d =? 0 then None else Some (TraverseEvent d false)
  | None => None
  end.

Definition back : HistoryEvent := TraverseEvent (-1) false.

Definition forward : HistoryEvent := TraverseEvent 1 false.

(** [onHashChange], with [history.state] and [new URL(ev.newURL)]. *)
Definition onHashChange (historyState : JsValue) (newURL : URL)
  : HistoryEvent :=
  ReplaceStateEvent historyState (Some newURL) false.

(** [onPopState], with [ev.state] and [new URL(location.href)]. *)
Definition onPopState (state : JsValue) (href : URL) : HistoryEvent :=
  match state with
  | JsMarked _ marker_key marker_state =>
      TraverseToEvent marker_key marker_state true
  | _ => ReplaceStateEvent state (Some href) true
  end.

End Shims.

End PatchedHistory.

(** ** Search parameters and form data ([Url.ts], [Forms.ts]) *)

(** The platform's [URLSearchParams] and [FormData]: a list of pairs of a
    name and a value, in the order they were appended. *)
Module URLSearchParams.

Section Ops.
Context {V : Type}.

Definition append (name : string) (value : V) (p : list (string * V))
  : list (string * V) :=
  p ++ [(name, value)].

Definition getAll (name : string) (p : list (string * V)) : list V :=
  map snd (filter (fun kv => String.eqb (fst kv) name) p).

Definition has (name : string) (p : list (string * V)) : bool :=
  existsb (fun kv => String.eqb (fst kv) name) p.

(** [set]: the first pair of that name takes the value and the others of
    the name are deleted; without such a pair one is appended. *)
Fixpoint set (name : string) (value : V) (p : list (string * V))
  : list (string * V) :=
  match p with
  | [] => [(name, value)]
  | (k, v) :: rest =>
      if String.eqb k name
      then (k, value)
           :: filter (fun kv => negb (String.eqb (fst kv) name)) rest
      else (k, v) :: set name value rest
  end.
End Ops.

End URLSearchParams.

(** A JavaScript object used as a record: its own string keys, each once,
    with their values. *)
Module JsObject.

Section Ops.
Context {V : Type}.

(** The own property [key] is written, or created after the others. *)
Fixpoint define (key : string) (value : V) (o : list (string * V))
  : list (string * V) :=
  match o with
  | [] => [(key, value)]
  | (k, v) :: rest =>
      if String.eqb k key then (k, value) :: rest
      else (k, v) :: define key value rest
  end.

(** [o[key] = value], for an object made by [{}].  The key [__proto__]
    names the accessor the object inherits from [Object.prototype]:
    assigning to it makes no own property (a string is ignored, an object
    becomes the prototype). *)
Definition assign (key : string) (value : V) (o : list (string * V))
  : list (string * V) :=
  if String.eqb key "__proto__" then o else define key value o.

(** The own property [key] of [o]. *)
Fixpoint lookup (key : string) (o : list (string * V)) : option V :=
  match o with
  | [] => None
  | (k, v) :: rest => if String.eqb k key then Some v else lookup key rest
  end.
End Ops.

End JsObject.

(** [string | readonly string[]] *)
Inductive ParamValue :=
| Single (value : string)
| Many (values : list string).

Section SearchParams.

(** [Object.entries]: the properties of an object in the order the
    platform enumerates them (keys that are array indices first, in
    ascending order, then the other keys in the order of their creation).
    What is proved below holds for every order. *)
Variable entriesOf :
  list (string * ParamValue) -> list (string * ParamValue).

Definition structToUrlSearchParams (struct : list (string * ParamValue))
  : list (string * string) :=
  fold_left
    (fun searchParams kv =>
       match snd kv with
       | Many values =>
           fold_left (fun p v => URLSearchParams.append (fst kv) v p)
                     values searchParams
       | Single value => URLSearchParams.set (fst kv) value searchParams
       end)
    (entriesOf struct) [].

Definition urlSearchParamsToStruct (searchParams : list (string * string))
  : list (string * ParamValue) :=
  fold_left
    (fun struct kv =>
       let values := URLSearchParams.getAll (fst kv) searchParams in
       match values with
       | [value] => JsObject.assign (fst kv) (Single value) struct
       | _ => JsObject.assign (fst kv) (Many values) struct
       end)
    searchParams [].

End SearchParams.

(** A [Blob] is bytes with a media type; a [File] is a [Blob] with a name
    and the time it was last modified. *)
Record Blob := mkBlob {
  blob_type : string;
  blob_data : list Byte.byte
}.

Record File := mkFile {
  file_name : string;
  file_type : string;
  file_lastModified : Z;
  file_data : list Byte.byte
}.

(** [FormDataEntryValue] of [Forms.ts]: a [Blob], a [File] or a string. *)
Inductive FormDataEntryValue :=
| EntryBlob (blob : Blob)
| EntryFile (file : File)
| EntryString (value : string).

Module FormData.

(** What a [FormData] holds under a name: a string or a [File]. *)
Inductive Value :=
| Text (value : string)
| Attached (file : File).

(** [append(name, value)] stores a string and a [File] as they are.  A
    [Blob] that is not a [File] is stored as a new [File] of the same bytes
    and type, named [blob], last modified at the time [now] of the call. *)
Definition store (now : Z) (value : FormDataEntryValue) : Value :=
  match value with
  | EntryBlob blob =>
      Attached {| file_name := "blob";
                  file_type := blob_type blob;
                  file_lastModified := now;
                  file_data := blob_data blob |}
  | EntryFile file => Attached file
  | EntryString value => Text value
  end.

Definition append (now : Z) (name : string) (value : FormDataEntryValue)
  (formData : list (string * Value)) : list (string * Value) :=
  formData ++ [(name, store now value)].

Definition getAll (name : string) (formData : list (string * Value))
  : list Value :=
  map snd (filter (fun kv => String.eqb (fst kv) name) formData).

(** What [forEach] hands to its callback. *)
Definition read (value : Value) : FormDataEntryValue :=
  match value with
  | Text value => EntryString value
  | Attached file => EntryFile file
  end.

End FormData.

Section Forms.

(** [clock k] is the time at the call of [append] that stores entry [k]
    of a [FormData]; [entriesOf] is the order in which [Object.entries]
    enumerates a record.  (A [File] assigned to [__proto__] becomes the
    prototype of the record; what the record then inherits from it is not
    part of the model.) *)
Variable clock : nat -> Z.

Variable entriesOf : list (string * FormDataEntryValue)
                     -> list (string * FormDataEntryValue).

Definition formDataToStruct (formData : list (string * FormData.Value))
  : list (string * FormDataEntryValue) :=
  fold_left (fun record kv =>
               JsObject.assign (fst kv) (FormData.read (snd kv)) record)
            formData [].

Definition structToFormData (struct : list (string * FormDataEntryValue))
  : list (string * FormData.Value) :=
  fold_left (fun formData kv =>
               FormData.append (clock (length formData)) (fst kv) (snd kv)
                               formData)
            (entriesOf struct) [].

End Forms.

(** ** Blocking ([BlockNavigation.ts]) *)

Inductive InternalBlockState :=
| Unblocked
| Blocked (event : TransitionEvent) (deferred : nat).

Section Blocking.

(** What [params.shouldBlock] reads and writes. *)
Variable V : Type.

(** The cell [blockState], the number of [Deferred]s made so far (a
    [Deferred] is known by its number) and the world of [shouldBlock]. *)
Record BlockWorld := mkBlockWorld {
  blockState : InternalBlockState;
  made : nat;
  user : V
}.

(** [params.shouldBlock], when given: it answers with a boolean or fails
    with a redirect or a cancellation. *)
Variable shouldBlock :
  option (TransitionEvent -> V -> V * (HandlerError + bool)).

(** The before-handler [useBlockNavigation] registers.  It runs inside
    [LazyRef.modifyEffect(blockState, ...)]: it answers with the first
    component of the pair and the cell takes the second; a failure leaves
    the cell as it was.  [Some d] is the deferred effect
    [Deferred.await] of the [Deferred] number [d]. *)
Definition blockHandler (event : TransitionEvent) (w : BlockWorld)
  : BlockWorld * (HandlerError + option nat) :=
  match blockState w with
  | Blocked _ _ => (w, inr None)
  | Unblocked =>
      let blocked :=
        fun v =>
          ({| blockState := Blocked event (made w);
              made := S (made w);
              user := v |}, inr (Some (made w))) in
      match shouldBlock with
      | Some ask =>
          let '(v, answer) := ask event (user w) in
          match answer with
          | inl e =>
              ({| blockState := Unblocked; made := made w; user := v |}, inl e)
          | inr false =>
              ({| blockState := Unblocked; made := made w; user := v |},
               inr None)
          | inr true => blocked v
          end
      | None => blocked (user w)
      end
  end.

(** [isBlocking] *)
Definition isBlocking (w : BlockWorld) : bool :=
  match blockState w with
  | Blocked _ _ => true
  | Unblocked => false
  end.

(** The handler called for one event after the other. *)
Fixpoint blockAll (events : list TransitionEvent) (w : BlockWorld)
  : BlockWorld * list (HandlerError + option nat) :=
  match events with
  | [] => (w, [])
  | event :: rest =>
      let '(w1, answer) := blockHandler event w in
      let '(w2, answers) := blockAll rest w1 in
      (w2, answer :: answers)
  end.

End Blocking.

(** ** The events the operations build *)

(** The destination [traverseTo] asks for: the entry found, under a new
    id. *)
Definition revisited (target : Destination) (id : Uuid) : Destination :=
  {| d_id := id;
     d_key := d_key target;
     d_url := d_url target;
     d_state := d_state target;
     d_sameDocument := d_sameDocument target |}.

(** The destination [updateCurrentEntry] asks for: the current entry with
    another state. *)
Definition restated (current : Destination) (state : JsValue) : Destination :=
  {| d_id := d_id current;
     d_key := d_key current;
     d_url := d_url current;
     d_state := state;
     d_sameDocument := d_sameDocument current |}.

Definition restatement (current : Destination) (state : JsValue)
  : TransitionEvent :=
  {| ev_type := Replace;
     ev_from := current;
     ev_to := Materialized (restated current state);
     ev_delta := 0;
     ev_info := JsNull |}.

(** Two destinations that differ in their id at most. *)
Definition sameEntry (a b : Destination) : Prop :=
  d_key a = d_key b /\ d_url a = d_url b /\ d_state a = d_state b
  /\ d_sameDocument a = d_sameDocument b.

(** The target of a reload event is the current entry, and the target of
    a traverse event is the entry its delta points at, under another id;
    that entry is the first to carry its key: so the operations build
    them. *)
Definition settled (s : NavigationState) (event : TransitionEvent) : Prop :=
  match ev_type event with
  | Reload =>
      exists current,
        JsArray.get (entries s) (index s) = Some current
        /\ ev_to event = Materialized current
  | Traverse =>
      exists target id,
        JsArray.get (entries s) (index s + ev_delta event) = Some target
        /\ ev_to event = Materialized (revisited target id)
        /\ JsArray.findIndex (fun e => String.eqb (d_key e) (d_key target))
                             (entries s)
           = index s + ev_delta event
  | Push | Replace => True
  end.

Section Events.

Variable W : Type.
Variable env : Env W.

(** The event of [traverseTo] for the entry [target] found at index [i]. *)
Definition traversal (st : Engine W) (from target : Destination) (i : Z)
  (info : JsValue) : TransitionEvent :=
  {| ev_type := Traverse;
     ev_from := from;
     ev_to := Materialized (revisited target (env_uuid env (drawn st)));
     ev_delta := i - index (observe env st);
     ev_info := info |}.

(** An operation stops before any transition (the current entry is
    missing, or there is nothing to do), or hands [runNavigationEvent] an
    event whose target is settled. *)
Definition started (st : Engine W) (skip : bool) (r : Run W Destination)
  : Prop :=
  r = mkRun st [] (Died undefinedMessage)
  \/ (exists d, r = mkRun st [] (Done d) /\ currentEntry env st = Some d)
  \/ (exists event n,
         r = runNavigationEvent env redirectFuel event 0 skip (withDrawn st n)
         /\ settled (observe env st) event).

End Events.

(** ** Reading what the adapters and the converters wrote *)

(** The states a list of calls wrote to the host's history. *)
Definition writtenState (call : HostCall) : option JsValue :=
  match call with
  | HostPushState data _ | HostReplaceState data _ => Some data
  | HostReload | HostGo _ => None
  end.

(** The values a property of a record of search parameters stands for. *)
Definition unpack (v : ParamValue) : list string :=
  match v with
  | Single value => [value]
  | Many values => values
  end.

(** The property [urlSearchParamsToStruct] writes for a list of values. *)
Definition pack (values : list string) : ParamValue :=
  match values with
  | [value] => Single value
  | _ => Many values
  end.

(** The bodies of the loops of [structToUrlSearchParams] and
    [urlSearchParamsToStruct]. *)
Definition writeParams (searchParams : list (string * string))
  (kv : string * ParamValue) : list (string * string) :=
  match snd kv with
  | Many values =>
      fold_left (fun p v => URLSearchParams.append (fst kv) v p)
                values searchParams
  | Single value => URLSearchParams.set (fst kv) value searchParams
  end.

Definition readParams (searchParams : list (string * string))
  (struct : list (string * ParamValue)) (kv : string * string)
  : list (string * ParamValue) :=
  JsObject.assign (fst kv)
    (pack (URLSearchParams.getAll (fst kv) searchParams)) struct.

(** The last element of a list. *)
Fixpoint lastOf {V : Type} (l : list V) : option V :=
  match l with
  | [] => None
  | x :: rest =>
      match lastOf rest with
      | Some y => Some y
      | None => Some x
      end
  end.

(** The answers of [blockHandler] that carry a [Deferred] to wait for. *)
Definition blockings (answers : list (HandlerError + option nat)) : list nat :=
  filterMap (fun a => match a with
                      | inr (Some d) => Some d
                      | _ => None
                      end) answers.

(** [l] is [l'] with some elements left out. *)
Inductive Subsequence {A : Type} : list A -> list A -> Prop :=
| subsequence_nil : Subsequence [] []
| subsequence_skip x l l' : Subsequence l l' -> Subsequence l (x :: l')
| subsequence_take x l l' : Subsequence l l' -> Subsequence (x :: l) (x :: l').

(** ** A concrete engine

    The memory engine of the repository's tests: one entry at
    [https://example.com/foo/1], at most three entries, a world that is one
    integer counter. *)

Module Scenario.

Fixpoint uuid (n : nat) : Uuid :=
  match n with
  | O => "u"%string
  | S k => String.append "u" (uuid k)
  end.

Definition newURL (path origin : string) : URL :=
  {| url_origin := origin; url_pathname := path;
     url_search := ""; url_hash := "" |}.

Definition site : string := "https://example.com".

Definition page (path : string) : URL := newURL path site.

Definition plain : NavigateOptions :=
  {| opt_history := None; opt_state := JsUndefined; opt_info := JsUndefined |}.

Definition initial : InitialMemoryOptions Z :=
  {| imo_url := page "/foo/1";
     imo_origin := None;
     imo_base := None;
     imo_maxEntries := Some (JsNumber.ofZ 3);
     imo_state := JsOpaque "x";
     imo_commit := None |}.

Definition options : MemoryOptions Z := fst (initialMemoryOptions uuid initial 0).

Definition env : Env Z :=
  {| env_origin := site;
     env_base := "/";
     env_maxEntries := Some 3;
     env_commit := @noCommit Z;
     env_newNavigationState := None;
     env_uuid := uuid;
     env_newURL := newURL |}.

(** The engine [memoryEngine options 2 0] is. *)
Definition start : Engine Z :=
  {| cell := {| entries := mo_entries options; index := 0; transition := None |};
     beforeHandlers := [];
     handlers := [];
     drawn := 2;
     world := 0 |}.

(** The options of [initialMemory({ url, maxEntries: 0 })]. *)
Definition initialZero : InitialMemoryOptions Z :=
  {| imo_url := page "/foo/1";
     imo_origin := None;
     imo_base := None;
     imo_maxEntries := Some (JsNumber.ofZ 0);
     imo_state := JsOpaque "x";
     imo_commit := None |}.

Definition optionsZero : MemoryOptions Z :=
  fst (initialMemoryOptions uuid initialZero 0).

Definition envZero : Env Z :=
  {| env_origin := site;
     env_base := "/";
     env_maxEntries := Some 0;
     env_commit := @noCommit Z;
     env_newNavigationState := None;
     env_uuid := uuid;
     env_newURL := newURL |}.

(** A memory configuration without entries, its origin given. *)
Definition optionsEmpty : MemoryOptions Z :=
  {| mo_entries := [];
     mo_origin := Some site;
     mo_base := None;
     mo_currentIndex := None;
     mo_maxEntries := None;
     mo_commit := None |}.

(** The handlers of the test [memory]: the before-handler defers adding 10
    to the counter, the after-handler defers doubling it. *)
Definition counting : BeforeNavigationHandler Z :=
  {| bh_name := 1;
     bh_run := fun _ _ w => (w, inr (Some (fun _ w' => (w' + 10, None)))) |}.

Definition doubling : NavigationHandler Z :=
  {| nh_name := 1;
     nh_run := fun _ _ w => (w, Some (fun _ w' => w' * 2)) |}.

Definition toLoop : RedirectError :=
  {| redirect_path := inl "/loop"%string; redirect_options := None |}.

(** Redirects every transition. *)
Definition looping : BeforeNavigationHandler Z :=
  {| bh_name := 2;
     bh_run := fun _ _ w => (w + 1, inl (Redirect toLoop)) |}.

(** Redirects the first 25 transitions it sees, cancels the next. *)
Definition stubborn : BeforeNavigationHandler Z :=
  {| bh_name := 3;
     bh_run := fun _ _ w =>
                 if w <? 25 then (w + 1, inl (Redirect toLoop))
                 else (w, inl CancelNavigation) |}.

(** Redirects the first 25 transitions it sees, lets the next pass. *)
Definition patient : BeforeNavigationHandler Z :=
  {| bh_name := 7;
     bh_run := fun _ _ w =>
                 if w <? 25 then (w + 1, inl (Redirect toLoop))
                 else (w, inr None) |}.

(** Cancels every transition. *)
Definition refusing : BeforeNavigationHandler Z :=
  {| bh_name := 4;
     bh_run := fun _ _ w => (w, inl CancelNavigation) |}.

(** The handler of the test [onNavigation]: redirects [/foo/2] to
    [/bar/42]. *)
Definition detour : BeforeNavigationHandler Z :=
  {| bh_name := 5;
     bh_run := fun event _ w =>
                 match ev_to event with
                 | Materialized d =>
                     if String.eqb (url_pathname (d_url d)) "/foo/2"
                     then (w + 1,
                           inl (Redirect {| redirect_path := inl "/bar/42"%string;
                                            redirect_options := None |}))
                     else (w + 1, inr None)
                 | Proposed _ => (w + 1, inr None)
                 end |}.

Definition withBefore (h : BeforeNavigationHandler Z) : Engine Z :=
  perform env (OpBeforeNavigation h) start.

Definition first : Destination :=
  {| d_id := uuid 0; d_key := uuid 1; d_url := page "/foo/1";
     d_state := JsOpaque "x"; d_sameDocument := true |}.

Definition toSecond : TransitionEvent :=
  {| ev_type := Push;
     ev_from := first;
     ev_to := Materialized {| d_id := uuid 2; d_key := uuid 3;
                              d_url := page "/foo/2";
                              d_state := JsUndefined;
                              d_sameDocument := true |};
     ev_delta := 1;
     ev_info := JsUndefined |}.

(** The engine of the test [onNavigation], whose [GetRandomValues] answers
    with zero bytes: every identifier is the same. *)
Definition envSame : Env Z :=
  {| env_origin := site;
     env_base := "/";
     env_maxEntries := Some 50;
     env_commit := @noCommit Z;
     env_newNavigationState := None;
     env_uuid := fun _ => "0"%string;
     env_newURL := newURL |}.

Definition startSame : Engine Z :=
  {| cell := {| entries := [{| d_id := "0"%string; d_key := "0"%string;
                               d_url := page "/foo/1";
                               d_state := JsUndefined;
                               d_sameDocument := true |}];
                index := 0;
                transition := None |};
     beforeHandlers := [detour];
     handlers := [doubling];
     drawn := 2;
     world := 0 |}.

(** The handler of the test [beforeNavigation]: redirects [/foo/1] to
    [/bar/42]. *)
Definition away : BeforeNavigationHandler Z :=
  {| bh_name := 6;
     bh_run := fun event _ w =>
                 match ev_to event with
                 | Materialized d =>
                     if String.eqb (url_pathname (d_url d)) "/foo/1"
                     then (w, inl (Redirect {| redirect_path := inl "/bar/42"%string;
                                               redirect_options := None |}))
                     else (w, inr None)
                 | Proposed _ => (w, inr None)
                 end |}.

Definition toPath (path : string) : Operation Z :=
  OpRequest Z (ReqNavigate (inl path) plain false).

(** A state carrying the marker of another entry. *)
Definition marked : JsValue := JsMarked "id-a"%string "key-b"%string (JsOpaque "y").

End Scenario.

(** ** A session

    The engine of [Scenario] after [navigate('/foo/2')] and
    [navigate('/foo/3')], and after one [back] more. *)

Module Visited.

Definition three : Engine Z :=
  performAll Scenario.env
    [Scenario.toPath "/foo/2"; Scenario.toPath "/foo/3"] Scenario.start.

Definition middle : Engine Z :=
  perform Scenario.env (OpRequest Z (ReqBack JsUndefined false)) three.

Definition second : Destination :=
  {| d_id := Scenario.uuid 2; d_key := Scenario.uuid 3;
     d_url := Scenario.page "/foo/2";
     d_state := JsUndefined; d_sameDocument := true |}.

Definition third : Destination :=
  {| d_id := Scenario.uuid 4; d_key := Scenario.uuid 5;
     d_url := Scenario.page "/foo/3";
     d_state := JsUndefined; d_sameDocument := true |}.

(** An adapter whose commit fails. *)
Definition offline : Env Z :=
  {| env_origin := Scenario.site;
     env_base := "/";
     env_maxEntries := Some 3;
     env_commit := fun _ _ w => (w, Some {| cause := "offline" |});
     env_newNavigationState := None;
     env_uuid := Scenario.uuid;
     env_newURL := Scenario.newURL |}.

(** A memory configuration with more entries than its bound, asked to
    start at the first. *)
Definition crowded : MemoryOptions Z :=
  {| mo_entries := [Scenario.first; second; third];
     mo_origin := None;
     mo_base := None;
     mo_currentIndex := Some (JsNumber.ofZ 0);
     mo_maxEntries := Some (JsNumber.ofZ 2);
     mo_commit := None |}.

Definition crowdedEnv : Env Z :=
  {| env_origin := Scenario.site;
     env_base := "/";
     env_maxEntries := Some 2;
     env_commit := @noCommit Z;
     env_newNavigationState := None;
     env_uuid := Scenario.uuid;
     env_newURL := Scenario.newURL |}.

(** A window without the platform Navigation API, at [/foo/1]. *)
Definition window : Env (unit * list HostCall) :=
  fromWindow unit Scenario.site "/" Scenario.uuid Scenario.newURL.

Definition windowStart : Engine (unit * list HostCall) :=
  {| cell := {| entries := [Scenario.first]; index := 0; transition := None |};
     beforeHandlers := [];
     handlers := [];
     drawn := 2;
     world := (tt, []) |}.

(** The same window after [history.pushState(null, '', '/foo/2')]. *)
Definition windowTwo : Engine (unit * list HostCall) :=
  final (handleHistoryEvent window
           (PatchedHistory.pushState window Scenario.site JsNull
              (Some (inl "/foo/2"%string)))
           windowStart).

End Visited.

(** * Part II: properties *)

Arguments runBeforeHandlers : simpl never.
Arguments runHandlers : simpl never.
Arguments finishTransition : simpl never.
Arguments beginTransition : simpl never.
Arguments makeRedirectEvent : simpl never.
Arguments makeDestination : simpl never.
Arguments makeOrUpdateDestination : simpl never.
Arguments runNavigationEvent : simpl never.
Arguments cellTransform : simpl never.
Arguments mutated : simpl never.

(** ** Arrays *)

Section ArrayFacts.
Context {A : Type}.
Implicit Types l : list A.

Lemma len_nonneg l : 0 <= JsArray.len l.
Proof. unfold JsArray.len. lia. Qed.

Lemma len_app l1 l2 : JsArray.len (l1 ++ l2) = JsArray.len l1 + JsArray.len l2.
Proof. unfold JsArray.len. rewrite length_app. lia. Qed.

Lemma len_nil_iff l : JsArray.len l = 0 <-> l = [].
Proof.
  unfold JsArray.len. destruct l; simpl; split; intros H; try easy; lia.
Qed.

(** [l.slice(-n)] keeps the last [n] elements when [n] is positive. *)
Lemma slice_last n l :
  1 <= n ->
  JsArray.slice (- n) None l =
    skipn (Z.to_nat (Z.max (JsArray.len l - n) 0)) l.
Proof.
  intros Hn. unfold JsArray.slice, JsArray.relative.
  destruct (Z.ltb_spec (- n) 0) as [_ | Hzero]; [| lia].
  replace (JsArray.len l + - n) with (JsArray.len l - n) by lia.
  apply firstn_all2. rewrite length_skipn.
  unfold JsArray.len. lia.
Qed.

(** [l.slice(-0)] is [l.slice(0)]: the whole array. *)
Lemma slice_minus_zero l : JsArray.slice (- 0) None l = l.
Proof.
  unfold JsArray.slice, JsArray.relative. simpl.
  pose proof (len_nonneg l).
  replace (Z.min 0 (JsArray.len l)) with 0 by lia.
  simpl. rewrite Z.sub_0_r. unfold JsArray.len.
  rewrite Nat2Z.id. apply firstn_all.
Qed.

Lemma len_slice_last n l :
  1 <= n ->
  JsArray.len (JsArray.slice (- n) None l) = Z.min (JsArray.len l) n.
Proof.
  intros Hn. rewrite slice_last by assumption.
  unfold JsArray.len. rewrite length_skipn. lia.
Qed.

Lemma slice_last_short n l :
  1 <= n -> JsArray.len l <= n -> JsArray.slice (- n) None l = l.
Proof.
  intros Hn Hl. rewrite slice_last by assumption.
  replace (Z.max (JsArray.len l - n) 0) with 0 by lia. reflexivity.
Qed.

Lemma slice_last_idem n l :
  1 <= n ->
  JsArray.slice (- n) None (JsArray.slice (- n) None l)
  = JsArray.slice (- n) None l.
Proof.
  intros Hn. apply slice_last_short; [assumption |].
  rewrite len_slice_last by assumption. lia.
Qed.

(** [l.slice(0, k)] is the first [k] elements. *)
Lemma slice_prefix k l :
  0 <= k -> JsArray.slice 0 (Some k) l = firstn (Z.to_nat k) l.
Proof.
  intros Hk. unfold JsArray.slice, JsArray.relative. simpl.
  pose proof (len_nonneg l).
  replace (Z.min 0 (JsArray.len l)) with 0 by lia.
  destruct (Z.ltb_spec k 0); [lia |]. simpl. rewrite Z.sub_0_r.
  destruct (Z.le_gt_cases k (JsArray.len l)).
  - now replace (Z.min k (JsArray.len l)) with k by lia.
  - replace (Z.min k (JsArray.len l)) with (JsArray.len l) by lia.
    unfold JsArray.len in *. rewrite Nat2Z.id.
    rewrite firstn_all. symmetry. apply firstn_all2. lia.
Qed.

(** [l.slice(k)] drops the first [k] elements. *)
Lemma slice_suffix k l :
  0 <= k -> JsArray.slice k None l = skipn (Z.to_nat k) l.
Proof.
  intros Hk. unfold JsArray.slice, JsArray.relative.
  destruct (Z.ltb_spec k 0); [lia |].
  pose proof (len_nonneg l).
  destruct (Z.le_gt_cases k (JsArray.len l)).
  - replace (Z.min k (JsArray.len l)) with k by lia.
    apply firstn_all2. rewrite length_skipn. unfold JsArray.len in *. lia.
  - replace (Z.min k (JsArray.len l)) with (JsArray.len l) by lia.
    unfold JsArray.len in *. rewrite Nat2Z.id.
    rewrite !skipn_all2 by lia. apply firstn_nil.
Qed.

Lemma get_in_range l i :
  0 <= i < JsArray.len l -> exists x, JsArray.get l i = Some x.
Proof.
  intros [Hlo Hhi]. unfold JsArray.get.
  destruct (Z.ltb_spec i 0); [lia |].
  destruct (nth_error l (Z.to_nat i)) eqn:E; [eauto |].
  apply nth_error_None in E. unfold JsArray.len in Hhi. lia.
Qed.

Lemma get_some_range l i x :
  JsArray.get l i = Some x -> 0 <= i < JsArray.len l.
Proof.
  unfold JsArray.get. destruct (Z.ltb_spec i 0); [discriminate |].
  intros E. assert (nth_error l (Z.to_nat i) <> None) as Hn by congruence.
  apply nth_error_Some in Hn. unfold JsArray.len. lia.
Qed.
End ArrayFacts.

(** ** The clamp *)

Lemma clamp_transition n s :
  transition (clampNavigationState n s) = transition s.
Proof. reflexivity. Qed.

Lemma clamp_idempotent n s :
  1 <= n ->
  clampNavigationState n (clampNavigationState n s) = clampNavigationState n s.
Proof.
  intros Hn. unfold clampNavigationState. simpl.
  rewrite slice_last_idem by assumption.
  f_equal. lia.
Qed.

(** *** Numbers that are integers *)

Lemma asInteger_ofZ z : JsNumber.asInteger (JsNumber.ofZ z) = Some z.
Proof.
  unfold JsNumber.ofZ, JsNumber.asInteger.
  now rewrite Z.mod_1_r, Z.div_1_r.
Qed.

(** [Math.min(Math.max(0, x), k)] of an integer is the integer clipped. *)
Lemma clip_integer x i k :
  JsNumber.asInteger x = Some i ->
  JsNumber.asInteger (JsNumber.minInt (JsNumber.max0 x) k)
  = Some (Z.min (Z.max 0 i) k).
Proof.
  intros Hx. destruct x as [num den | |]; try discriminate.
  pose proof Hx as Hi. cbn [JsNumber.asInteger] in Hi.
  destruct (Z.eqb_spec (num mod Z.pos den) 0) as [Hmod | _]; [| discriminate].
  injection Hi as Hi.
  assert (num = Z.pos den * i) as Hnum
      by (subst i; apply Z.div_exact; [lia | exact Hmod]).
  unfold JsNumber.max0.
  destruct (Z.ltb_spec num 0) as [Hneg | Hpos].
  - unfold JsNumber.ofZ, JsNumber.minInt.
    destruct (Z.leb_spec 0 (k * 1)) as [Hk | Hk].
    + fold (JsNumber.ofZ 0). rewrite asInteger_ofZ. f_equal. nia.
    + rewrite asInteger_ofZ. f_equal. nia.
  - unfold JsNumber.minInt.
    destruct (Z.leb_spec num (k * Z.pos den)) as [Hk | Hk].
    + rewrite Hx. f_equal. nia.
    + rewrite asInteger_ofZ. f_equal. nia.
Qed.

(** [slice(-maxEntries)] reads the bound truncated. *)
Lemma sliceFrom_opp {A} (maxEntries : JsNumber.t) (n : Z) (l : list A) :
  JsNumber.toIntegerOrInfinity maxEntries = inl n ->
  JsNumber.sliceFrom (JsNumber.opp maxEntries) l = JsArray.slice (- n) None l.
Proof.
  intros Hbound. unfold JsNumber.sliceFrom.
  destruct maxEntries as [m d | | negative]; cbn in Hbound |- *;
    try discriminate; injection Hbound as <-; [| reflexivity].
  now rewrite Z.quot_opp_l by lia.
Qed.

(** On a state whose index is an integer, and for a bound that is not an
    infinity, the clamp of the code is the clamp of the integer model, at
    the bound truncated. *)
Lemma clamp_integers (maxEntries : JsNumber.t) (n : Z)
  (raw : Unchecked.NavigationState) (s : NavigationState) :
  JsNumber.toIntegerOrInfinity maxEntries = inl n ->
  checked raw = Some s ->
  checked (Unchecked.clampNavigationState maxEntries raw)
  = Some (clampNavigationState n s).
Proof.
  intros Hbound Hraw. destruct raw as [es x t]. unfold checked in Hraw.
  cbn [Unchecked.index Unchecked.entries Unchecked.transition] in Hraw.
  destruct (JsNumber.asInteger x) as [i |] eqn:Hx; [| discriminate].
  injection Hraw as <-.
  unfold Unchecked.clampNavigationState, clampNavigationState, checked.
  cbn [Unchecked.index Unchecked.entries Unchecked.transition entries index
       transition].
  rewrite (@sliceFrom_opp _ maxEntries n es Hbound).
  now rewrite (@clip_integer x i _ Hx).
Qed.

(** C8: for a bound of at least 1, clamping a clamped state changes nothing,
    and the clamp never touches the in-flight transition. *)
Theorem clampNavigationState_idempotent (maxEntries : Z) (s : NavigationState) :
  1 <= maxEntries ->
  clampNavigationState maxEntries (clampNavigationState maxEntries s)
  = clampNavigationState maxEntries s
  /\ transition (clampNavigationState maxEntries s) = transition s
  /\ entries (clampNavigationState maxEntries s)
     = skipn (Z.to_nat (Z.max (JsArray.len (entries s) - maxEntries) 0))
             (entries s)
  /\ (entries s <> [] ->
      0 <= index (clampNavigationState maxEntries s)
        <= JsArray.len (entries (clampNavigationState maxEntries s)) - 1).
Proof.
  intros Hn. split; [| split; [| split]].
  - now apply clamp_idempotent.
  - apply clamp_transition.
  - simpl. now apply slice_last.
  - intros Hne. simpl. rewrite len_slice_last by assumption.
    assert (JsArray.len (entries s) <> 0) by (now rewrite len_nil_iff).
    pose proof (len_nonneg (entries s)). lia.
Qed.

(** ** Running effects *)

Section EngineFacts.

Variable W : Type.
Variable env : Env W.

Implicit Types st : Engine W.

Lemma bind_done {A B} (m : M W A) (f : A -> M W B) st a :
  outcome (m st) = Done a ->
  bind m f st =
    mkRun (final (f a (final (m st))))
          (log (m st) ++ log (f a (final (m st))))
          (outcome (f a (final (m st)))).
Proof. unfold bind. intros ->. reflexivity. Qed.

Lemma bind_run {A B} (m : M W A) (f : A -> M W B) st st' lg a :
  m st = mkRun st' lg (Done a) ->
  bind m f st =
    mkRun (final (f a st')) (lg ++ log (f a st')) (outcome (f a st')).
Proof. intros H. unfold bind. rewrite H. reflexivity. Qed.

(** A run that does not end in [Done] ends the whole effect, with the
    same answer at the type of the whole. *)
Definition stopped {A B} (o : Outcome A) (o' : Outcome B) : Prop :=
  (exists e, o = Failed e /\ o' = Failed e)
  \/ (exists msg, o = Died msg /\ o' = Died msg)
  \/ (o = Diverged /\ o' = Diverged).

Lemma bind_stop {A B} (m : M W A) (f : A -> M W B) st st' lg o o' :
  m st = mkRun st' lg o ->
  stopped o o' ->
  bind m f st = mkRun st' lg o'.
Proof.
  intros H Hs. unfold bind. rewrite H. simpl.
  destruct Hs as [(e & -> & ->) | [(msg & -> & ->) | [-> ->]]]; reflexivity.
Qed.

Ltac run_with H :=
  rewrite (@bind_run _ _ _ _ _ _ _ _ H); cbv beta; cbn [app final log outcome].
Ltac finish_run :=
  cbn [final log outcome ret app]; rewrite ?app_nil_r; reflexivity.
Ltac stop_with H o := rewrite (@bind_stop _ _ _ _ _ _ _ _ o H).

Lemma set_eq a st :
  set env a st
  = mkRun (withCell st (cellTransform env a)) [LStore (cellTransform env a)]
          (Done (cellTransform env (cellTransform env a))).
Proof. reflexivity. Qed.

Lemma commit_eq to event st w failure :
  env_commit env to event (world st) = (w, failure) ->
  commit env to event st
  = mkRun (withWorld st w) [LCommit to event failure]
          (match failure with
           | None => Done tt
           | Some e => Failed e
           end).
Proof. unfold commit. now intros ->. Qed.

Lemma withWorld_same st : withWorld st (world st) = st.
Proof. now destruct st. Qed.

Lemma withWorld_twice st w1 w2 :
  withWorld (withWorld st w1) w2 = withWorld st w2.
Proof. reflexivity. Qed.

Lemma observe_withWorld st w : observe env (withWorld st w) = observe env st.
Proof. reflexivity. Qed.

(** *** The Before phase *)

Definition pollItem (event : TransitionEvent) (p : nat * Polled) : LogItem :=
  LBefore (fst p) event (snd p).

Definition deferredItem (d : nat * option HandlerError) : LogItem :=
  LDeferred (fst d) (snd d).

Definition passed (p : nat * Polled) : Prop := pollFailed (snd p) = false.
Definition succeeded (d : nat * option HandlerError) : Prop := snd d = None.

Lemma deferring_app l1 l2 : deferring (l1 ++ l2) = deferring l1 ++ deferring l2.
Proof.
  unfold deferring. induction l1 as [| p l1 IH]; simpl; [reflexivity |].
  destruct (snd p); simpl; now rewrite IH.
Qed.

Lemma pollBefore_eq h event st w exit :
  bh_run h event (observe env st) (world st) = (w, exit) ->
  pollBefore env h event st =
    mkRun (withWorld st w)
          [LBefore (bh_name h) event
                   match exit with
                   | inl e => PollFailed e
                   | inr (Some _) => PollDeferred
                   | inr None => PollAbstained
                   end]
          (Done exit).
Proof. unfold pollBefore. now intros ->. Qed.

Lemma runDeferred_eq name (d : Deferred W) st w exit :
  d (observe env st) (world st) = (w, exit) ->
  runDeferred env name d st =
    mkRun (withWorld st w) [LDeferred name exit] (Done exit).
Proof. unfold runDeferred. now intros ->. Qed.

Lemma pollBeforeHandlers_spec hs event :
  forall matches st,
  exists (polls : list (nat * Polled)) (w : W),
    let r := pollBeforeHandlers env hs event matches st in
    final r = withWorld st w
    /\ log r = map (pollItem event) polls
    /\ ((exists done n e,
           polls = done ++ [(n, PollFailed e)]
           /\ Forall passed done
           /\ map fst polls = firstn (length polls) (map (@bh_name W) hs)
           /\ outcome r = Done (inl e))
        \/ (exists ms,
              map fst polls = map (@bh_name W) hs
              /\ Forall passed polls
              /\ map fst ms = deferring polls
              /\ outcome r = Done (inr (matches ++ ms)))).
Proof.
  induction hs as [| h rest IH]; intros matches st.
  - exists [], (world st). simpl. rewrite withWorld_same.
    split; [reflexivity |]. split; [reflexivity |].
    right. exists []. rewrite app_nil_r. repeat split; constructor.
  - destruct (bh_run h event (observe env st) (world st)) as [w1 exit] eqn:Erun.
    pose proof (pollBefore_eq h event st Erun) as Hp.
    simpl pollBeforeHandlers.
    rewrite (bind_done _ _ st (a := exit)) by now rewrite Hp.
    rewrite Hp. clear Hp.
    destruct exit as [e | [d |]]; simpl.
    + exists [(bh_name h, PollFailed e)], w1. simpl.
      split; [reflexivity |]. split; [reflexivity |].
      left. exists [], (bh_name h), e. repeat split. constructor.
    + destruct (IH (matches ++ [(bh_name h, d)]) (withWorld st w1))
        as (polls & w & Hfinal & Hlog & Hcases).
      exists ((bh_name h, PollDeferred) :: polls), w. simpl in *.
      split; [exact Hfinal |]. split; [now rewrite Hlog |].
      destruct Hcases as [(done & n & e & Hp & Hdone & Hnames & Hout)
                         | (ms & Hnames & Hpass & Hms & Hout)].
      * left. exists ((bh_name h, PollDeferred) :: done), n, e.
        subst polls. repeat split.
        -- constructor; [reflexivity | assumption].
        -- simpl. now rewrite Hnames at 1.
        -- exact Hout.
      * right. exists ((bh_name h, d) :: ms). repeat split.
        -- simpl. now rewrite Hnames.
        -- constructor; [reflexivity | assumption].
        -- simpl. unfold deferring in *. simpl. now rewrite Hms.
        -- rewrite Hout. now rewrite <- app_assoc.
    + destruct (IH matches (withWorld st w1))
        as (polls & w & Hfinal & Hlog & Hcases).
      exists ((bh_name h, PollAbstained) :: polls), w. simpl in *.
      split; [exact Hfinal |]. split; [now rewrite Hlog |].
      destruct Hcases as [(done & n & e & Hp & Hdone & Hnames & Hout)
                         | (ms & Hnames & Hpass & Hms & Hout)].
      * left. exists ((bh_name h, PollAbstained) :: done), n, e.
        subst polls. repeat split.
        -- constructor; [reflexivity | assumption].
        -- simpl. now rewrite Hnames at 1.
        -- exact Hout.
      * right. exists ms. repeat split.
        -- simpl. now rewrite Hnames.
        -- constructor; [reflexivity | assumption].
        -- exact Hms.
        -- exact Hout.
Qed.

Lemma runMatches_spec matches :
  forall st,
  exists (runs : list (nat * option HandlerError)) (w : W),
    let r := runMatches env matches st in
    final r = withWorld st w
    /\ log r = map deferredItem runs
    /\ ((exists ran n e,
           runs = ran ++ [(n, Some e)]
           /\ Forall succeeded ran
           /\ map fst runs = firstn (length runs) (map fst matches)
           /\ outcome r = Done (Some e))
        \/ (map fst runs = map fst matches
            /\ Forall succeeded runs
            /\ outcome r = Done None)).
Proof.
  induction matches as [| [name d] rest IH]; intros st.
  - exists [], (world st). simpl. rewrite withWorld_same.
    split; [reflexivity |]. split; [reflexivity |].
    right. repeat split; constructor.
  - destruct (d (observe env st) (world st)) as [w1 exit] eqn:Erun.
    pose proof (runDeferred_eq name d st Erun) as Hp.
    simpl runMatches.
    rewrite (bind_done _ _ st (a := exit)) by now rewrite Hp.
    rewrite Hp. clear Hp.
    destruct exit as [e |]; simpl.
    + exists [(name, Some e)], w1. simpl.
      split; [reflexivity |]. split; [reflexivity |].
      left. exists [], name, e. repeat split. constructor.
    + destruct (IH (withWorld st w1)) as (runs & w & Hfinal & Hlog & Hcases).
      exists ((name, None) :: runs), w. simpl in *.
      split; [exact Hfinal |]. split; [now rewrite Hlog |].
      destruct Hcases as [(ran & n & e & Hr & Hran & Hnames & Hout)
                         | (Hnames & Hok & Hout)].
      * left. exists ((name, None) :: ran), n, e. subst runs. repeat split.
        -- constructor; [reflexivity | assumption].
        -- simpl. now rewrite Hnames at 1.
        -- exact Hout.
      * right. repeat split.
        -- simpl. now rewrite Hnames.
        -- constructor; [reflexivity | assumption].
        -- exact Hout.
Qed.

Lemma runBeforeHandlers_spec event st :
  exists (polls : list (nat * Polled))
         (runs : list (nat * option HandlerError)) (w : W),
    let r := runBeforeHandlers env event st in
    let names := map (@bh_name W) (beforeHandlers st) in
    final r = withWorld st w
    /\ log r = map (pollItem event) polls ++ map deferredItem runs
    /\ ((exists done n e,
           polls = done ++ [(n, PollFailed e)]
           /\ Forall passed done
           /\ map fst polls = firstn (length polls) names
           /\ runs = []
           /\ outcome r = Done (Some e))
        \/ (map fst polls = names
            /\ Forall passed polls
            /\ ((exists ran n e,
                   runs = ran ++ [(n, Some e)]
                   /\ Forall succeeded ran
                   /\ map fst runs = firstn (length runs) (deferring polls)
                   /\ outcome r = Done (Some e))
                \/ (map fst runs = deferring polls
                    /\ Forall succeeded runs
                    /\ outcome r = Done None)))).
Proof.
  destruct (pollBeforeHandlers_spec (beforeHandlers st) event [] st)
    as (polls & w1 & Hfinal & Hlog & Hcases).
  cbv zeta in Hfinal, Hlog, Hcases.
  destruct Hcases as [(done & n & e & Hp & Hdone & Hnames & Hout)
                     | (ms & Hnames & Hpass & Hms & Hout)].
  - exists polls, [], w1. cbv zeta.
    unfold runBeforeHandlers, bind. simpl. rewrite Hout. simpl.
    rewrite Hfinal, Hlog. rewrite !app_nil_r.
    split; [reflexivity |]. split; [reflexivity |].
    left. exists done, n, e. repeat split; assumption.
  - simpl in Hout.
    destruct (runMatches_spec ms (withWorld st w1))
      as (runs & w2 & Hfinal2 & Hlog2 & Hcases2).
    cbv zeta in Hfinal2, Hlog2, Hcases2.
    exists polls, runs, w2. cbv zeta.
    unfold runBeforeHandlers, bind. simpl. rewrite Hout. simpl.
    rewrite Hfinal, Hlog, Hfinal2, Hlog2.
    split; [reflexivity |]. split; [reflexivity |].
    right. split; [assumption |]. split; [assumption |].
    rewrite <- Hms.
    destruct Hcases2 as [(ran & k & e & Hr & Hran & Hn2 & Hout2)
                        | (Hn2 & Hok & Hout2)].
    + left. exists ran, k, e. repeat split; assumption.
    + right. repeat split; assumption.
Qed.

(** *** The Before phase against its specification *)

Definition exitItem (event : TransitionEvent)
  (x : nat * (HandlerError + option (Deferred W))) : LogItem :=
  LBefore (fst x) event (polled (snd x)).

Lemma pollBeforeHandlers_exact hs event :
  forall matches st,
    let polling := pollInOrder hs event (observe env st) (world st) in
    pollBeforeHandlers env hs event matches st
    = mkRun (withWorld st (fst polling))
            (map (exitItem event) (snd polling))
            (Done (match pollFailure (snd polling) with
                   | Some e => inl e
                   | None => inr (matches ++ collected (snd polling))
                   end)).
Proof.
  induction hs as [| h rest IH]; intros matches st; cbv zeta.
  - simpl. now rewrite withWorld_same, app_nil_r.
  - destruct (bh_run h event (observe env st) (world st)) as [w1 exit] eqn:Erun.
    pose proof (pollBefore_eq h event st Erun) as Hp.
    simpl pollBeforeHandlers.
    rewrite (bind_done _ _ st (a := exit)) by now rewrite Hp.
    rewrite Hp. clear Hp. cbn [pollInOrder]. rewrite Erun.
    destruct exit as [e | [d |]]; cbn [final log outcome].
    + reflexivity.
    + rewrite IH. cbn [world withWorld]. rewrite observe_withWorld.
      fold (withWorld st w1).
      destruct (pollInOrder rest event (observe env st) w1) as [w2 exits].
      cbn [fst snd map pollFailure collected app final log outcome].
      destruct (pollFailure exits); [reflexivity |].
      now rewrite <- app_assoc.
    + rewrite IH. cbn [world withWorld]. rewrite observe_withWorld.
      fold (withWorld st w1).
      destruct (pollInOrder rest event (observe env st) w1) as [w2 exits].
      reflexivity.
Qed.

Lemma runMatches_exact matches :
  forall st,
    let running := runInOrder matches (observe env st) (world st) in
    runMatches env matches st
    = mkRun (withWorld st (fst running))
            (map deferredItem (snd running))
            (Done (runFailure (snd running))).
Proof.
  induction matches as [| [name d] rest IH]; intros st; cbv zeta.
  - simpl. now rewrite withWorld_same.
  - destruct (d (observe env st) (world st)) as [w1 exit] eqn:Erun.
    pose proof (runDeferred_eq name d st Erun) as Hp.
    simpl runMatches.
    rewrite (bind_done _ _ st (a := exit)) by now rewrite Hp.
    rewrite Hp. clear Hp. cbn [runInOrder]. rewrite Erun.
    destruct exit as [e |]; cbn [final log outcome].
    + reflexivity.
    + rewrite IH. cbn [world withWorld]. rewrite observe_withWorld.
      fold (withWorld st w1).
      destruct (runInOrder rest (observe env st) w1) as [w2 runs].
      reflexivity.
Qed.

Lemma runBeforeHandlers_exact event st :
  let phase := beforePhase (beforeHandlers st) event (observe env st)
                           (world st) in
  runBeforeHandlers env event st
  = mkRun (withWorld st (fst (fst phase)))
          (map (exitItem event) (snd (fst phase))
           ++ map deferredItem (snd phase))
          (Done (match pollFailure (snd (fst phase)) with
                 | Some e => Some e
                 | None => runFailure (snd phase)
                 end)).
Proof.
  cbv zeta. unfold runBeforeHandlers, beforePhase.
  unfold bind at 1. cbn [final log outcome app].
  pose proof (pollBeforeHandlers_exact (beforeHandlers st) event [] st)
    as Hp. cbv zeta in Hp.
  destruct (pollInOrder (beforeHandlers st) event (observe env st) (world st))
    as [w1 exits]. cbn [fst snd] in Hp. cbv beta iota.
  unfold bind. rewrite Hp. cbn [final log outcome].
  destruct (pollFailure exits) as [e |] eqn:Hfail.
  - cbn [final log outcome fst snd map ret]. now rewrite Hfail, !app_nil_r.
  - cbn [app]. rewrite (runMatches_exact (collected exits) (withWorld st w1)).
    cbv zeta. cbn [world withWorld]. rewrite observe_withWorld.
    fold (withWorld st w1).
    destruct (runInOrder (collected exits) (observe env st) w1) as [w2 runs].
    cbn [final log outcome fst snd]. now rewrite Hfail.
Qed.

(** The polls, in the words of the claim. *)
Lemma pollInOrder_order (hs : list (BeforeNavigationHandler W)) event s :
  forall w,
    let exits := snd (pollInOrder hs event s w) in
    map fst exits = firstn (length exits) (map (@bh_name W) hs)
    /\ match pollFailure exits with
       | Some e =>
           exists done n,
             exits = done ++ [(n, inl e)]
             /\ Forall (fun x => pollFailed (polled (snd x)) = false) done
       | None =>
           map fst exits = map (@bh_name W) hs
           /\ Forall (fun x => pollFailed (polled (snd x)) = false) exits
       end.
Proof.
  induction hs as [| h rest IH]; intros w; cbv zeta.
  - simpl. repeat split; constructor.
  - cbn [pollInOrder].
    destruct (bh_run h event s w) as [w1 exit].
    destruct exit as [e | m].
    + cbn [snd map fst length firstn pollFailure]. split; [reflexivity |].
      exists [], (bh_name h). split; [reflexivity | constructor].
    + specialize (IH w1). cbv zeta in IH.
      destruct (pollInOrder rest event s w1) as [w2 exits].
      cbn [snd map fst length firstn pollFailure] in *.
      destruct IH as (Hnames & Hcases). split; [now rewrite Hnames at 1 |].
      destruct (pollFailure exits) as [e |].
      * destruct Hcases as (done & n & -> & Hdone).
        exists ((bh_name h, inr m) :: done), n. split; [reflexivity |].
        constructor; [now destruct m | exact Hdone].
      * destruct Hcases as (Hall & Hpassed). split; [now rewrite Hall |].
        constructor; [now destruct m | exact Hpassed].
Qed.

(** The deferred effects, in the words of the claim. *)
Lemma runInOrder_order (matches : list (nat * Deferred W)) s :
  forall w,
    let runs := snd (runInOrder matches s w) in
    map fst runs = firstn (length runs) (map fst matches)
    /\ match runFailure runs with
       | Some e =>
           exists ran n,
             runs = ran ++ [(n, Some e)]
             /\ Forall (fun d => snd d = None) ran
       | None =>
           map fst runs = map fst matches
           /\ Forall (fun d => snd d = None) runs
       end.
Proof.
  induction matches as [| [name d] rest IH]; intros w; cbv zeta.
  - simpl. repeat split; constructor.
  - cbn [runInOrder].
    destruct (d s w) as [w1 exit].
    destruct exit as [e |].
    + cbn [snd map fst length firstn runFailure]. split; [reflexivity |].
      exists [], name. split; [reflexivity | constructor].
    + specialize (IH w1). cbv zeta in IH.
      destruct (runInOrder rest s w1) as [w2 runs].
      cbn [snd map fst length firstn runFailure] in *.
      destruct IH as (Hnames & Hcases). split; [now rewrite Hnames at 1 |].
      destruct (runFailure runs) as [e |].
      * destruct Hcases as (ran & n & -> & Hran).
        exists ((name, None) :: ran), n. split; [reflexivity |].
        constructor; [reflexivity | exact Hran].
      * destruct Hcases as (Hall & Hok). split; [now rewrite Hall |].
        constructor; [reflexivity | exact Hok].
Qed.

(** C3: the Before phase is the one the specification words.  The
    before-handlers are polled in the order of the registry, each in the
    world the poll before left, and the polling stops at the first handler
    that fails: no later handler is polled and no deferred effect is run.
    Only when every handler was polled are the deferred effects run, in the
    order their handlers returned them, each in the world the one before
    left, up to the first that fails.  The phase answers with that first
    failure, leaves the world the last poll or effect left, and its log is
    all the polls followed by all the effects that were run.
    [beforePhase] computes the polls, the effects and the world by calling
    the handlers and the effects themselves. *)
Theorem runBeforeHandlers_order (event : TransitionEvent) (st : Engine W) :
  let s := observe env st in
  let names := map (@bh_name W) (beforeHandlers st) in
  let phase := beforePhase (beforeHandlers st) event s (world st) in
  let exits := snd (fst phase) in
  let runs := snd phase in
  runBeforeHandlers env event st
  = mkRun (withWorld st (fst (fst phase)))
          (map (fun x => LBefore (fst x) event (polled (snd x))) exits
           ++ map (fun d => LDeferred (fst d) (snd d)) runs)
          (Done (match pollFailure exits with
                 | Some e => Some e
                 | None => runFailure runs
                 end))
  /\ exits = snd (pollInOrder (beforeHandlers st) event s (world st))
  /\ map fst exits = firstn (length exits) names
  /\ match pollFailure exits with
     | Some e =>
         (exists done n,
             exits = done ++ [(n, inl e)]
             /\ Forall (fun x => pollFailed (polled (snd x)) = false) done)
         /\ runs = []
     | None =>
         map fst exits = names
         /\ Forall (fun x => pollFailed (polled (snd x)) = false) exits
         /\ runs = snd (runInOrder (collected exits) s
                                   (fst (pollInOrder (beforeHandlers st) event
                                                     s (world st))))
         /\ map fst runs = firstn (length runs) (map fst (collected exits))
         /\ match runFailure runs with
            | Some e =>
                exists ran n,
                  runs = ran ++ [(n, Some e)]
                  /\ Forall (fun d => snd d = None) ran
            | None =>
                map fst runs = map fst (collected exits)
                /\ Forall (fun d => snd d = None) runs
            end
     end.
Proof.
  cbv zeta. split; [exact (runBeforeHandlers_exact event st) |].
  unfold beforePhase.
  pose proof (pollInOrder_order (beforeHandlers st) event (observe env st)
                (world st)) as Hpolls. cbv zeta in Hpolls.
  destruct (pollInOrder (beforeHandlers st) event (observe env st) (world st))
    as [w1 exits]. cbv beta iota. cbn [fst snd] in *.
  destruct Hpolls as (Hnames & Hcases).
  destruct (pollFailure exits) as [e |] eqn:Hfail.
  - cbn [fst snd]. rewrite Hfail.
    split; [reflexivity |]. split; [exact Hnames |].
    split; [exact Hcases | reflexivity].
  - pose proof (runInOrder_order (collected exits) (observe env st) w1)
      as Hruns. cbv zeta in Hruns.
    destruct (runInOrder (collected exits) (observe env st) w1)
      as [w2 runs] eqn:Hrun. cbv beta iota. cbn [fst snd] in *.
    rewrite Hfail, Hrun. cbn [snd].
    destruct Hcases as (Hall & Hpassed). destruct Hruns as (Hrn & Hrc).
    split; [reflexivity |]. split; [exact Hnames |].
    split; [exact Hall |]. split; [exact Hpassed |].
    split; [reflexivity |]. split; [exact Hrn | exact Hrc].
Qed.

(** *** Reading logs *)

Lemma filterMap_app {A B} (f : A -> option B) l1 l2 :
  filterMap f (l1 ++ l2) = filterMap f l1 ++ filterMap f l2.
Proof.
  induction l1 as [| x l1 IH]; simpl; [reflexivity |].
  destruct (f x); simpl; now rewrite IH.
Qed.

Lemma filterMap_nothing {A B} (f : A -> option B) l :
  Forall (fun x => f x = None) l -> filterMap f l = [].
Proof.
  induction 1 as [| x l Hx _ IH]; simpl; [reflexivity |]. now rewrite Hx.
Qed.

Lemma filterMap_in {A B} (f : A -> option B) l y :
  In y (filterMap f l) <-> exists x, In x l /\ f x = Some y.
Proof.
  induction l as [| x l IH]; simpl.
  - split; [easy | now intros (x & [] & _)].
  - destruct (f x) eqn:E; simpl; rewrite IH; split.
    + intros [-> | (x' & Hin & Hf)]; eauto.
    + intros (x' & [-> | Hin] & Hf); [left; congruence | eauto].
    + intros (x' & Hin & Hf); eauto.
    + intros (x' & [-> | Hin] & Hf); [congruence | eauto].
Qed.

Lemma before_items_only l :
  Forall isBeforeItem l ->
  begins l = [] /\ commits l = [] /\ afterPolls l = []
  /\ (forall s, ~ In (LStore s) l).
Proof.
  intros H. repeat split.
  1-3: apply filterMap_nothing; eapply Forall_impl; [| exact H];
       now intros [].
  intros s Hin. rewrite Forall_forall in H. exact (H _ Hin).
Qed.

Lemma after_items_only l :
  Forall isAfterItem l ->
  begins l = [] /\ commits l = [] /\ beforePolls l = []
  /\ deferredRuns l = [] /\ failures l = []
  /\ (forall s, ~ In (LStore s) l).
Proof.
  intros H. repeat split.
  1-5: apply filterMap_nothing; eapply Forall_impl; [| exact H];
       now intros [].
  intros s Hin. rewrite Forall_forall in H. exact (H _ Hin).
Qed.

Lemma failures_polls event polls :
  Forall passed polls -> failures (map (pollItem event) polls) = [].
Proof.
  intros H. apply filterMap_nothing. rewrite Forall_map.
  eapply Forall_impl; [| exact H].
  intros [n a]. unfold passed. simpl. now destruct a.
Qed.

Lemma failures_runs runs :
  Forall succeeded runs -> failures (map deferredItem runs) = [].
Proof.
  intros H. apply filterMap_nothing. rewrite Forall_map.
  eapply Forall_impl; [| exact H].
  intros [n f]. unfold succeeded. simpl. now intros ->.
Qed.

(** What the rest of the engine needs to know of the Before phase: it
    touches nothing but the world, it always answers, and the error it
    answers with is the one failure in its log. *)
Lemma runBeforeHandlers_summary event st :
  exists (w : W) (answer : option HandlerError),
    let r := runBeforeHandlers env event st in
    final r = withWorld st w
    /\ outcome r = Done answer
    /\ failures (log r) = match answer with Some e => [e] | None => [] end
    /\ Forall isBeforeItem (log r)
    /\ (forall n e a, In (n, e, a) (beforePolls (log r)) -> e = event)
    /\ (answer <> None ->
        exists h rest n a more,
          beforeHandlers st = h :: rest
          /\ log r = LBefore n event a :: more /\ n = bh_name h).
Proof.
  destruct (runBeforeHandlers_spec event st)
    as (polls & runs & w & Hfinal & Hlog & Hcases).
  cbv zeta in *.
  assert (Forall isBeforeItem (log (runBeforeHandlers env event st))) as Hitems.
  { rewrite Hlog. apply Forall_app. split; rewrite Forall_map.
    - apply Forall_forall. now intros [n a] _.
    - apply Forall_forall. now intros [n f] _. }
  assert (forall n e a,
             In (n, e, a) (beforePolls (log (runBeforeHandlers env event st)))
             -> e = event) as Hev.
  { intros n e a Hin. unfold beforePolls in Hin.
    apply filterMap_in in Hin. destruct Hin as (x & Hx & Hf).
    rewrite Hlog in Hx. apply in_app_or in Hx.
    destruct Hx as [Hx | Hx]; apply in_map_iff in Hx;
      destruct Hx as (y & <- & _); simpl in Hf; congruence. }
  destruct Hcases as [(done & n & e & Hp & Hdone & Hnames & Hruns & Hout)
                     | (Hnames & Hpass & Hdef)].
  - exists w, (Some e). repeat split; try assumption.
    + rewrite Hlog, Hruns, app_nil_r, Hp, map_app.
      unfold failures. rewrite filterMap_app.
      fold (failures (map (pollItem event) done)).
      now rewrite failures_polls.
    + intros _. subst polls. subst runs. rewrite app_nil_r in Hlog.
      destruct (beforeHandlers st) as [| h rest] eqn:Ehs.
      * rewrite length_app in Hnames. simpl in Hnames.
        rewrite firstn_nil in Hnames.
        rewrite map_app in Hnames. now destruct (map fst done).
      * destruct done as [| [n0 a0] done]; simpl in *.
        -- exists h, rest, n, (PollFailed e), [].
           repeat split; [exact Hlog | congruence].
        -- exists h, rest, n0, a0,
             (map (pollItem event) (done ++ [(n, PollFailed e)])).
           repeat split; [exact Hlog | congruence].
  - destruct Hdef as [(ran & n & e & Hr & Hran & Hn2 & Hout)
                     | (Hn2 & Hok & Hout)].
    + exists w, (Some e). repeat split; try assumption.
      * rewrite Hlog. unfold failures. rewrite filterMap_app.
        fold (failures (map (pollItem event) polls)).
        rewrite failures_polls by assumption.
        rewrite Hr, map_app, filterMap_app.
        fold (failures (map deferredItem ran)).
        now rewrite failures_runs.
      * intros _. subst runs.
        destruct (beforeHandlers st) as [| h rest] eqn:Ehs.
        -- simpl in Hnames. apply map_eq_nil in Hnames. subst polls.
           simpl in Hn2. rewrite firstn_nil in Hn2.
           rewrite map_app in Hn2. now destruct (map fst ran).
        -- destruct polls as [| [n0 a0] polls]; [discriminate |].
           simpl in *.
           exists h, rest, n0, a0,
             (map (pollItem event) polls
              ++ map deferredItem (ran ++ [(n, Some e)])).
           repeat split; [exact Hlog | congruence].
    + exists w, None. repeat split; try assumption.
      * rewrite Hlog. unfold failures. rewrite filterMap_app.
        fold (failures (map (pollItem event) polls)).
        fold (failures (map deferredItem runs)).
        now rewrite failures_polls, failures_runs.
      * intros Hne. now contradiction Hne.
Qed.

(** *** The cell *)

Lemma cellTransform_withTransition s t :
  cellTransform env (withTransition s t)
  = withTransition (cellTransform env s) t.
Proof. unfold cellTransform. now destruct (env_maxEntries env). Qed.

Lemma cellTransform_idem s :
  validBound env ->
  cellTransform env (cellTransform env s) = cellTransform env s.
Proof.
  unfold validBound, cellTransform.
  destruct (env_maxEntries env) as [n |]; [| reflexivity].
  intros Hn. now apply clamp_idempotent.
Qed.

Lemma observe_begun st event :
  validBound env ->
  observe env (begun env st event)
  = withTransition (observe env st) (Some event).
Proof.
  intros Hv. unfold observe, begun. simpl.
  rewrite cellTransform_withTransition.
  rewrite cellTransform_withTransition.
  unfold observe. now rewrite !cellTransform_idem.
Qed.

Lemma beginTransition_eq event depth st :
  beginTransition env event depth st
  = mkRun (begun env st event)
          [LBegin depth event; LStore (cell (begun env st event))]
          (Done (observe env (begun env st event))).
Proof. reflexivity. Qed.

(** *** The After phase *)

Lemma pollAfter_eq h event st w m :
  nh_run h event (observe env st) (world st) = (w, m) ->
  pollAfter env h event st
  = mkRun (withWorld st w) [LAfter (nh_name h) event] (Done m).
Proof. unfold pollAfter. now intros ->. Qed.

Lemma pollHandlers_spec hs event :
  forall matches st,
  exists w ms,
    pollHandlers env hs event matches st
    = mkRun (withWorld st w)
            (map (fun h => LAfter (nh_name h) event) hs)
            (Done (matches ++ ms)).
Proof.
  induction hs as [| h rest IH]; intros matches st.
  - exists (world st), []. simpl. rewrite withWorld_same, app_nil_r.
    reflexivity.
  - destruct (nh_run h event (observe env st) (world st)) as [w1 m] eqn:Erun.
    pose proof (pollAfter_eq h event st Erun) as Hp.
    simpl pollHandlers.
    rewrite (bind_done _ _ st (a := m)) by now rewrite Hp.
    rewrite Hp. clear Hp. simpl.
    destruct m as [d |].
    + destruct (IH (matches ++ [(nh_name h, d)]) (withWorld st w1))
        as (w & ms & ->).
      exists w, ((nh_name h, d) :: ms). simpl.
      now rewrite <- app_assoc.
    + destruct (IH matches (withWorld st w1)) as (w & ms & ->).
      exists w, ms. reflexivity.
Qed.

Lemma runAll_spec matches :
  forall st,
  exists w,
    runAll env matches st
    = mkRun (withWorld st w)
            (map (fun m => LAfterDeferred (fst m)) matches)
            (Done tt).
Proof.
  induction matches as [| [name d] rest IH]; intros st.
  - exists (world st). simpl. now rewrite withWorld_same.
  - simpl runAll. unfold bind, runAfterDeferred. simpl.
    destruct (IH (withWorld st (d (observe env st) (world st)))) as (w & ->).
    exists w. reflexivity.
Qed.

Lemma afterPolls_polled (hs : list (NavigationHandler W)) event :
  filterMap (fun i => match i with
                      | LAfter n e => Some (n, e)
                      | _ => None
                      end)
            (map (fun h => LAfter (nh_name h) event) hs)
  = map (fun h => (nh_name h, event)) hs.
Proof. induction hs as [| h hs IH]; simpl; [reflexivity | now rewrite IH]. Qed.

Lemma runHandlers_spec event st :
  exists w lg,
    runHandlers env event st = mkRun (withWorld st w) lg (Done tt)
    /\ afterPolls lg = map (fun h => (nh_name h, event)) (handlers st)
    /\ Forall isAfterItem lg.
Proof.
  destruct (pollHandlers_spec (handlers st) event [] st) as (w1 & ms & Hp).
  destruct (runAll_spec ms (withWorld st w1)) as (w2 & Ha).
  exists w2,
    (map (fun h => LAfter (nh_name h) event) (handlers st)
     ++ map (fun m => LAfterDeferred (fst m)) ms).
  split; [| split].
  - unfold runHandlers, bind. simpl. rewrite Hp. simpl. rewrite Ha.
    reflexivity.
  - unfold afterPolls. rewrite filterMap_app.
    rewrite (filterMap_nothing _ (l := map _ ms)).
    + rewrite app_nil_r. apply afterPolls_polled.
    + rewrite Forall_map. apply Forall_forall. now intros.
  - apply Forall_app. split; rewrite Forall_map; apply Forall_forall;
      now intros.
Qed.

(** *** The After phase against its specification *)

Lemma pollHandlers_exact hs event :
  forall matches st,
    let notified := notifyInOrder hs event (observe env st) (world st) in
    pollHandlers env hs event matches st
    = mkRun (withWorld st (fst notified))
            (map (fun h => LAfter (nh_name h) event) hs)
            (Done (matches ++ returned (snd notified))).
Proof.
  induction hs as [| h rest IH]; intros matches st; cbv zeta.
  - simpl. now rewrite withWorld_same, app_nil_r.
  - destruct (nh_run h event (observe env st) (world st)) as [w1 m] eqn:Erun.
    pose proof (pollAfter_eq h event st Erun) as Hp.
    simpl pollHandlers.
    rewrite (bind_done _ _ st (a := m)) by now rewrite Hp.
    rewrite Hp. clear Hp. cbn [notifyInOrder]. rewrite Erun.
    destruct m as [d |]; cbn [final log outcome]; rewrite IH;
      cbn [world withWorld]; rewrite observe_withWorld;
      fold (withWorld st w1);
      destruct (notifyInOrder rest event (observe env st) w1) as [w2 answers];
      cbn [fst snd map returned app final log outcome];
      [now rewrite <- app_assoc | reflexivity].
Qed.

Lemma runAll_exact matches :
  forall st,
    runAll env matches st
    = mkRun (withWorld st (settle matches (observe env st) (world st)))
            (map (fun m => LAfterDeferred (fst m)) matches)
            (Done tt).
Proof.
  induction matches as [| [name d] rest IH]; intros st.
  - simpl. now rewrite withWorld_same.
  - simpl runAll. unfold bind, runAfterDeferred. cbn [final log outcome].
    rewrite IH. reflexivity.
Qed.

Lemma runHandlers_exact event st :
  let phase := afterPhase (handlers st) event (observe env st) (world st) in
  runHandlers env event st
  = mkRun (withWorld st (fst phase))
          (map (fun h => LAfter (nh_name h) event) (handlers st)
           ++ map (fun m => LAfterDeferred (fst m)) (snd phase))
          (Done tt).
Proof.
  cbv zeta. unfold runHandlers, afterPhase.
  unfold bind at 1. cbn [final log outcome app].
  pose proof (pollHandlers_exact (handlers st) event [] st) as Hp.
  cbv zeta in Hp.
  destruct (notifyInOrder (handlers st) event (observe env st) (world st))
    as [w1 answers]. cbn [fst snd app] in Hp. cbv beta iota.
  unfold bind. rewrite Hp. cbn [final log outcome fst snd].
  rewrite (runAll_exact (returned answers) (withWorld st w1)).
  reflexivity.
Qed.

(** Every after-handler is called, in the order of the registry, and the
    effects that run are those of the handlers that returned one, in that
    order. *)
Lemma notifyInOrder_names (hs : list (NavigationHandler W)) event s :
  forall w,
    map fst (snd (notifyInOrder hs event s w)) = map (@nh_name W) hs.
Proof.
  induction hs as [| h rest IH]; intros w; [reflexivity |].
  cbn [notifyInOrder]. destruct (nh_run h event s w) as [w1 answer].
  specialize (IH w1).
  destruct (notifyInOrder rest event s w1) as [w2 answers].
  cbn [snd map fst] in *. now rewrite IH.
Qed.

(** *** Commit, Mutate, After *)

Definition upgraded (p : ProposedDestination) (n : nat) : Destination :=
  {| d_id := env_uuid env n;
     d_key := env_uuid env (S n);
     d_url := p_url p;
     d_state := p_state p;
     d_sameDocument := p_sameDocument p |}.

Definition announced (event : TransitionEvent) (to : Destination)
  : NavigationEvent :=
  {| nev_type := ev_type event;
     nev_info := ev_info event;
     nev_destination := to |}.

Lemma finishTransition_plain current event skip st :
  env_newNavigationState env = None ->
  exists to n,
    match ev_to event with
    | Materialized d => to = d /\ n = drawn st
    | Proposed p => to = upgraded p (drawn st) /\ n = S (S (drawn st))
    end
    /\ let r := finishTransition env current event skip st in
       let stored := cellTransform env (mutated current event to) in
       ((exists w e,
            skip = false
            /\ r = mkRun (withWorld (withDrawn st n) w)
                         [LCommit to event (Some e)] (Failed e))
        \/ (exists w lga,
               r = mkRun (withWorld (withCell (withDrawn st n) stored) w)
                         ((if skip then [] else [LCommit to event None])
                          ++ LStore stored :: lga)
                         (Done to)
               /\ afterPolls lga
                  = map (fun h => (nh_name h, announced event to))
                        (handlers st)
               /\ Forall isAfterItem lga)).
Proof.
  intros Hnone.
  assert (exists to n,
             match ev_to event with
             | Materialized d => to = d /\ n = drawn st
             | Proposed p => to = upgraded p (drawn st) /\ n = S (S (drawn st))
             end
             /\ (match ev_to event with
                 | Materialized d => ret d
                 | Proposed p => upgradeProposedDestination env p
                 end) st = mkRun (withDrawn st n) [] (Done to))
    as (to & n & Hto & Hrun).
  { destruct (ev_to event) as [p | d].
    - exists (upgraded p (drawn st)), (S (S (drawn st))).
      split; [now split | reflexivity].
    - exists d, (drawn st). split; [now split |].
      unfold ret. now destruct st. }
  exists to, n. split; [exact Hto |]. cbv zeta.
  unfold finishTransition. rewrite Hnone.
  run_with Hrun. clear Hrun.
  set (st1 := withDrawn st n).
  set (stored := cellTransform env (mutated current event to)).
  destruct skip.
  - right.
    destruct (runHandlers_spec (announced event to) (withCell st1 stored))
      as (w & lga & Hrun & Hpolls & Hitems).
    exists w, lga. split; [| split; assumption].
    run_with (eq_refl : ret tt st1 = mkRun st1 [] (Done tt)).
    run_with (set_eq (mutated current event to) st1). fold stored.
    run_with Hrun. finish_run.
  - destruct (env_commit env to event (world st1)) as [w1 failure] eqn:Ec.
    pose proof (@commit_eq to event st1 _ _ Ec) as Hc.
    destruct failure as [e |].
    + left. exists w1, e. split; [reflexivity |].
      stop_with Hc (@Failed Destination e); [reflexivity |]. left. now exists e.
    + right.
      destruct (runHandlers_spec (announced event to)
                  (withCell (withWorld st1 w1) stored))
        as (w & lga & Hrun & Hpolls & Hitems).
      exists w, lga. split; [| split; assumption].
      run_with Hc.
      run_with (set_eq (mutated current event to) (withWorld st1 w1)).
      fold stored.
      run_with Hrun. finish_run.
Qed.


Lemma finishTransition_host current event skip st newNavigationState :
  env_newNavigationState env = Some newNavigationState ->
  exists to n w,
    let r := finishTransition env current event skip st in
    let stored := cellTransform env (newNavigationState w) in
    (exists e,
        skip = false
        /\ r = mkRun (withWorld (withDrawn st n) w)
                     [LCommit to event (Some e)] (Failed e))
    \/ (r = mkRun (withCell (withWorld (withDrawn st n) w) stored)
                  ((if skip then [] else [LCommit to event None])
                   ++ [LStore stored])
                  (match JsArray.get (entries (cellTransform env stored))
                                     (index (cellTransform env stored)) with
                   | Some d => Done d
                   | None => Died undefinedMessage
                   end)).
Proof.
  intros Hsome.
  assert (exists to n,
             (match ev_to event with
              | Materialized d => ret d
              | Proposed p => upgradeProposedDestination env p
              end) st = mkRun (withDrawn st n) [] (Done to))
    as (to & n & Hrun).
  { destruct (ev_to event) as [p | d].
    - exists (upgraded p (drawn st)), (S (S (drawn st))). reflexivity.
    - exists d, (drawn st). unfold ret. now destruct st. }
  unfold finishTransition. rewrite Hsome.
  run_with Hrun. clear Hrun.
  set (st1 := withDrawn st n).
  destruct skip.
  - exists to, n, (world st1). right.
    run_with (eq_refl : ret tt st1 = mkRun st1 [] (Done tt)).
    unfold bind, set, orThrow. simpl.
    destruct (JsArray.get _ _); reflexivity.
  - destruct (env_commit env to event (world st1)) as [w1 failure] eqn:Ec.
    pose proof (@commit_eq to event st1 _ _ Ec) as Hc.
    exists to, n, w1.
    destruct failure as [e |].
    + left. exists e. split; [reflexivity |].
      stop_with Hc (@Failed Destination e); [reflexivity |]. left. now exists e.
    + right. run_with Hc.
      unfold bind, set, orThrow. simpl.
      destruct (JsArray.get _ _); reflexivity.
Qed.

(** Whatever the adapter, the last three phases begin no transition, poll no
    before-handler, keep the registries and give an answer. *)
Lemma finishTransition_summary current event skip st :
  let r := finishTransition env current event skip st in
  begins (log r) = []
  /\ failures (log r) = []
  /\ beforePolls (log r) = []
  /\ deferredRuns (log r) = []
  /\ (skip = true -> commits (log r) = [])
  /\ outcome r <> Diverged
  /\ outcome r <> Died loopMessage
  /\ beforeHandlers (final r) = beforeHandlers st
  /\ handlers (final r) = handlers st.
Proof.
  cbv zeta.
  destruct (env_newNavigationState env) as [f |] eqn:Hn.
  - destruct (finishTransition_host current event skip st Hn)
      as (to & n & w & [(e & Hs & ->) | ->]); cbv zeta; simpl.
    + repeat split; try reflexivity; try discriminate. intros; congruence.
    + destruct skip; simpl;
        (repeat split; try reflexivity; try discriminate;
         destruct (JsArray.get _ _); discriminate).
  - destruct (finishTransition_plain current event skip st Hn)
      as (to & n & _ & [(w & e & Hs & ->) | (w & lga & -> & _ & Hitems)]);
      cbv zeta; simpl.
    + repeat split; try reflexivity; try discriminate. intros; congruence.
    + destruct (after_items_only Hitems) as (Hb & Hc & Hp & Hd & Hf & _).
      unfold begins, failures, beforePolls, deferredRuns, commits in *.
      rewrite !filterMap_app. simpl.
      rewrite Hb, Hc, Hp, Hd, Hf.
      destruct skip; simpl;
        (repeat split; try reflexivity; try discriminate; intros; congruence).
Qed.

(** *** [handleError] *)

Lemma run_eta {A} (r : Run W A) : mkRun (final r) (log r) (outcome r) = r.
Proof. now destruct r. Qed.

Lemma makeDestination_spec url state origin st :
  exists d n,
    makeDestination env url state origin st = mkRun (withDrawn st n) [] (Done d)
    /\ d_url d = url
    /\ d_sameDocument d = String.eqb (url_origin url) origin
    /\ match state with
       | JsMarked marker_id marker_key marker_state =>
           d_id d = marker_id /\ d_key d = marker_key
           /\ d_state d = marker_state /\ n = drawn st
       | _ =>
           d_id d = env_uuid env (drawn st)
           /\ d_key d = env_uuid env (S (drawn st))
           /\ d_state d = state /\ n = S (S (drawn st))
       end.
Proof.
  unfold makeDestination.
  destruct state;
    try (eexists; exists (S (S (drawn st))); split; [reflexivity |];
         simpl; now repeat split).
  eexists; exists (drawn st). split.
  - unfold ret. now destruct st.
  - simpl. now repeat split.
Qed.

Lemma makeRedirectEvent_spec origin redirect from st :
  exists event n to,
    makeRedirectEvent env origin redirect from st
    = mkRun (withDrawn st n) [] (Done event)
    /\ event = {| ev_type := Replace;
                  ev_from := from;
                  ev_to := Materialized to;
                  ev_delta := 0;
                  ev_info := match redirect_options redirect with
                             | Some o => ro_info o
                             | None => JsUndefined
                             end |}
    /\ makeDestination env (getUrl env origin (redirect_path redirect))
                       (match redirect_options redirect with
                        | Some o => ro_state o
                        | None => JsUndefined
                        end) origin st
       = mkRun (withDrawn st n) [] (Done to).
Proof.
  unfold makeRedirectEvent.
  destruct (makeDestination_spec
              (getUrl env origin (redirect_path redirect))
              (match redirect_options redirect with
               | Some o => ro_state o
               | None => JsUndefined
               end) origin st) as (d & n & Hrun & _).
  eexists; exists n, d. split; [| split; [reflexivity | exact Hrun]].
  run_with Hrun. reflexivity.
Qed.

Lemma handleError_loop fuel error depth st :
  (25 <= depth)%nat ->
  handleError env fuel error depth st = mkRun st [] (Died loopMessage).
Proof.
  intros H. unfold handleError, handleErrorWith.
  destruct (Nat.leb_spec 25 depth); [reflexivity | lia].
Qed.

Lemma handleError_undefined fuel error depth st :
  (depth < 25)%nat ->
  JsArray.get (entries (observe env st)) (index (observe env st)) = None ->
  handleError env fuel error depth st = mkRun st [] (Died undefinedMessage).
Proof.
  intros H Hget. unfold handleError, handleErrorWith.
  destruct (Nat.leb_spec 25 depth); [lia |].
  unfold bind, get. simpl. rewrite Hget. reflexivity.
Qed.

Lemma handleError_cancel fuel depth st from :
  (depth < 25)%nat ->
  JsArray.get (entries (observe env st)) (index (observe env st)) = Some from ->
  handleError env fuel CancelNavigation depth st
  = mkRun (withCell st (cellTransform env (withTransition (observe env st) None)))
          [LStore (cellTransform env (withTransition (observe env st) None))]
          (Done from).
Proof.
  intros H Hget. unfold handleError, handleErrorWith.
  destruct (Nat.leb_spec 25 depth); [lia |].
  unfold bind, get. simpl. rewrite Hget. reflexivity.
Qed.

Lemma handleError_redirect fuel depth st from redirect st' event :
  (depth < 25)%nat ->
  JsArray.get (entries (observe env st)) (index (observe env st)) = Some from ->
  makeRedirectEvent env (env_origin env) redirect from st
  = mkRun st' [] (Done event) ->
  handleError env fuel (Redirect redirect) depth st
  = runNavigationEvent env fuel event (S depth) false st'.
Proof.
  intros H Hget Hm. unfold handleError, handleErrorWith.
  destruct (Nat.leb_spec 25 depth); [lia |].
  run_with (eq_refl : get env st = mkRun st [] (Done (observe env st))).
  rewrite Hget.
  run_with (eq_refl : orThrow (Some from) st = mkRun st [] (Done from)).
  run_with Hm. rewrite Nat.add_1_r. cbn [app final log outcome]. apply run_eta.
Qed.

(** *** Every run follows one of the paths *)

Lemma runNavigationEvent_S fuel event depth skip st :
  runNavigationEvent env (S fuel) event depth skip st
  = (current <- beginTransition env event depth ;;
     beforeError <- (if skip then ret None
                     else runBeforeHandlers env event) ;;
     match beforeError with
     | Some error => handleError env fuel error depth
     | None => finishTransition env current event skip
     end) st.
Proof. reflexivity. Qed.

Lemma runNavigationEvent_path fuel :
  forall depth event skip st,
    Path env fuel depth event skip st
         (runNavigationEvent env fuel event depth skip st).
Proof.
  induction fuel as [| fuel IH]; intros depth event skip st.
  - apply path_no_fuel.
  - rewrite runNavigationEvent_S.
    run_with (beginTransition_eq event depth st).
    destruct skip.
    + run_with (eq_refl : ret (@None HandlerError) (begun env st event)
                          = mkRun (begun env st event) [] (Done None)).
      cbn [app]. now apply path_skip.
    + destruct (runBeforeHandlers_summary event (begun env st event))
        as (w & answer & Hfinal & Hout & _).
      cbv zeta in Hfinal, Hout.
      assert (runBeforeHandlers env event (begun env st event)
              = mkRun (final (runBeforeHandlers env event (begun env st event)))
                      (log (runBeforeHandlers env event (begun env st event)))
                      (Done answer)) as Hrb.
      { rewrite <- Hout. symmetry. apply run_eta. }
      run_with Hrb. cbn [app].
      set (rb := runBeforeHandlers env event (begun env st event)) in *.
      destruct answer as [error |].
      * destruct (Nat.le_gt_cases 25 depth) as [Hdeep | Hshallow].
        -- rewrite handleError_loop by assumption.
           cbn [final log outcome]. rewrite app_nil_r.
           now apply path_loop with (error := error).
        -- destruct (JsArray.get (entries (observe env (final rb)))
                                 (index (observe env (final rb))))
             as [from |] eqn:Hget.
           ++ destruct error as [redirect |].
              ** destruct (makeRedirectEvent_spec (env_origin env) redirect
                            from (final rb)) as (event' & n & to & Hm & _).
                 rewrite (@handleError_redirect fuel depth (final rb) from redirect _
                            event' Hshallow Hget Hm).
                 eapply path_redirect with (redirect := redirect)
                                           (from := from) (event' := event');
                   try reflexivity; try assumption.
                 --- now rewrite Hm.
                 --- now rewrite Hm.
                 --- rewrite Hm. apply IH.
              ** rewrite (@handleError_cancel fuel depth (final rb) from Hshallow Hget).
                 cbn [final log outcome].
                 now apply path_cancel.
           ++ rewrite handleError_undefined by assumption.
              cbn [final log outcome]. rewrite app_nil_r.
              now apply path_undefined with (error := error).
      * now apply path_pass.
Qed.

(** *** What stays the same along a path *)

Lemma before_frame event st :
  exists w, final (runBeforeHandlers env event st) = withWorld st w.
Proof.
  destruct (runBeforeHandlers_summary event st) as (w & a & H & _).
  now exists w.
Qed.

Lemma redirect_frame origin redirect from st :
  exists n, final (makeRedirectEvent env origin redirect from st) = withDrawn st n.
Proof.
  destruct (makeRedirectEvent_spec origin redirect from st)
    as (ev & n & to & H & _).
  exists n. now rewrite H.
Qed.

Lemma observe_after_before event st ev :
  observe env (final (runBeforeHandlers env ev (begun env st event)))
  = observe env (begun env st event).
Proof.
  destruct (before_frame ev (begun env st event)) as (w & ->). reflexivity.
Qed.

Lemma observe_after_redirect origin redirect from st :
  observe env (final (makeRedirectEvent env origin redirect from st))
  = observe env st.
Proof.
  destruct (redirect_frame origin redirect from st) as (n & ->). reflexivity.
Qed.

Lemma begins_cons_other i l :
  (forall d e, i <> LBegin d e) -> begins (i :: l) = begins l.
Proof. intros H. destruct i; try reflexivity. now contradiction (H depth event). Qed.

Lemma begins_before event st :
  begins (log (runBeforeHandlers env event st)) = [].
Proof.
  destruct (runBeforeHandlers_summary event st) as (w & a & _ & _ & _ & H & _).
  now apply before_items_only in H.
Qed.

Lemma begins_app l1 l2 : begins (l1 ++ l2) = begins l1 ++ begins l2.
Proof. apply filterMap_app. Qed.

Lemma failures_app l1 l2 : failures (l1 ++ l2) = failures l1 ++ failures l2.
Proof. apply filterMap_app. Qed.

Lemma commits_app l1 l2 : commits l1 ++ commits l2 = commits (l1 ++ l2).
Proof. symmetry. apply filterMap_app. Qed.

(** *** Termination and the depth guard *)

Lemma path_no_divergence fuel depth event skip st r :
  Path env fuel depth event skip st r ->
  (0 < fuel)%nat -> (26 <= fuel + depth)%nat ->
  outcome r <> Diverged.
Proof.
  induction 1 as
    [ depth event skip st
    | fuel depth event st rb error Hrb Hout Hdeep
    | fuel depth event st rb error Hrb Hout Hshallow Hget
    | fuel depth event st rb from stored Hrb Hout Hshallow Hget Hstored
    | fuel depth event st rb redirect from rm event' r Hrb Hout Hshallow Hget
        Hrm Hev Hlog Hnested IH
    | fuel depth event st rb rf Hrb Hout Hrf
    | fuel depth event st rf Hrf ];
    intros Hpos Hfuel; simpl; try discriminate; try lia.
  - apply IH; lia.
  - subst rf. apply finishTransition_summary.
  - subst rf. apply finishTransition_summary.
Qed.

Lemma path_depths fuel depth event skip st r :
  Path env fuel depth event skip st r ->
  map fst (begins (log r)) = seq depth (length (begins (log r))).
Proof.
  induction 1 as
    [ depth event skip st
    | fuel depth event st rb error Hrb Hout Hdeep
    | fuel depth event st rb error Hrb Hout Hshallow Hget
    | fuel depth event st rb from stored Hrb Hout Hshallow Hget Hstored
    | fuel depth event st rb redirect from rm event' r Hrb Hout Hshallow Hget
        Hrm Hev Hlog Hnested IH
    | fuel depth event st rb rf Hrb Hout Hrf
    | fuel depth event st rf Hrf ];
    cbn [log]; try reflexivity;
    change (begins (LBegin depth event :: LStore ?c :: ?l))
      with ((depth, event) :: begins l);
    rewrite ?begins_app; try (subst rb; rewrite begins_before).
  - reflexivity.
  - reflexivity.
  - reflexivity.
  - simpl. now rewrite IH at 1.
  - subst rf. simpl.
    now rewrite (proj1 (finishTransition_summary _ event false (final _))).
  - subst rf.
    now rewrite (proj1 (finishTransition_summary _ event true _)).
Qed.

Lemma path_loop_depth fuel depth event skip st r :
  Path env fuel depth event skip st r ->
  outcome r = Died loopMessage ->
  (depth <= 25)%nat ->
  (length (begins (log r)) + depth = 26)%nat.
Proof.
  induction 1 as
    [ depth event skip st
    | fuel depth event st rb error Hrb Hout Hdeep
    | fuel depth event st rb error Hrb Hout Hshallow Hget
    | fuel depth event st rb from stored Hrb Hout Hshallow Hget Hstored
    | fuel depth event st rb redirect from rm event' r Hrb Hout Hshallow Hget
        Hrm Hev Hlog Hnested IH
    | fuel depth event st rb rf Hrb Hout Hrf
    | fuel depth event st rf Hrf ];
    cbn [log outcome]; intros Hdied Hdepth; try discriminate;
    try (change (begins (LBegin depth event :: LStore ?c :: ?l))
           with ((depth, event) :: begins l);
         rewrite ?begins_app; try (subst rb; rewrite begins_before)).
  - simpl. lia.
  - simpl. specialize (IH Hdied). lia.
  - subst rf. now apply finishTransition_summary in Hdied.
  - subst rf. now apply finishTransition_summary in Hdied.
Qed.

End EngineFacts.

(** ** The Mutate phase *)

Section MutationFacts.

Context {A : Type}.
Implicit Types l : list A.

Lemma get_app_last l x : JsArray.get (l ++ [x]) (JsArray.len l) = Some x.
Proof.
  unfold JsArray.get, JsArray.len.
  destruct (Z.ltb_spec (Z.of_nat (length l)) 0); [lia |].
  rewrite Nat2Z.id. rewrite nth_error_app2 by lia.
  now rewrite Nat.sub_diag.
Qed.

Lemma skipn_snoc k l x :
  (k <= length l)%nat -> skipn k (l ++ [x]) = skipn k l ++ [x].
Proof.
  intros H. rewrite skipn_app.
  replace (k - length l)%nat with 0%nat by lia. reflexivity.
Qed.

(** [l] with the element at [i] replaced by [x], as the Replace branch
    builds it. *)
Lemma get_spliced l i x j :
  0 <= i < JsArray.len l ->
  JsArray.get (firstn (Z.to_nat i) l ++ [x] ++ skipn (Z.to_nat (i + 1)) l) j
  = if j =? i then Some x else JsArray.get l j.
Proof.
  intros [Hlo Hhi]. unfold JsArray.len in Hhi. unfold JsArray.get.
  destruct (Z.ltb_spec j 0) as [Hneg | Hpos].
  - destruct (Z.eqb_spec j i); [lia | reflexivity].
  - assert (length (firstn (Z.to_nat i) l) = Z.to_nat i) as Hlen
        by (rewrite length_firstn; lia).
    destruct (Z.eqb_spec j i) as [-> | Hne].
    + rewrite nth_error_app2 by lia. rewrite Hlen, Nat.sub_diag. reflexivity.
    + destruct (Z.lt_ge_cases j i) as [Hlt | Hge].
      * rewrite nth_error_app1 by lia.
        rewrite nth_error_firstn.
        destruct (Nat.ltb_spec (Z.to_nat j) (Z.to_nat i)); [reflexivity | lia].
      * rewrite nth_error_app2 by lia. rewrite Hlen.
        replace (Z.to_nat j - Z.to_nat i)%nat
          with (S (Z.to_nat j - Z.to_nat (i + 1))) by lia.
        simpl. rewrite nth_error_skipn. f_equal. lia.
Qed.

Lemma len_spliced l i x :
  0 <= i < JsArray.len l ->
  JsArray.len (firstn (Z.to_nat i) l ++ [x] ++ skipn (Z.to_nat (i + 1)) l)
  = JsArray.len l.
Proof.
  intros [Hlo Hhi]. unfold JsArray.len in *.
  rewrite !length_app, length_firstn, length_skipn. simpl. lia.
Qed.

End MutationFacts.

Lemma clamp_fixed n s :
  1 <= n -> wellFormed s -> JsArray.len (entries s) <= n ->
  clampNavigationState n s = s.
Proof.
  intros Hn [Hlo Hhi] Hlen. unfold clampNavigationState.
  rewrite slice_last_short by assumption.
  destruct s as [es i t]. simpl in *. f_equal. lia.
Qed.

Lemma clamp_wellFormed n s :
  1 <= n -> entries s <> [] -> wellFormed (clampNavigationState n s).
Proof.
  intros Hn Hne. unfold wellFormed. simpl.
  rewrite len_slice_last by assumption.
  assert (JsArray.len (entries s) <> 0) by (now rewrite len_nil_iff).
  pose proof (len_nonneg (entries s)). lia.
Qed.

Lemma wellFormed_nonempty s : wellFormed s -> entries s <> [].
Proof.
  intros [Hlo Hhi] Hnil. rewrite Hnil in Hhi. unfold JsArray.len in Hhi.
  simpl in Hhi. lia.
Qed.

Section MutateProps.

Variable W : Type.
Variable env : Env W.

(** A state as it is read through the cell. *)
Definition readable (s : NavigationState) : Prop := cellTransform env s = s.

Lemma observe_readable (st : Engine W) :
  validBound env -> readable (observe env st).
Proof. intros Hv. unfold readable, observe. now apply cellTransform_idem. Qed.

Lemma readable_withTransition s t :
  readable s -> readable (withTransition s t).
Proof.
  unfold readable. intros H. rewrite cellTransform_withTransition. now rewrite H.
Qed.

Lemma readable_bounded s n :
  env_maxEntries env = Some n -> 1 <= n -> readable s ->
  JsArray.len (entries s) <= n.
Proof.
  unfold readable, cellTransform. intros -> Hn H.
  rewrite <- H. simpl. rewrite len_slice_last by assumption. lia.
Qed.

Lemma push_grown (es : list Destination) i (to : Destination) :
  0 <= i < JsArray.len es ->
  JsArray.len (firstn (Z.to_nat (i + 1)) es ++ [to]) = i + 2.
Proof.
  intros [Hlo Hhi]. unfold JsArray.len in *.
  rewrite length_app, length_firstn. simpl. lia.
Qed.

Lemma mutated_mutation current event to :
  validBound env -> wellFormed current -> readable current ->
  mutation env current (cellTransform env (mutated current event to)) event to.
Proof.
  intros Hv Hwf Hread. pose proof Hwf as [Hlo Hhi].
  unfold mutation. split.
  { unfold cellTransform, mutated.
    destruct (env_maxEntries env); destruct (ev_type event); reflexivity. }
  unfold validBound in Hv. unfold mutated, cellTransform.
  destruct (env_maxEntries env) as [n |] eqn:Hmax.
  - pose proof (readable_bounded Hmax Hv Hread) as Hlen.
    destruct (ev_type event); cbn [entries index transition clampNavigationState].
    + (* push *)
      rewrite slice_prefix by lia.
      set (grown := firstn (Z.to_nat (index current + 1)) (entries current)
                    ++ [to]).
      pose proof (push_grown (entries current) to Hwf) as Hgrown.
      fold grown in Hgrown.
      rewrite len_slice_last by assumption. rewrite Hgrown.
      split; [| split; [reflexivity | split; [lia |]]].
      * rewrite slice_last by assumption.
        exists (firstn (Z.to_nat (Z.max (JsArray.len grown - n) 0)) grown).
        now rewrite firstn_skipn.
      * rewrite slice_last by assumption. rewrite Hgrown. unfold grown.
        rewrite skipn_snoc
          by (rewrite length_firstn; unfold JsArray.len in Hhi; lia).
        replace (Z.min (Z.max 0 (index current + 1))
                       (Z.min (index current + 2) n - 1))
          with (JsArray.len
                  (skipn (Z.to_nat (Z.max (index current + 2 - n) 0))
                         (firstn (Z.to_nat (index current + 1))
                                 (entries current)))).
        -- apply get_app_last.
        -- unfold JsArray.len in *. rewrite length_skipn, length_firstn. lia.
    + (* replace *)
      rewrite slice_prefix by lia.
      rewrite slice_suffix with (k := index current + 1) by lia.
      rewrite slice_last_short;
        [| assumption | rewrite len_spliced by assumption; lia].
      rewrite len_spliced by assumption.
      split; [reflexivity | split; [lia | split]].
      * rewrite get_spliced by assumption. now rewrite Z.eqb_refl.
      * intros i Hi. rewrite get_spliced by assumption.
        destruct (Z.eqb_spec i (index current)); [contradiction | reflexivity].
    + (* reload *)
      rewrite slice_last_short by assumption. split; [reflexivity | lia].
    + (* traverse *)
      rewrite slice_last_short by assumption. split; [reflexivity | lia].
  - destruct (ev_type event); cbn [entries index transition].
    + rewrite slice_prefix by lia.
      pose proof (push_grown (entries current) to Hwf) as Hgrown.
      rewrite Hgrown.
      split; [now exists [] | split; [reflexivity | split; [lia |]]].
      replace (index current + 1)
        with (JsArray.len (firstn (Z.to_nat (index current + 1))
                                  (entries current))) at 2.
      * apply get_app_last.
      * unfold JsArray.len in *. rewrite length_firstn. lia.
    + rewrite slice_prefix by lia.
      rewrite slice_suffix with (k := index current + 1) by lia.
      rewrite len_spliced by assumption.
      split; [reflexivity | split; [reflexivity | split]].
      * rewrite get_spliced by assumption. now rewrite Z.eqb_refl.
      * intros i Hi. rewrite get_spliced by assumption.
        destruct (Z.eqb_spec i (index current)); [contradiction | reflexivity].
    + split; reflexivity.
    + split; [reflexivity | intros _; reflexivity].
Qed.

(** The state the Mutate phase stores is well formed, provided a traverse
    event points at an existing entry. *)
Lemma mutated_wellFormed current event to :
  validBound env -> wellFormed current -> readable current ->
  (ev_type event = Traverse ->
   0 <= index current + ev_delta event < JsArray.len (entries current)) ->
  wellFormed (cellTransform env (mutated current event to)).
Proof.
  intros Hv Hwf Hread Hfits.
  pose proof (mutated_mutation event to Hv Hwf Hread) as [_ Hm].
  pose proof Hwf as [Hlo Hhi].
  unfold wellFormed.
  destruct (ev_type event) eqn:Htype.
  - destruct Hm as (_ & Hlen & Hidx & _). rewrite Hidx, Hlen.
    unfold validBound in Hv. destruct (env_maxEntries env); lia.
  - destruct Hm as (Hlen & Hidx & _). rewrite Hidx, Hlen. lia.
  - destruct Hm as (Hes & Hidx). rewrite Hidx, Hes. lia.
  - destruct Hm as (Hes & Hidx). specialize (Hfits eq_refl).
    rewrite (Hidx Hfits), Hes. lia.
Qed.

End MutateProps.

(** ** Properties of the paths *)

Ltac path_cases H :=
  induction H as
    [ depth event skip st
    | fuel depth event st rb error Hrb Hout Hdeep
    | fuel depth event st rb error Hrb Hout Hshallow Hget
    | fuel depth event st rb from stored Hrb Hout Hshallow Hget Hstored
    | fuel depth event st rb redirect from rm event' r Hrb Hout Hshallow Hget
        Hrm Hev Hlog Hnested IH
    | fuel depth event st rb rf Hrb Hout Hrf
    | fuel depth event st rf Hrf ].

Section PathProps.

Variable W : Type.
Variable env : Env W.

Implicit Types st : Engine W.

Lemma before_log event st :
  let lb := log (runBeforeHandlers env event st) in
  begins lb = [] /\ commits lb = [] /\ afterPolls lb = []
  /\ (forall s, ~ In (LStore s) lb)
  /\ (forall n e a, In (n, e, a) (beforePolls lb) -> e = event).
Proof.
  destruct (runBeforeHandlers_summary env event st)
    as (w & a & _ & _ & _ & Hitems & Hev & _).
  cbv zeta in *. apply before_items_only in Hitems.
  destruct Hitems as (Hb & Hc & Ha & Hs). now repeat split.
Qed.

Lemma before_failures event st answer :
  outcome (runBeforeHandlers env event st) = Done answer ->
  failures (log (runBeforeHandlers env event st))
  = match answer with Some e => [e] | None => [] end.
Proof.
  destruct (runBeforeHandlers_summary env event st)
    as (w & a & _ & Hout & Hf & _).
  cbv zeta in *. rewrite Hout. now intros [= <-].
Qed.

Lemma before_registries event st :
  beforeHandlers (final (runBeforeHandlers env event st)) = beforeHandlers st
  /\ handlers (final (runBeforeHandlers env event st)) = handlers st
  /\ cell (final (runBeforeHandlers env event st)) = cell st.
Proof.
  destruct (before_frame env event st) as (w & ->). now repeat split.
Qed.

Lemma redirect_registries origin redirect from st :
  let st' := final (makeRedirectEvent env origin redirect from st) in
  beforeHandlers st' = beforeHandlers st
  /\ handlers st' = handlers st
  /\ cell st' = cell st.
Proof.
  destruct (redirect_frame env origin redirect from st) as (n & ->).
  now repeat split.
Qed.

Lemma opening_commits d ev c lb rest :
  commits lb = [] ->
  commits (LBegin d ev :: LStore c :: lb ++ rest) = commits rest.
Proof.
  intros H. unfold commits in *. simpl. now rewrite filterMap_app, H.
Qed.

Lemma opening_afterPolls d ev c lb rest :
  afterPolls lb = [] ->
  afterPolls (LBegin d ev :: LStore c :: lb ++ rest) = afterPolls rest.
Proof.
  intros H. unfold afterPolls in *. simpl. now rewrite filterMap_app, H.
Qed.

Lemma opening_failures d ev c lb rest :
  failures (LBegin d ev :: LStore c :: lb ++ rest)
  = failures lb ++ failures rest.
Proof. unfold failures. simpl. now rewrite filterMap_app. Qed.

Lemma opening_begins d ev c lb rest :
  begins lb = [] ->
  begins (LBegin d ev :: LStore c :: lb ++ rest) = (d, ev) :: begins rest.
Proof.
  intros H. unfold begins in *. simpl. now rewrite filterMap_app, H.
Qed.

(** The registries are the same after a run. *)
Lemma path_registries fuel depth event skip st r :
  Path env fuel depth event skip st r ->
  beforeHandlers (final r) = beforeHandlers st
  /\ handlers (final r) = handlers st.
Proof.
  intros H. path_cases H; cbn [final].
  - now split.
  - subst rb. destruct (before_registries event (begun env st event))
      as (-> & -> & _). now split.
  - subst rb. destruct (before_registries event (begun env st event))
      as (-> & -> & _). now split.
  - subst rb. cbn [withCell beforeHandlers handlers].
    destruct (before_registries event (begun env st event))
      as (-> & -> & _). now split.
  - destruct IH as (-> & ->). subst rm.
    destruct (redirect_registries (env_origin env) redirect from (final rb))
      as (-> & -> & _).
    subst rb. destruct (before_registries event (begun env st event))
      as (-> & -> & _). now split.
  - subst rf.
    destruct (finishTransition_summary env (observe env (begun env st event))
                event false (final rb)) as (_ & _ & _ & _ & _ & _ & _ & -> & ->).
    subst rb. destruct (before_registries event (begun env st event))
      as (-> & -> & _). now split.
  - subst rf.
    destruct (finishTransition_summary env (observe env (begun env st event))
                event true (begun env st event))
      as (_ & _ & _ & _ & _ & _ & _ & -> & ->). now split.
Qed.

(** The transitions a run begins follow the delta rule when the first one
    does: a redirect event is a replace with delta 0. *)
Lemma path_deltas fuel depth event skip st r :
  Path env fuel depth event skip st r ->
  deltaRule event ->
  forall d e, In (d, e) (begins (log r)) -> deltaRule e.
Proof.
  intros H. path_cases H; intros Hrule d e Hin; cbn [log] in Hin.
  - contradiction.
  - subst rb. rewrite <- (app_nil_r (log _)) in Hin.
    rewrite opening_begins in Hin by apply before_log.
    destruct Hin as [[= <- <-] | []]. assumption.
  - subst rb. rewrite <- (app_nil_r (log _)) in Hin.
    rewrite opening_begins in Hin by apply before_log.
    destruct Hin as [[= <- <-] | []]. assumption.
  - subst rb. rewrite opening_begins in Hin by apply before_log.
    destruct Hin as [[= <- <-] | []]. assumption.
  - subst rb. rewrite opening_begins in Hin by apply before_log.
    destruct Hin as [[= <- <-] | Hin]; [assumption |].
    apply (IH ltac:(
      subst rm;
      destruct (makeRedirectEvent_spec env (env_origin env) redirect from
                  (final (runBeforeHandlers env event (begun env st event))))
        as (ev0 & n & to & Hm & -> & _);
      rewrite Hm in Hev; injection Hev as <-; reflexivity) d e Hin).
  - subst rb. rewrite opening_begins in Hin by apply before_log.
    subst rf.
    rewrite (proj1 (finishTransition_summary env _ event false _)) in Hin.
    destruct Hin as [[= <- <-] | []]. assumption.
  - subst rf. change (LBegin depth event :: LStore ?c :: ?l)
      with (LBegin depth event :: LStore c :: [] ++ l) in Hin.
    rewrite opening_begins in Hin by reflexivity.
    rewrite (proj1 (finishTransition_summary env _ event true _)) in Hin.
    destruct Hin as [[= <- <-] | []]. assumption.
Qed.

End PathProps.

Section PathState.

Variable W : Type.
Variable env : Env W.
Hypothesis Hvalid : validBound env.

Implicit Types st : Engine W.

Lemma observe_before st event ev :
  observe env (final (runBeforeHandlers env ev (begun env st event)))
  = withTransition (observe env st) (Some event).
Proof. rewrite observe_after_before. now apply observe_begun. Qed.

Lemma observe_redirected st event ev origin redirect from :
  observe env
    (final (makeRedirectEvent env origin redirect from
              (final (runBeforeHandlers env ev (begun env st event)))))
  = withTransition (observe env st) (Some event).
Proof. rewrite observe_after_redirect. apply observe_before. Qed.

Lemma redirect_event_type origin redirect from st event' :
  outcome (makeRedirectEvent env origin redirect from st) = Done event' ->
  ev_type event' = Replace /\ ev_delta event' = 0 /\ ev_from event' = from.
Proof.
  destruct (makeRedirectEvent_spec env origin redirect from st)
    as (ev0 & n & to & Hm & -> & _).
  rewrite Hm. intros [= <-]. now repeat split.
Qed.

Lemma current_readable st event :
  readable env (withTransition (observe env st) (Some event)).
Proof. apply readable_withTransition. now apply observe_readable. Qed.

(** What the last three phases leave in the cell, for an engine without a
    host snapshot. *)
Lemma finish_state st st2 event skip :
  env_newNavigationState env = None ->
  wellFormed (observe env st) ->
  observe env st2 = withTransition (observe env st) (Some event) ->
  let r := finishTransition env (withTransition (observe env st) (Some event))
                            event skip st2 in
  (exists e to,
      skip = false
      /\ outcome r = Failed e
      /\ log r = [LCommit to event (Some e)]
      /\ observe env (final r) = observe env st2)
  \/ (exists to lga,
         outcome r = Done to
         /\ log r = (if skip then [] else [LCommit to event None])
                    ++ LStore (cell (final r)) :: lga
         /\ Forall isAfterItem lga
         /\ afterPolls lga
            = map (fun h => (nh_name h, announced event to)) (handlers st2)
         /\ mutation env (observe env st) (observe env (final r)) event to
         /\ (fits (observe env st) event -> wellFormed (observe env (final r)))).
Proof.
  intros Hnone Hwf Hobs. cbv zeta.
  destruct (finishTransition_plain env
              (withTransition (observe env st) (Some event)) event skip st2 Hnone)
    as (to & n & _ & [(w & e & Hs & ->) | (w & lga & -> & Hpolls & Hitems)]).
  - left. exists e, to. now repeat split.
  - right. exists to, lga. cbn [final log outcome].
    assert (observe env
              (withWorld
                 (withCell (withDrawn st2 n)
                    (cellTransform env
                       (mutated (withTransition (observe env st) (Some event))
                                event to))) w)
            = cellTransform env
                (mutated (withTransition (observe env st) (Some event))
                         event to)) as Hfinal.
    { unfold observe. cbn [cell withWorld withCell].
      now apply cellTransform_idem. }
    rewrite Hfinal.
    split; [reflexivity |]. split; [reflexivity |].
    split; [assumption |]. split; [assumption |]. split.
    + apply (mutated_mutation (env := env)
               (current := withTransition (observe env st) (Some event)));
        [assumption | exact Hwf | apply current_readable].
    + intros Hfits.
      apply (mutated_wellFormed (env := env)
               (current := withTransition (observe env st) (Some event)));
        [assumption | exact Hwf | apply current_readable | exact Hfits].
Qed.

End PathState.

Section PathOutcomes.

Variable W : Type.
Variable env : Env W.
Hypothesis Hvalid : validBound env.

Implicit Types st : Engine W.

Lemma wellFormed_current st event :
  wellFormed (observe env st) ->
  exists from,
    JsArray.get (entries (withTransition (observe env st) (Some event)))
                (index (withTransition (observe env st) (Some event)))
    = Some from
    /\ JsArray.get (entries (observe env st)) (index (observe env st))
       = Some from.
Proof.
  intros Hwf. destruct (get_in_range (entries (observe env st)) Hwf) as (x & Hx).
  exists x. now split.
Qed.

Lemma path_wellFormed fuel depth event skip st r :
  Path env fuel depth event skip st r ->
  env_newNavigationState env = None ->
  wellFormed (observe env st) ->
  fits (observe env st) event ->
  wellFormed (observe env (final r)).
Proof.
  intros H Hnone. path_cases H; intros Hwf Hfits; cbn [final].
  - assumption.
  - subst rb. now rewrite observe_before.
  - subst rb. now rewrite observe_before.
  - unfold observe. cbn [cell withCell]. subst stored.
    rewrite cellTransform_idem by assumption.
    rewrite cellTransform_withTransition.
    fold (observe env (final rb)).
    rewrite (@observe_readable _ env (final rb) Hvalid).
    subst rb. now rewrite observe_before.
  - apply IH.
    + subst rm rb. now rewrite observe_redirected.
    + intros Htype. subst rm.
      apply redirect_event_type in Hev. destruct Hev as (Hrep & _).
      congruence.
  - subst rf. rewrite (@observe_begun _ env st event Hvalid).
    assert (observe env (final rb)
            = withTransition (observe env st) (Some event)) as Hobs
        by (subst rb; now apply observe_before).
    destruct (@finish_state _ env Hvalid st (final rb) event false Hnone Hwf Hobs)
      as [(e & to & _ & _ & _ & ->) | (to & lga & _ & _ & _ & _ & _ & Hw)].
    + now rewrite Hobs.
    + now apply Hw.
  - subst rf. rewrite (@observe_begun _ env st event Hvalid).
    pose proof (@observe_begun _ env st event Hvalid) as Hobs.
    destruct (@finish_state _ env Hvalid st (begun env st event) event true
                Hnone Hwf Hobs)
      as [(e & to & Hs & _) | (to & lga & _ & _ & _ & _ & _ & Hw)].
    + discriminate.
    + now apply Hw.
Qed.

(** Every successful commit in the log of a run is followed by the
    mutation of the state for the committed event. *)
Lemma path_committed fuel depth event skip st r :
  Path env fuel depth event skip st r ->
  env_newNavigationState env = None ->
  wellFormed (observe env st) ->
  forall to event',
    In (to, event', None) (commits (log r))
    \/ (skip = true /\ event' = event /\ outcome r = Done to) ->
    mutation env (observe env st) (observe env (final r)) event' to.
Proof.
  intros H Hnone.
  path_cases H; intros Hwf to0 ev0 Hcommitted; cbn [final log outcome] in *.
  - destruct Hcommitted as [[] | (_ & _ & [=])].
  - destruct Hcommitted as [Hin | ([=] & _)].
    subst rb. rewrite <- (app_nil_r (log _)) in Hin.
    rewrite opening_commits in Hin by apply before_log. contradiction.
  - destruct Hcommitted as [Hin | ([=] & _)].
    subst rb. rewrite <- (app_nil_r (log _)) in Hin.
    rewrite opening_commits in Hin by apply before_log. contradiction.
  - destruct Hcommitted as [Hin | ([=] & _)].
    subst rb. rewrite opening_commits in Hin by apply before_log.
    contradiction.
  - destruct Hcommitted as [Hin | ([=] & _)].
    rewrite opening_commits in Hin by (subst rb; apply before_log).
    assert (observe env (final rm)
            = withTransition (observe env st) (Some event)) as Hobs
        by (subst rm rb; now apply observe_redirected).
    specialize (IH ltac:(now rewrite Hobs) to0 ev0 (or_introl Hin)).
    rewrite Hobs in IH. exact IH.
  - destruct Hcommitted as [Hin | ([=] & _)].
    rewrite opening_commits in Hin by (subst rb; apply before_log).
    subst rf. rewrite (@observe_begun _ env st event Hvalid) in *.
    assert (observe env (final rb)
            = withTransition (observe env st) (Some event)) as Hobs
        by (subst rb; now apply observe_before).
    destruct (@finish_state _ env Hvalid st (final rb) event false Hnone Hwf Hobs)
      as [(e & to & _ & _ & Hlog & _)
         | (to & lga & _ & Hlog & Hitems & _ & Hm & _)];
      rewrite Hlog in Hin.
    + destruct Hin as [[=] | []].
    + apply after_items_only in Hitems.
      destruct Hitems as (_ & Hc & _).
      unfold commits in Hin, Hc. simpl in Hin. rewrite Hc in Hin.
      destruct Hin as [[= <- <-] | []]. exact Hm.
  - subst rf. rewrite (@observe_begun _ env st event Hvalid) in *.
    pose proof (@observe_begun _ env st event Hvalid) as Hobs.
    destruct (@finish_state _ env Hvalid st (begun env st event) event true
                Hnone Hwf Hobs)
      as [(e & to & Hs & _) | (to & lga & Hout & Hlog & Hitems & _ & Hm & _)];
      [discriminate |].
    destruct Hcommitted as [Hin | (_ & -> & Hdone)].
    + rewrite Hlog in Hin. apply after_items_only in Hitems.
      destruct Hitems as (_ & Hc & _).
      unfold commits in Hin, Hc. simpl in Hin. rewrite Hc in Hin.
      contradiction.
    + rewrite Hout in Hdone. injection Hdone as <-. exact Hm.
Qed.

(** A handler that cancels, at a depth below 25, ends the operation with
    the current entry and the state as it was. *)
Lemma path_cancelled fuel depth event skip st r :
  Path env fuel depth event skip st r ->
  wellFormed (observe env st) ->
  In CancelNavigation (failures (log r)) ->
  (forall d e, In (d, e) (begins (log r)) -> (d < 25)%nat) ->
  exists from,
    JsArray.get (entries (observe env st)) (index (observe env st)) = Some from
    /\ outcome r = Done from
    /\ entries (observe env (final r)) = entries (observe env st)
    /\ index (observe env (final r)) = index (observe env st)
    /\ transition (observe env (final r)) = None.
Proof.
  intros H.
  path_cases H; intros Hwf Hcancel Hdepths; cbn [final log outcome] in *.
  - contradiction.
  - exfalso. subst rb. rewrite <- (app_nil_r (log _)) in Hdepths.
    rewrite opening_begins in Hdepths by apply before_log.
    specialize (Hdepths depth event (or_introl eq_refl)). lia.
  - exfalso. subst rb. rewrite observe_before in Hget by assumption.
    destruct (wellFormed_current st event Hwf) as (x & Hx & _). congruence.
  - exists from.
    assert (observe env (final rb)
            = withTransition (observe env st) (Some event)) as Hobs
        by (subst rb; now apply observe_before).
    rewrite Hobs in Hget.
    split; [exact Hget |]. split; [reflexivity |].
    assert (observe env (withCell (final rb) stored)
            = withTransition (observe env st) None) as ->.
    { unfold observe at 1. cbn [cell withCell]. subst stored. rewrite Hobs.
      rewrite cellTransform_idem by assumption.
      change (withTransition (withTransition (observe env st) (Some event)) None)
        with (withTransition (observe env st) None).
      apply readable_withTransition. now apply observe_readable. }
    now repeat split.
  - subst rm rb.
    rewrite opening_failures in Hcancel.
    rewrite opening_begins in Hdepths by apply before_log.
    rewrite (@before_failures _ env event (begun env st event) _ Hout)
      in Hcancel.
    destruct Hcancel as [[=] | Hcancel].
    pose proof (@observe_redirected _ env Hvalid st event event
                  (env_origin env) redirect from) as Hobs.
    destruct IH as (from' & Hfrom & Hdone & Hes & Hidx & Htr).
    + now rewrite Hobs.
    + exact Hcancel.
    + intros d e Hin. apply (Hdepths d e). now right.
    + rewrite Hobs in Hfrom, Hes, Hidx.
      exists from'. now repeat split.
  - exfalso. subst rf rb. rewrite opening_failures in Hcancel.
    rewrite (@before_failures _ env event (begun env st event) _ Hout)
      in Hcancel.
    now rewrite (proj1 (proj2 (finishTransition_summary env _ event false _)))
      in Hcancel.
  - exfalso. subst rf.
    change (LBegin depth event :: LStore ?c :: ?l)
      with (LBegin depth event :: LStore c :: [] ++ l) in Hcancel.
    rewrite opening_failures in Hcancel.
    now rewrite (proj1 (proj2 (finishTransition_summary env _ event true _)))
      in Hcancel.
Qed.

(** A run that began fewer than 26 - depth transitions did not meet the
    guard: it ends with a destination, unless the adapter's commit
    failed. *)
Lemma path_completes fuel depth event skip st r :
  Path env fuel depth event skip st r ->
  env_newNavigationState env = None ->
  wellFormed (observe env st) ->
  (0 < fuel)%nat -> (26 <= fuel + depth)%nat ->
  (length (begins (log r)) + depth < 26)%nat ->
  (exists d, outcome r = Done d)
  \/ (exists e to event',
         outcome r = Failed e /\ In (to, event', Some e) (commits (log r))).
Proof.
  intros H Hnone.
  path_cases H; intros Hwf Hpos Hfuel Hshort; cbn [final log outcome] in *.
  - lia.
  - exfalso. subst rb. rewrite <- (app_nil_r (log _)) in Hshort.
    rewrite opening_begins in Hshort by apply before_log.
    simpl in Hshort. lia.
  - exfalso. subst rb. rewrite observe_before in Hget by assumption.
    destruct (wellFormed_current st event Hwf) as (x & Hx & _). congruence.
  - left. now exists from.
  - subst rm rb.
    rewrite opening_begins in Hshort by apply before_log.
    rewrite opening_commits by apply before_log.
    simpl in Hshort.
    pose proof (@observe_redirected _ env Hvalid st event event
                  (env_origin env) redirect from) as Hobs.
    apply IH; try lia. now rewrite Hobs.
  - subst rf rb. rewrite opening_commits by apply before_log.
    rewrite (@observe_begun _ env st event Hvalid) in *.
    pose proof (@observe_before _ env Hvalid st event event) as Hobs.
    destruct (@finish_state _ env Hvalid st _ event false Hnone Hwf Hobs)
      as [(e & to & _ & Hout' & Hlog & _) | (to & lga & Hout' & _)].
    + right. exists e, to, event. rewrite Hlog. split; [exact Hout' |].
      now left.
    + left. now exists to.
  - subst rf. rewrite (@observe_begun _ env st event Hvalid) in *.
    pose proof (@observe_begun _ env st event Hvalid) as Hobs.
    destruct (@finish_state _ env Hvalid st (begun env st event) event true
                Hnone Hwf Hobs)
      as [(e & to & Hs & _) | (to & lga & Hout' & _)];
      [discriminate |].
    left. now exists to.
Qed.

(** The guard counts failures.  Every transition of a run but the last
    failed in its Before phase; the run dies on the guard exactly when the
    last one, begun at depth 25, failed too. *)
Lemma path_guard fuel depth event skip st r :
  Path env fuel depth event skip st r ->
  (length (failures (log r)) <= length (begins (log r)))%nat
  /\ ((depth <= 25)%nat ->
      (outcome r = Died loopMessage
       <-> (length (failures (log r)) + depth = 26)%nat)).
Proof.
  intros H. path_cases H; cbn [final log outcome].
  - split; [simpl; lia |]. intros Hd. split; [discriminate | simpl; lia].
  - subst rb. rewrite <- (app_nil_r (log _)).
    rewrite opening_failures, opening_begins by apply before_log.
    rewrite (@before_failures _ env event (begun env st event) _ Hout).
    simpl. split; [lia |]. intros Hd. split; [intros _; lia | reflexivity].
  - subst rb. rewrite <- (app_nil_r (log _)).
    rewrite opening_failures, opening_begins by apply before_log.
    rewrite (@before_failures _ env event (begun env st event) _ Hout).
    simpl. split; [lia |]. intros Hd. split; [discriminate | lia].
  - subst rb.
    rewrite opening_failures, opening_begins by apply before_log.
    rewrite (@before_failures _ env event (begun env st event) _ Hout).
    simpl. split; [lia |]. intros Hd. split; [discriminate | lia].
  - rewrite opening_failures.
    rewrite opening_begins by (subst rb; apply before_log).
    replace (failures (log rb)) with [Redirect redirect]
      by (subst rb; symmetry;
          exact (@before_failures _ env event (begun env st event) _ Hout)).
    destruct IH as (Hle & Hiff). simpl. split; [lia |].
    intros Hd. rewrite (Hiff ltac:(lia)). lia.
  - rewrite opening_failures.
    rewrite opening_begins by (subst rb; apply before_log).
    replace (failures (log rb)) with (@nil HandlerError)
      by (subst rb; symmetry;
          exact (@before_failures _ env event (begun env st event) _ Hout)).
    subst rf.
    destruct (finishTransition_summary env (observe env (begun env st event))
                event false (final rb)) as (_ & -> & _ & _ & _ & _ & Hnl & _).
    simpl. split; [lia |]. intros Hd. split; [intros Hx; congruence | lia].
  - change (LBegin depth event :: LStore ?c :: ?l)
      with (LBegin depth event :: LStore c :: [] ++ l).
    rewrite opening_failures, opening_begins by reflexivity.
    subst rf.
    destruct (finishTransition_summary env (observe env (begun env st event))
                event true (begun env st event))
      as (_ & -> & _ & _ & _ & _ & Hnl & _).
    simpl. split; [lia |]. intros Hd. split; [intros Hx; congruence | lia].
Qed.

(** A run with fewer than 26 - depth failures did not meet the guard: it
    ends with a destination, unless the adapter's commit failed. *)
Lemma path_unguarded fuel depth event skip st r :
  Path env fuel depth event skip st r ->
  env_newNavigationState env = None ->
  wellFormed (observe env st) ->
  (0 < fuel)%nat -> (26 <= fuel + depth)%nat ->
  (length (failures (log r)) + depth < 26)%nat ->
  (exists d, outcome r = Done d)
  \/ (exists e to event',
         outcome r = Failed e /\ In (to, event', Some e) (commits (log r))).
Proof.
  intros H Hnone.
  path_cases H; intros Hwf Hpos Hfuel Hshort; cbn [final log outcome] in *.
  - lia.
  - exfalso. subst rb. rewrite <- (app_nil_r (log _)) in Hshort.
    rewrite opening_failures in Hshort.
    rewrite (@before_failures _ env event (begun env st event) _ Hout)
      in Hshort.
    simpl in Hshort. lia.
  - exfalso. subst rb. rewrite observe_before in Hget by assumption.
    destruct (wellFormed_current st event Hwf) as (x & Hx & _). congruence.
  - left. now exists from.
  - subst rm rb.
    rewrite opening_failures in Hshort.
    rewrite (@before_failures _ env event (begun env st event) _ Hout)
      in Hshort.
    rewrite opening_commits by apply before_log.
    simpl in Hshort.
    pose proof (@observe_redirected _ env Hvalid st event event
                  (env_origin env) redirect from) as Hobs.
    apply IH; try lia. now rewrite Hobs.
  - subst rf rb. rewrite opening_commits by apply before_log.
    rewrite (@observe_begun _ env st event Hvalid) in *.
    pose proof (@observe_before _ env Hvalid st event event) as Hobs.
    destruct (@finish_state _ env Hvalid st _ event false Hnone Hwf Hobs)
      as [(e & to & _ & Hout' & Hlog & _) | (to & lga & Hout' & _)].
    + right. exists e, to, event. rewrite Hlog. split; [exact Hout' |].
      now left.
    + left. now exists to.
  - subst rf. rewrite (@observe_begun _ env st event Hvalid) in *.
    pose proof (@observe_begun _ env st event Hvalid) as Hobs.
    destruct (@finish_state _ env Hvalid st (begun env st event) event true
                Hnone Hwf Hobs)
      as [(e & to & Hs & _) | (to & lga & Hout' & _)];
      [discriminate |].
    left. now exists to.
Qed.

End PathOutcomes.

Section PathAfter.

Variable W : Type.
Variable env : Env W.
Hypothesis Hnone : env_newNavigationState env = None.

Implicit Types st : Engine W.

(** When a commit succeeded, the run answers with the committed destination
    and every after-handler was called once, in insertion order, with it. *)
Lemma path_after fuel depth event skip st r :
  Path env fuel depth event skip st r ->
  forall to event',
    In (to, event', None) (commits (log r)) ->
    outcome r = Done to
    /\ afterPolls (log r)
       = map (fun h => (nh_name h, announced event' to)) (handlers st).
Proof.
  intros H.
  path_cases H; intros to0 ev0 Hin; cbn [final log outcome] in *.
  - contradiction.
  - subst rb. rewrite <- (app_nil_r (log _)) in Hin.
    rewrite opening_commits in Hin by apply before_log. contradiction.
  - subst rb. rewrite <- (app_nil_r (log _)) in Hin.
    rewrite opening_commits in Hin by apply before_log. contradiction.
  - subst rb. rewrite opening_commits in Hin by apply before_log.
    contradiction.
  - rewrite opening_commits in Hin by (subst rb; apply before_log).
    rewrite opening_afterPolls by (subst rb; apply before_log).
    destruct (IH to0 ev0 Hin) as (Hdone & Hpolls).
    split; [exact Hdone |]. rewrite Hpolls. subst rm.
    destruct (redirect_registries env (env_origin env) redirect from (final rb))
      as (_ & -> & _).
    subst rb. now destruct (before_registries env event (begun env st event))
      as (_ & -> & _).
  - rewrite opening_commits in Hin by (subst rb; apply before_log).
    rewrite opening_afterPolls by (subst rb; apply before_log).
    subst rf.
    destruct (finishTransition_plain env (observe env (begun env st event))
                event false (final rb) Hnone)
      as (to & n & _ & [(w & e & _ & Hr) | (w & lga & Hr & Hpolls & Hitems)]);
      rewrite Hr in *; cbn [final log outcome] in *.
    + destruct Hin as [[=] | []].
    + pose proof (after_items_only Hitems) as (_ & Hc & _).
      unfold commits in Hin, Hc. simpl in Hin. rewrite Hc in Hin.
      destruct Hin as [[= <- <-] | []].
      split; [reflexivity |].
      unfold afterPolls in *. simpl. rewrite Hpolls.
      subst rb. now destruct (before_registries env event (begun env st event))
        as (_ & -> & _).
  - subst rf.
    destruct (finishTransition_plain env (observe env (begun env st event))
                event true (begun env st event) Hnone)
      as (to & n & _ & [(w & e & Hs & _) | (w & lga & Hr & Hpolls & Hitems)]);
      [discriminate |].
    rewrite Hr in *; cbn [final log outcome app] in *.
    pose proof (after_items_only Hitems) as (_ & Hc & _).
    unfold commits in Hin, Hc. simpl in Hin. rewrite Hc in Hin.
    contradiction.
Qed.

End PathAfter.

Section PathHost.

Variable W : Type.
Variable env : Env W.
Variable newNavigationState : W -> NavigationState.
Hypothesis Hhost : env_newNavigationState env = Some newNavigationState.

Implicit Types st : Engine W.

(** With a host snapshot the engine calls no after-handler: it takes the
    state from the host and answers. *)
Lemma finish_unannounced current event skip st :
  afterPolls (log (finishTransition env current event skip st)) = [].
Proof.
  destruct (finishTransition_host env current event skip st Hhost)
    as (to & n & w & [(e & _ & ->) | ->]); cbv zeta; cbn [log].
  - reflexivity.
  - destruct skip; reflexivity.
Qed.

Lemma path_unannounced fuel depth event skip st r :
  Path env fuel depth event skip st r ->
  afterPolls (log r) = [].
Proof.
  intros H. path_cases H; cbn [final log outcome].
  - reflexivity.
  - subst rb. rewrite <- (app_nil_r (log _)).
    now rewrite opening_afterPolls by apply before_log.
  - subst rb. rewrite <- (app_nil_r (log _)).
    now rewrite opening_afterPolls by apply before_log.
  - subst rb. now rewrite opening_afterPolls by apply before_log.
  - rewrite opening_afterPolls by (subst rb; apply before_log). exact IH.
  - rewrite opening_afterPolls by (subst rb; apply before_log).
    subst rf. apply finish_unannounced.
  - change (LBegin depth event :: LStore ?c :: ?l)
      with (LBegin depth event :: LStore c :: [] ++ l).
    rewrite opening_afterPolls by reflexivity.
    subst rf. apply finish_unannounced.
Qed.

End PathHost.

(** ** The operations *)

Ltac run_step H :=
  rewrite (@bind_run _ _ _ _ _ _ _ _ _ H); cbv beta;
  cbn [app final log outcome].

Lemma findIndexFrom_spec {A} (p : A -> bool) (l : list A) :
  forall i0,
    let i := JsArray.findIndexFrom p l i0 in
    i = -1
    \/ (i0 <= i < i0 + JsArray.len l
        /\ exists x, nth_error l (Z.to_nat (i - i0)) = Some x /\ p x = true).
Proof.
  induction l as [| x l IH]; intros i0; cbv zeta; simpl.
  - now left.
  - destruct (p x) eqn:Hp.
    + right. unfold JsArray.len. simpl length. split; [lia |].
      exists x. rewrite Z.sub_diag. now split.
    + destruct (IH (i0 + 1)) as [-> | ((Hlo & Hhi) & y & Hy & Hpy)];
        [now left |].
      destruct (Z.eq_dec (JsArray.findIndexFrom p l (i0 + 1)) (-1)) as [-> | Hne];
        [now left |].
      right. unfold JsArray.len in *. simpl length. split; [lia |].
      exists y. split; [| exact Hpy].
      replace (Z.to_nat (JsArray.findIndexFrom p l (i0 + 1) - i0))
        with (S (Z.to_nat (JsArray.findIndexFrom p l (i0 + 1) - (i0 + 1))))
        by lia.
      exact Hy.
Qed.

Lemma findIndex_spec {A} (p : A -> bool) (l : list A) :
  JsArray.findIndex p l = -1
  \/ (0 <= JsArray.findIndex p l < JsArray.len l
      /\ exists x, JsArray.get l (JsArray.findIndex p l) = Some x
                   /\ p x = true).
Proof.
  unfold JsArray.findIndex.
  destruct (findIndexFrom_spec p l 0) as [H | ((Hlo & Hhi) & x & Hx & Hp)];
    [now left |].
  cbv zeta in *. right. split; [lia |]. exists x. split; [| exact Hp].
  unfold JsArray.get. destruct (Z.ltb_spec (JsArray.findIndexFrom p l 0) 0);
    [lia |]. now rewrite Z.sub_0_r in Hx.
Qed.

Section Operations.

Variable W : Type.
Variable env : Env W.

Implicit Types st : Engine W.

(** An operation either stops before any transition (the current entry is
    missing, or there is nothing to do and it answers with the current
    entry), or hands an event to [runNavigationEvent] at depth 0. *)
Definition launched st (skip : bool) (r : Run W Destination) : Prop :=
  r = mkRun st [] (Died undefinedMessage)
  \/ (exists d,
         r = mkRun st [] (Done d)
         /\ JsArray.get (entries (observe env st)) (index (observe env st))
            = Some d)
  \/ (exists event n,
         r = runNavigationEvent env redirectFuel event 0 skip (withDrawn st n)
         /\ deltaRule event
         /\ fits (observe env st) event).

Lemma get_eq st : get env st = mkRun st [] (Done (observe env st)).
Proof. reflexivity. Qed.

Lemma orThrow_some {A} (a : A) st : orThrow (Some a) st = mkRun st [] (Done a).
Proof. reflexivity. Qed.

Lemma orThrow_none {A} st :
  orThrow (@None A) st = mkRun st [] (Died undefinedMessage).
Proof. reflexivity. Qed.

Lemma makeUuid_eq st :
  makeUuid env st
  = mkRun (withDrawn st (S (drawn st))) [] (Done (env_uuid env (drawn st))).
Proof. reflexivity. Qed.

Lemma withDrawn_same st : withDrawn st (drawn st) = st.
Proof. now destruct st. Qed.

Lemma makeOrUpdateDestination_spec s url state origin st current :
  JsArray.get (entries s) (index s) = Some current ->
  exists to n,
    makeOrUpdateDestination env s url state origin st
    = mkRun (withDrawn st n) [] (Done to)
    /\ d_url to = url
    /\ d_sameDocument to = String.eqb (url_origin url) origin
    /\ if String.eqb (url_origin url) (url_origin (d_url current))
          && String.eqb (url_pathname url) (url_pathname (d_url current))
       then d_key to = d_key current
            /\ d_id to = env_uuid env (drawn st)
            /\ d_state to = getOriginalState state
            /\ n = S (drawn st)
       else match state with
            | JsMarked marker_id marker_key marker_state =>
                d_id to = marker_id /\ d_key to = marker_key
                /\ d_state to = marker_state /\ n = drawn st
            | _ =>
                d_id to = env_uuid env (drawn st)
                /\ d_key to = env_uuid env (S (drawn st))
                /\ d_state to = state /\ n = S (S (drawn st))
            end.
Proof.
  intros Hcur. unfold makeOrUpdateDestination. rewrite Hcur.
  run_step (orThrow_some current st).
  destruct (String.eqb (url_origin url) (url_origin (d_url current))
            && String.eqb (url_pathname url) (url_pathname (d_url current))).
  - eexists; exists (S (drawn st)). split; [reflexivity |].
    cbn. now repeat split.
  - destruct (makeDestination_spec env url state origin st)
      as (d & n & Hrun & Hurl & Hsame & Hids).
    exists d, n. rewrite Hrun. now repeat split.
Qed.

(** The type [navigate] gives the event, from the option and the two keys. *)
Definition navigateType (o : NavigateOptions) (from to : Destination)
  : NavigationType :=
  match (match opt_history o with Some h => h | None => HistoryAuto end) with
  | HistoryAuto => if String.eqb (d_key from) (d_key to) then Replace else Push
  | HistoryReplace => Replace
  | HistoryPush => Push
  end.

Lemma navigateEvent_spec p o st :
  (JsArray.get (entries (observe env st)) (index (observe env st)) = None
   /\ navigateEvent env p o st = mkRun st [] (Died undefinedMessage))
  \/ (exists from to n,
         JsArray.get (entries (observe env st)) (index (observe env st))
         = Some from
         /\ makeOrUpdateDestination env (observe env st)
              (getUrl env (env_origin env) p) (opt_state o) (env_origin env) st
            = mkRun (withDrawn st n) [] (Done to)
         /\ navigateEvent env p o st
            = mkRun (withDrawn st n) []
                (Done {| ev_type := navigateType o from to;
                         ev_from := from;
                         ev_to := Materialized to;
                         ev_delta := if type_eqb (navigateType o from to) Replace
                                     then 0 else 1;
                         ev_info := opt_info o |})).
Proof.
  unfold navigateEvent.
  run_step (get_eq st).
  destruct (JsArray.get (entries (observe env st)) (index (observe env st)))
    as [from |] eqn:Hfrom.
  - right.
    run_step (orThrow_some from st).
    destruct (makeOrUpdateDestination_spec (observe env st)
                (getUrl env (env_origin env) p) (opt_state o) (env_origin env)
                st Hfrom) as (to & n & Hrun & _).
    exists from, to, n. split; [reflexivity |]. split; [exact Hrun |].
    run_step Hrun. reflexivity.
  - left. split; reflexivity.
Qed.

Lemma navigate_launched p o skip st :
  launched st skip (navigate env p o skip st).
Proof.
  unfold navigate.
  destruct (navigateEvent_spec p o st)
    as [(_ & Hrun) | (from & to & n & _ & _ & Hrun)].
  - left. unfold bind. rewrite Hrun. reflexivity.
  - run_step Hrun. rewrite run_eta.
    right. right. eexists; exists n. split; [reflexivity |].
    unfold deltaRule, fits, navigateType. cbn [ev_type ev_delta].
    destruct (match opt_history o with Some h => h | None => HistoryAuto end);
      try destruct (String.eqb (d_key from) (d_key to));
      split; try reflexivity; discriminate.
Qed.

Lemma traverseTo_launched key info skip st :
  launched st skip (traverseTo env key info skip st).
Proof.
  unfold traverseTo.
  run_step (get_eq st).
  destruct (JsArray.get (entries (observe env st)) (index (observe env st)))
    as [from |] eqn:Hfrom.
  - run_step (orThrow_some from st).
    destruct (findIndex_spec (fun e => String.eqb (d_key e) key)
                (entries (observe env st)))
      as [-> | ((Hlo & Hhi) & target & Htarget & _)].
    + cbn. right. left. exists from. now split.
    + destruct (Z.eqb_spec
                  (JsArray.findIndex (fun e => String.eqb (d_key e) key)
                     (entries (observe env st))) (-1)) as [Heq | _]; [lia |].
      run_step (makeUuid_eq st).
      change (observe env (withDrawn st (S (drawn st)))) with (observe env st).
      rewrite Htarget.
      run_step (orThrow_some target (withDrawn st (S (drawn st)))).
      rewrite run_eta.
      right. right. eexists; exists (S (drawn st)). split; [reflexivity |].
      split; [exact I |].
      unfold fits. cbn [ev_type ev_delta]. intros _. lia.
  - left. reflexivity.
Qed.

Lemma back_launched info skip st :
  launched st skip (back env info skip st).
Proof.
  unfold back. run_step (get_eq st).
  destruct (index (observe env st) =? 0).
  - destruct (JsArray.get (entries (observe env st)) (index (observe env st)))
      as [d |] eqn:Hd.
    + right. left. exists d. now split.
    + now left.
  - destruct (JsArray.get (entries (observe env st))
                          (index (observe env st) - 1)) as [previous |].
    + run_step (orThrow_some previous st). rewrite run_eta.
      apply traverseTo_launched.
    + left. reflexivity.
Qed.

Lemma forward_launched info skip st :
  launched st skip (forward env info skip st).
Proof.
  unfold forward. run_step (get_eq st).
  destruct (index (observe env st) =? JsArray.len (entries (observe env st)) - 1).
  - destruct (JsArray.get (entries (observe env st)) (index (observe env st)))
      as [d |] eqn:Hd.
    + right. left. exists d. now split.
    + now left.
  - destruct (JsArray.get (entries (observe env st))
                          (index (observe env st) + 1)) as [next |].
    + run_step (orThrow_some next st). rewrite run_eta.
      apply traverseTo_launched.
    + left. reflexivity.
Qed.

Lemma reload_launched info skip st :
  launched st skip (reload env info skip st).
Proof.
  unfold reload. run_step (get_eq st).
  destruct (JsArray.get (entries (observe env st)) (index (observe env st)))
    as [current |].
  - run_step (orThrow_some current st). rewrite run_eta.
    right. right. eexists; exists (drawn st). rewrite withDrawn_same.
    split; [reflexivity |]. split; [reflexivity | discriminate].
  - left. reflexivity.
Qed.

Lemma updateCurrentEntry_launched state st :
  launched st false (updateCurrentEntry env state st).
Proof.
  unfold updateCurrentEntry. run_step (get_eq st).
  destruct (JsArray.get (entries (observe env st)) (index (observe env st)))
    as [current |].
  - run_step (orThrow_some current st). rewrite run_eta.
    right. right. eexists; exists (drawn st). rewrite withDrawn_same.
    split; [reflexivity |]. split; [reflexivity | discriminate].
  - left. reflexivity.
Qed.

Lemma request_launched q st :
  launched st (skips q) (request env q st).
Proof.
  destruct q; simpl.
  - apply navigate_launched.
  - apply back_launched.
  - apply forward_launched.
  - apply traverseTo_launched.
  - apply reload_launched.
  - apply updateCurrentEntry_launched.
Qed.

(** With [skipCommit] the run is the first statement followed by the last
    three phases. *)
Lemma runNavigationEvent_skip_eq fuel event depth st :
  let rf := finishTransition env (observe env (begun env st event)) event true
                             (begun env st event) in
  runNavigationEvent env (S fuel) event depth true st
  = mkRun (final rf)
          (LBegin depth event :: LStore (cell (begun env st event)) :: log rf)
          (outcome rf).
Proof.
  cbv zeta. rewrite runNavigationEvent_S.
  run_step (beginTransition_eq env event depth st).
  run_step (eq_refl : ret (@None HandlerError) (begun env st event)
                      = mkRun (begun env st event) [] (Done None)).
  reflexivity.
Qed.

(** The Before phase starts with the handler registered first. *)
Lemma runBeforeHandlers_first event st h rest :
  beforeHandlers st = h :: rest ->
  exists answer more,
    log (runBeforeHandlers env event st)
    = LBefore (bh_name h) event answer :: more.
Proof.
  intros Hhs.
  destruct (runBeforeHandlers_spec env event st)
    as (polls & runs & w & _ & Hlog & Hcases).
  cbv zeta in *. rewrite Hhs in Hcases.
  assert (exists a polls', polls = (bh_name h, a) :: polls') as (a & polls' & ->).
  { destruct Hcases as [(done & n & e & Hp & _ & Hnames & _) | (Hnames & _)].
    - destruct polls as [| [n0 a0] polls'].
      + now destruct done.
      + simpl in Hnames. injection Hnames as -> _. now exists a0, polls'.
    - destruct polls as [| [n0 a0] polls']; [discriminate |].
      simpl in Hnames. injection Hnames as -> _. now exists a0, polls'. }
  rewrite Hlog. simpl. now eexists; eexists.
Qed.

Lemma runNavigationEvent_opening fuel event depth st h rest :
  beforeHandlers st = h :: rest ->
  exists answer more,
    log (runNavigationEvent env (S fuel) event depth false st)
    = LBegin depth event :: LStore (cell (begun env st event))
      :: LBefore (bh_name h) event answer :: more.
Proof.
  intros Hhs.
  destruct (runBeforeHandlers_first event (begun env st event) Hhs)
    as (answer & more & Hfirst).
  destruct (runBeforeHandlers_summary env event (begun env st event))
    as (w & a & _ & Hout & _).
  cbv zeta in Hout.
  rewrite runNavigationEvent_S.
  run_step (beginTransition_eq env event depth st).
  unfold bind at 1. rewrite Hout. cbn [final log outcome app].
  rewrite Hfirst. simpl. now eexists; eexists.
Qed.

End Operations.

(** * Part III: the contract of the engine *)

(** ** The state cell *)

Lemma clampNavigationState_idempotent_witness :
  1 <= 3
  /\ clampNavigationState 3 (clampNavigationState 3 (cell Scenario.start))
     = clampNavigationState 3 (cell Scenario.start).
Proof.
  split; [lia |].
  apply (proj1 (@clampNavigationState_idempotent 3 (cell Scenario.start)
                  ltac:(lia))).
Defined.

(** ** The Mutate phase *)

(** C1: in an engine without a host snapshot, every transition that is
    committed (the adapter's commit succeeded for it, or the run skipped
    the commit) leaves the cell as the type of the committed event says.
    Push: the entries after the old index are dropped and the target is
    appended, the bound keeps the last entries of that, and the target is
    the current entry.  Replace: the same number of entries, the same
    index, only the entry at the index changed.  Reload: the same entries
    and index.  Traverse: the same entries, and the index moved by delta
    when that is the index of an entry, as for every event [traverseTo]
    builds.  The transition is cleared in all four. *)
Theorem runNavigationEvent_mutates (W : Type) (env : Env W) (fuel depth : nat)
  (event : TransitionEvent) (skip : bool) (st : Engine W)
  (to : Destination) (committed : TransitionEvent) :
  validBound env ->
  env_newNavigationState env = None ->
  wellFormed (observe env st) ->
  let r := runNavigationEvent env fuel event depth skip st in
  let old := observe env st in
  let new := observe env (final r) in
  In (to, committed, None) (commits (log r))
  \/ (skip = true /\ committed = event /\ outcome r = Done to) ->
  transition new = None
  /\ match ev_type committed with
     | Push =>
         let grown := firstn (Z.to_nat (index old + 1)) (entries old) ++ [to] in
         (exists evicted, grown = evicted ++ entries new)
         /\ JsArray.len (entries new)
            = match env_maxEntries env with
              | Some maxEntries => Z.min (index old + 2) maxEntries
              | None => index old + 2
              end
         /\ index new = JsArray.len (entries new) - 1
         /\ JsArray.get (entries new) (index new) = Some to
     | Replace =>
         JsArray.len (entries new) = JsArray.len (entries old)
         /\ index new = index old
         /\ JsArray.get (entries new) (index old) = Some to
         /\ (forall i, i <> index old ->
                       JsArray.get (entries new) i = JsArray.get (entries old) i)
     | Reload =>
         entries new = entries old /\ index new = index old
     | Traverse =>
         entries new = entries old
         /\ (0 <= index old + ev_delta committed < JsArray.len (entries old) ->
             index new = index old + ev_delta committed)
     end.
Proof.
  intros Hvalid Hnone Hwf r old new Hcommitted.
  exact (path_committed Hvalid (runNavigationEvent_path env fuel depth event
                                  skip st) Hnone Hwf Hcommitted).
Qed.

Lemma runNavigationEvent_mutates_witness :
  let r := runNavigationEvent Scenario.env 1 Scenario.toSecond 0 false
                              Scenario.start in
  validBound Scenario.env
  /\ wellFormed (observe Scenario.env Scenario.start)
  /\ mutation Scenario.env (observe Scenario.env Scenario.start)
              (observe Scenario.env (final r)) Scenario.toSecond
              {| d_id := Scenario.uuid 2; d_key := Scenario.uuid 3;
                 d_url := Scenario.page "/foo/2";
                 d_state := JsUndefined;
                 d_sameDocument := true |}.
Proof.
  assert (validBound Scenario.env) as Hv by (unfold validBound; simpl; lia).
  assert (wellFormed (observe Scenario.env Scenario.start)) as Hw
      by (split; vm_compute; [discriminate | reflexivity]).
  split; [exact Hv |]. split; [exact Hw |].
  apply (@runNavigationEvent_mutates Z Scenario.env 1 0 Scenario.toSecond false
           Scenario.start _ Scenario.toSecond Hv eq_refl Hw).
  left. vm_compute. left. reflexivity.
Defined.

(** The first transition a run begins is the one it was called with. *)
Lemma path_first_begin (W : Type) (env : Env W) fuel depth event skip
  (st : Engine W) r :
  Path env fuel depth event skip st r ->
  fuel = 0%nat \/ exists rest, begins (log r) = (depth, event) :: rest.
Proof.
  intros H. path_cases H; [now left | right ..]; cbn [log].
  - subst rb. rewrite <- (app_nil_r (log _)).
    rewrite opening_begins by apply before_log. now eexists.
  - subst rb. rewrite <- (app_nil_r (log _)).
    rewrite opening_begins by apply before_log. now eexists.
  - subst rb. rewrite opening_begins by apply before_log. now eexists.
  - subst rb. rewrite opening_begins by apply before_log. now eexists.
  - subst rb. rewrite opening_begins by apply before_log. now eexists.
  - change (LBegin depth event :: LStore ?c :: ?l)
      with (LBegin depth event :: LStore c :: [] ++ l).
    rewrite opening_begins by reflexivity. now eexists.
Qed.

(** Every request hands [runNavigationEvent] an event that fits the
    state: the delta of a traverse event is the distance to an entry. *)
Lemma request_fits (W : Type) (env : Env W) (q : Request) (st : Engine W) :
  forall d e,
    In (d, e) (firstn 1 (begins (log (request env q st)))) ->
    fits (observe env st) e.
Proof.
  intros d e.
  destruct (request_launched env q st)
    as [Hr | [(x & Hr & _) | (event & n & Hr & _ & Hfits)]];
    rewrite Hr; intros Hin; [contradiction | contradiction |].
  destruct (path_first_begin
              (runNavigationEvent_path env redirectFuel 0 event (skips q)
                 (withDrawn st n))) as [Hfuel | (rest & Hfirst)];
    [discriminate |].
  rewrite Hfirst in Hin. destruct Hin as [[= <- <-] | []]. exact Hfits.
Qed.

(** ** The invariant of the memory engine *)

Lemma memory_env (W : Type) uuid newURL (options : MemoryOptions W) env :
  memory uuid newURL options = MemoryReady env ->
  exists maxEntries,
    JsNumber.toIntegerOrInfinity (setupMemoryBound options) = inl maxEntries
    /\ env_maxEntries env = Some maxEntries
    /\ env_newNavigationState env = None.
Proof.
  unfold memory.
  destruct (match mo_origin options with
            | Some o => Some o
            | None => _
            end); [| discriminate].
  destruct (JsNumber.toIntegerOrInfinity (setupMemoryBound options))
    as [maxEntries | negative]; [| discriminate].
  intros [= <-]. now exists maxEntries.
Qed.

(** There is an engine exactly when the index given is an integer, or
    missing. *)
Lemma memoryEngine_integer (W : Type) (options : MemoryOptions W) drawn0 w0 :
  (exists start, memoryEngine options drawn0 w0 = Some start)
  <-> (mo_currentIndex options = None
       \/ exists x i, mo_currentIndex options = Some x
                      /\ JsNumber.asInteger x = Some i).
Proof.
  unfold memoryEngine, checked, setupMemoryState.
  cbn [Unchecked.index Unchecked.entries Unchecked.transition].
  destruct (mo_currentIndex options) as [x |]; cbn [orElse].
  - destruct (JsNumber.asInteger x) as [i |] eqn:Hx; cbn [option_map]; split.
    + intros _. right. now exists x, i.
    + intros _. now eexists.
    + intros (start & Hstart). discriminate.
    + intros [H | (y & i & [= <-] & Hi)]; congruence.
  - split; [now left |]. intros _.
    unfold JsNumber.ofZ, JsNumber.asInteger. rewrite Z.mod_1_r.
    cbn [Z.eqb option_map]. now eexists.
Qed.

(** The state the integer model reads first is the state the code reads
    first. *)
Lemma memory_first_read (W : Type) uuid newURL (options : MemoryOptions W) env
  drawn0 w0 start :
  memory uuid newURL options = MemoryReady env ->
  memoryEngine options drawn0 w0 = Some start ->
  checked (memoryStart options) = Some (observe env start).
Proof.
  intros Hmemory Hstart.
  destruct (memory_env _ _ _ Hmemory) as (maxEntries & Hbound & Hmax & _).
  unfold memoryEngine in Hstart.
  destruct (checked (setupMemoryState options)) as [s |] eqn:Hs;
    [| discriminate].
  injection Hstart as <-.
  unfold observe, cellTransform. rewrite Hmax. cbn [cell].
  now apply clamp_integers.
Qed.

Lemma perform_wellFormed (W : Type) (env : Env W) op (st : Engine W) :
  validBound env ->
  env_newNavigationState env = None ->
  wellFormed (observe env st) ->
  wellFormed (observe env (perform env op st)).
Proof.
  intros Hvalid Hnone Hwf. destruct op as [q | h | h]; simpl;
    [| exact Hwf | exact Hwf].
  destruct (request_launched env q st)
    as [-> | [(x & -> & _) | (event & n & -> & _ & Hfits)]];
    [exact Hwf | exact Hwf |].
  apply (path_wellFormed Hvalid (runNavigationEvent_path env redirectFuel 0
                                   event (skips q) (withDrawn st n)) Hnone);
    assumption.
Qed.

(** C2, as the code has it: in a memory engine set up with at least one
    entry, an index that is an integer (or missing) and a bound that is a
    finite number of at least 1, every state read from the cell after any
    sequence of operations has its index on an entry and no more entries
    than the bound (than the bound truncated, when it is a fraction).
    [maxEntries] is the bound truncated, which is at least 1 exactly when
    the bound is. *)
Theorem memory_invariant (W : Type) (uuid : nat -> Uuid)
  (newURL : string -> string -> URL) (options : MemoryOptions W) (env : Env W)
  (drawn0 : nat) (w0 : W) (start st : Engine W) (maxEntries : Z) :
  memory uuid newURL options = MemoryReady env ->
  memoryEngine options drawn0 w0 = Some start ->
  mo_entries options <> [] ->
  JsNumber.toIntegerOrInfinity (setupMemoryBound options) = inl maxEntries ->
  1 <= maxEntries ->
  reachable env start st ->
  let s := observe env st in
  0 <= index s < JsArray.len (entries s)
  /\ JsArray.len (entries s) <= maxEntries.
Proof.
  intros Hmemory Hstart Hentries Hbound Hone Hreach.
  destruct (memory_env _ _ _ Hmemory) as (n & Hn & Hmax & Hnone).
  rewrite Hbound in Hn. injection Hn as <-.
  assert (validBound env) as Hvalid by (unfold validBound; now rewrite Hmax).
  cbv zeta. split.
  - change (wellFormed (observe env st)).
    induction Hreach as [| st op _ IH].
    + unfold observe, cellTransform. rewrite Hmax.
      apply clamp_wellFormed; [exact Hone |].
      unfold memoryEngine in Hstart.
      destruct (checked (setupMemoryState options)) as [s |] eqn:Hs;
        [| discriminate].
      injection Hstart as <-. cbn [cell].
      unfold checked, setupMemoryState in Hs.
      cbn [Unchecked.index Unchecked.entries Unchecked.transition] in Hs.
      destruct (JsNumber.asInteger _); [| discriminate].
      now injection Hs as <-.
    + now apply perform_wellFormed.
  - apply (readable_bounded (env := env)); [exact Hmax | exact Hone |].
    now apply observe_readable.
Qed.

Lemma memory_invariant_witness :
  let st := perform Scenario.env
              (@OpRequest Z (ReqNavigate (inl "/foo/2"%string) Scenario.plain false))
              Scenario.start in
  let s := observe Scenario.env st in
  0 <= index s < JsArray.len (entries s) /\ JsArray.len (entries s) <= 3.
Proof.
  apply (@memory_invariant Z Scenario.uuid Scenario.newURL Scenario.options
           Scenario.env 2 0 Scenario.start).
  - reflexivity.
  - reflexivity.
  - discriminate.
  - reflexivity.
  - lia.
  - apply reachable_step. apply reachable_start.
Defined.

(** C2 as stated fails for a bound of 0: [slice(-0)] keeps every entry, so
    the one entry of [initialMemory({ url, maxEntries: 0 })] is already more
    than the bound. *)
Lemma memory_invariant_counterexample :
  memory Scenario.uuid Scenario.newURL Scenario.optionsZero
  = MemoryReady Scenario.envZero
  /\ memoryEngine Scenario.optionsZero 2 0 = Some Scenario.start
  /\ JsNumber.toIntegerOrInfinity (setupMemoryBound Scenario.optionsZero)
     = inl 0
  /\ reachable Scenario.envZero Scenario.start Scenario.start
  /\ ~ (JsArray.len (entries (observe Scenario.envZero Scenario.start)) <= 0).
Proof.
  split; [reflexivity |]. split; [reflexivity |]. split; [reflexivity |].
  split; [apply reachable_start |].
  vm_compute. intros H. now apply H.
Qed.

(** The other preconditions.  Without entries the index read from the cell
    is -1. *)
Lemma memory_without_entries :
  exists env start,
    memory Scenario.uuid Scenario.newURL Scenario.optionsEmpty
    = MemoryReady env
    /\ memoryEngine Scenario.optionsEmpty 0 0 = Some start
    /\ index (observe env start) = -1.
Proof. eexists. eexists. split; [| split]; reflexivity. Qed.

(** With an index that is not a number the index read from the cell is not
    a number either, however many entries there are: [Math.max] and
    [Math.min] answer NaN for NaN. *)
Lemma memory_index_NaN (W : Type) (options : MemoryOptions W) :
  mo_currentIndex options = Some JsNumber.NaN ->
  Unchecked.index (memoryStart options) = JsNumber.NaN
  /\ JsNumber.get (Unchecked.entries (memoryStart options))
                  (Unchecked.index (memoryStart options)) = None
  /\ forall drawn0 w0, memoryEngine options drawn0 w0 = None.
Proof.
  intros Hindex.
  unfold memoryStart, Unchecked.clampNavigationState, setupMemoryState,
    memoryEngine, checked.
  cbn [Unchecked.index Unchecked.entries Unchecked.transition].
  rewrite Hindex. cbn [orElse JsNumber.max0 JsNumber.minInt].
  split; [reflexivity |]. split; [reflexivity |].
  intros drawn0 w0. unfold setupMemoryState.
  cbn [Unchecked.index]. now rewrite Hindex.
Qed.

(** ** Cancelling *)

(** C4, as the code has it: when a before-handler, or the deferred effect of
    one, fails with [CancelNavigation] in a transition of depth below 25,
    the request succeeds with the current entry, the entries and the index
    read from the cell are what they were before the request, and the
    transition is cleared. *)
Theorem cancel_restores (W : Type) (env : Env W) (q : Request) (st : Engine W) :
  validBound env ->
  wellFormed (observe env st) ->
  let r := request env q st in
  In CancelNavigation (failures (log r)) ->
  (forall d e, In (d, e) (begins (log r)) -> (d < 25)%nat) ->
  exists from,
    JsArray.get (entries (observe env st)) (index (observe env st)) = Some from
    /\ outcome r = Done from
    /\ entries (observe env (final r)) = entries (observe env st)
    /\ index (observe env (final r)) = index (observe env st)
    /\ transition (observe env (final r)) = None.
Proof.
  intros Hvalid Hwf r. subst r.
  destruct (request_launched env q st)
    as [-> | [(x & -> & _) | (event & n & -> & _ & _)]];
    [intros [] | intros [] |].
  intros Hcancel Hdepths.
  exact (path_cancelled Hvalid
           (runNavigationEvent_path env redirectFuel 0 event (skips q)
              (withDrawn st n)) Hwf Hcancel Hdepths).
Qed.

Lemma cancel_restores_witness :
  let r := request Scenario.env
             (ReqNavigate (inl "/next"%string) Scenario.plain false)
             (Scenario.withBefore Scenario.refusing) in
  outcome r = Done Scenario.first
  /\ entries (observe Scenario.env (final r)) = [Scenario.first]
  /\ index (observe Scenario.env (final r)) = 0
  /\ transition (observe Scenario.env (final r)) = None.
Proof.
  destruct (@cancel_restores Z Scenario.env
              (ReqNavigate (inl "/next"%string) Scenario.plain false)
              (Scenario.withBefore Scenario.refusing))
    as (from & Hfrom & Hdone & Hentries & Hindex & Htransition).
  - unfold validBound. simpl. lia.
  - split; vm_compute; [discriminate | reflexivity].
  - vm_compute. left. reflexivity.
  - vm_compute. intros d e [[= <- _] | []]. lia.
  - vm_compute in Hfrom. injection Hfrom as <-.
    repeat split; assumption.
Defined.

(** C4 as stated fails at depth 25: a handler that redirects 25 times and
    then cancels makes [handleError] die on its depth guard; nothing is
    returned and the transition stays in the cell. *)
Lemma cancel_restores_counterexample :
  let r := request Scenario.env
             (ReqNavigate (inl "/next"%string) Scenario.plain false)
             (Scenario.withBefore Scenario.stubborn) in
  In CancelNavigation (failures (log r))
  /\ outcome r = Died loopMessage
  /\ transition (observe Scenario.env (final r)) <> None.
Proof.
  split; [| split].
  - vm_compute. do 25 right. left. reflexivity.
  - vm_compute. reflexivity.
  - vm_compute. discriminate.
Qed.

(** ** Termination *)

(** C6, as the code has it: the recursion of [runNavigationEvent] through
    [handleError] ends.  With one unit of fuel per depth up to 25, as every
    request gives it, a run never runs out of fuel.  The transitions of a
    run are begun at consecutive depths, one more per redirect, and every
    transition but the last failed in its Before phase.  The guard sits in
    [handleError]: at a depth of 25 or more it dies with the message of the
    guard, whatever the error.  So a run dies on the guard exactly when a
    Before phase fails in the transition begun at depth 25, which is the
    26th failure of a run from depth 0; to reach depth 25 is not enough.  A
    run with fewer failures ends with a destination, unless the adapter's
    commit failed. *)
Theorem runNavigationEvent_terminates (W : Type) (env : Env W)
  (fuel depth : nat) (event : TransitionEvent) (skip : bool) (st : Engine W) :
  let r := runNavigationEvent env fuel event depth skip st in
  ((0 < fuel)%nat -> (26 <= fuel + depth)%nat -> outcome r <> Diverged)
  /\ (forall q, outcome (request env q st) <> Diverged)
  /\ (forall error,
        (25 <= depth)%nat ->
        handleError env fuel error depth st = mkRun st [] (Died loopMessage))
  /\ map fst (begins (log r)) = seq depth (length (begins (log r)))
  /\ (length (failures (log r)) <= length (begins (log r)))%nat
  /\ (outcome r = Died loopMessage ->
      (depth <= 25)%nat ->
      (length (begins (log r)) + depth = 26)%nat)
  /\ ((depth <= 25)%nat ->
      (outcome r = Died loopMessage
       <-> (length (failures (log r)) + depth = 26)%nat))
  /\ (validBound env ->
      env_newNavigationState env = None ->
      wellFormed (observe env st) ->
      (0 < fuel)%nat -> (26 <= fuel + depth)%nat ->
      (length (failures (log r)) + depth < 26)%nat ->
      (exists d, outcome r = Done d)
      \/ (exists e to event',
             outcome r = Failed e
             /\ In (to, event', Some e) (commits (log r)))).
Proof.
  pose proof (runNavigationEvent_path env fuel depth event skip st) as Hpath.
  cbv zeta.
  split; [| split; [| split; [| split; [| split; [| split; [| split]]]]]].
  - now apply (path_no_divergence Hpath).
  - intros q.
    destruct (request_launched env q st)
      as [-> | [(x & -> & _) | (ev & n & -> & _)]]; try discriminate.
    apply (path_no_divergence
             (runNavigationEvent_path env redirectFuel 0 ev (skips q)
                (withDrawn st n))); unfold redirectFuel; lia.
  - intros error Hdeep. now apply handleError_loop.
  - now apply (path_depths Hpath).
  - now apply (path_guard Hpath).
  - now apply (path_loop_depth Hpath).
  - now apply (path_guard Hpath).
  - intros Hvalid Hnone Hwf Hpos Hfuel Hshort.
    now apply (path_unguarded Hvalid Hpath).
Qed.

Lemma runNavigationEvent_terminates_witness :
  let r := runNavigationEvent Scenario.env redirectFuel Scenario.toSecond 0
             false (Scenario.withBefore Scenario.detour) in
  outcome r <> Diverged
  /\ map fst (begins (log r)) = [0%nat; 1%nat]
  /\ ((exists d, outcome r = Done d)
      \/ (exists e to event',
             outcome r = Failed e
             /\ In (to, event', Some e) (commits (log r)))).
Proof.
  destruct (@runNavigationEvent_terminates Z Scenario.env redirectFuel 0
              Scenario.toSecond false (Scenario.withBefore Scenario.detour))
    as (Hdiverge & _ & _ & Hdepths & _ & _ & _ & Hcompletes).
  split; [| split].
  - apply Hdiverge; unfold redirectFuel; lia.
  - rewrite Hdepths. vm_compute. reflexivity.
  - apply Hcompletes.
    + unfold validBound. simpl. lia.
    + reflexivity.
    + split; vm_compute; [discriminate | reflexivity].
    + unfold redirectFuel. lia.
    + unfold redirectFuel. lia.
    + vm_compute. lia.
Defined.

(** C6 as stated fails at depth 25: the engine does not abort as soon as
    the depth is 25.  After the 25 redirects of a handler that then lets
    the transition pass, the 26th transition is begun at depth 25, polled
    and committed, and the operation answers with its destination. *)
Lemma runNavigationEvent_terminates_counterexample :
  let r := request Scenario.env
             (ReqNavigate (inl "/next"%string) Scenario.plain false)
             (Scenario.withBefore Scenario.patient) in
  failures (log r) = repeat (Redirect Scenario.toLoop) 25
  /\ map fst (begins (log r)) = seq 0 26
  /\ In 25%nat (map fst (begins (log r)))
  /\ length (beforePolls (log r)) = 26%nat
  /\ length (commits (log r)) = 1%nat
  /\ (exists d, outcome r = Done d /\ url_pathname (d_url d) = "/loop"%string)
  /\ outcome r <> Died loopMessage.
Proof.
  split; [vm_compute; reflexivity |]. split; [vm_compute; reflexivity |].
  split; [vm_compute; tauto |]. split; [vm_compute; reflexivity |].
  split; [vm_compute; reflexivity |]. split.
  - eexists. split; vm_compute; reflexivity.
  - vm_compute. discriminate.
Qed.

(** ** Redirecting *)

(** C5, as the code has it: when the Before phase of a transition of depth
    below 25 fails with a redirect, the engine builds a replace event from
    the current entry to the destination [makeDestination] makes for the
    redirect's path and state, with delta 0, and runs [runNavigationEvent]
    with it one level deeper: the first handler is polled again, with the
    new event.  In an engine without a host snapshot (the memory and the
    history adapters), whenever the run commits it answers with the
    committed destination and every after-handler was called exactly once,
    with that destination.  In an engine with a host snapshot (the
    platform Navigation API) the engine itself calls no after-handler. *)
Theorem redirect_reenters (W : Type) (env : Env W) (fuel depth : nat)
  (event : TransitionEvent) (st : Engine W) (redirect : RedirectError) :
  validBound env ->
  wellFormed (observe env st) ->
  (depth < 25)%nat ->
  let rb := runBeforeHandlers env event (begun env st event) in
  outcome rb = Done (Some (Redirect redirect)) ->
  let r := runNavigationEvent env (S (S fuel)) event depth false st in
  exists from to st' h rest answer more,
    JsArray.get (entries (observe env st)) (index (observe env st)) = Some from
    /\ makeDestination env
         (getUrl env (env_origin env) (redirect_path redirect))
         (match redirect_options redirect with
          | Some o => ro_state o
          | None => JsUndefined
          end)
         (env_origin env) (final rb)
       = mkRun st' [] (Done to)
    /\ (let event' := {| ev_type := Replace;
                         ev_from := from;
                         ev_to := Materialized to;
                         ev_delta := 0;
                         ev_info := match redirect_options redirect with
                                    | Some o => ro_info o
                                    | None => JsUndefined
                                    end |} in
        let nested :=
          runNavigationEvent env (S fuel) event' (S depth) false st' in
        final r = final nested
        /\ outcome r = outcome nested
        /\ log r = LBegin depth event :: LStore (cell (begun env st event))
                   :: log rb ++ log nested
        /\ beforeHandlers st = h :: rest
        /\ log nested
           = LBegin (S depth) event' :: LStore (cell (begun env st' event'))
             :: LBefore (bh_name h) event' answer :: more)
    /\ (env_newNavigationState env = None ->
        forall committed destination,
          In (destination, committed, None) (commits (log r)) ->
          outcome r = Done destination
          /\ afterPolls (log r)
             = map (fun a => (nh_name a,
                              {| nev_type := ev_type committed;
                                 nev_info := ev_info committed;
                                 nev_destination := destination |}))
                   (handlers st))
    /\ (forall newNavigationState,
          env_newNavigationState env = Some newNavigationState ->
          afterPolls (log r) = []).
Proof.
  intros Hvalid Hwf Hshallow rb Hout r.
  destruct (@wellFormed_current _ env st event Hwf) as (from & Hcur & Hfrom).
  assert (JsArray.get (entries (observe env (final rb)))
                      (index (observe env (final rb))) = Some from) as Hget.
  { unfold rb. now rewrite (@observe_before _ env Hvalid st event event). }
  destruct (makeRedirectEvent_spec env (env_origin env) redirect from (final rb))
    as (event' & n & to & Hm & Hevent' & Hmake).
  destruct (runBeforeHandlers_summary env event (begun env st event))
    as (w & answer0 & Hfinal & Hout' & _ & _ & _ & Hfirst).
  cbv zeta in Hfinal, Hout', Hfirst. fold rb in Hfinal, Hout', Hfirst.
  rewrite Hout in Hout'. injection Hout' as <-.
  destruct (Hfirst ltac:(discriminate)) as (h & rest & _ & _ & _ & Hhs & _).
  assert (beforeHandlers (withDrawn (final rb) n) = h :: rest) as Hhs'.
  { rewrite Hfinal. exact Hhs. }
  destruct (runNavigationEvent_opening env fuel event' (S depth)
              (withDrawn (final rb) n) Hhs') as (answer & more & Hopening).
  exists from, to, (withDrawn (final rb) n), h, rest, answer, more.
  split; [exact Hfrom |]. split; [exact Hmake |]. split; [| split].
  - cbv zeta. rewrite <- Hevent'.
    assert (r = mkRun
                  (final (runNavigationEvent env (S fuel) event' (S depth) false
                            (withDrawn (final rb) n)))
                  (LBegin depth event :: LStore (cell (begun env st event))
                   :: log rb
                      ++ log (runNavigationEvent env (S fuel) event' (S depth)
                                false (withDrawn (final rb) n)))
                  (outcome (runNavigationEvent env (S fuel) event' (S depth)
                              false (withDrawn (final rb) n)))) as ->.
    { subst r. rewrite runNavigationEvent_S.
      run_step (beginTransition_eq env event depth st).
      assert (runBeforeHandlers env event (begun env st event)
              = mkRun (final rb) (log rb) (Done (Some (Redirect redirect))))
        as Hrb by (rewrite <- Hout; symmetry; apply run_eta).
      run_step Hrb.
      rewrite (@handleError_redirect _ env (S fuel) depth (final rb) from
                 redirect _ event' Hshallow Hget Hm).
      reflexivity. }
    cbn [final log outcome].
    split; [reflexivity |]. split; [reflexivity |]. split; [reflexivity |].
    split; [exact Hhs | exact Hopening].
  - intros Hnone committed destination Hin.
    exact (path_after Hnone
             (runNavigationEvent_path env (S (S fuel)) depth event false st)
             destination committed Hin).
  - intros newNavigationState Hhost.
    exact (path_unannounced Hhost
             (runNavigationEvent_path env (S (S fuel)) depth event false st)).
Qed.

Lemma redirect_reenters_witness :
  let st := perform Scenario.env (OpOnNavigation Scenario.doubling)
                    (Scenario.withBefore Scenario.detour) in
  let r := runNavigationEvent Scenario.env redirectFuel Scenario.toSecond 0
                              false st in
  exists committed destination,
    outcome r = Done destination
    /\ afterPolls (log r)
       = [(1%nat, {| nev_type := ev_type committed;
                     nev_info := ev_info committed;
                     nev_destination := destination |})]
    /\ url_pathname (d_url destination) = "/bar/42"%string.
Proof.
  destruct (@redirect_reenters Z Scenario.env 24 0 Scenario.toSecond
              (perform Scenario.env (OpOnNavigation Scenario.doubling)
                       (Scenario.withBefore Scenario.detour))
              {| redirect_path := inl "/bar/42"%string;
                 redirect_options := None |})
    as (from & to & st' & h & rest & answer & more & _ & Hmake & _ & Hafter
        & _).
  - unfold validBound. simpl. lia.
  - split; vm_compute; [discriminate | reflexivity].
  - lia.
  - vm_compute. reflexivity.
  - vm_compute in Hmake. injection Hmake as _ <-.
    eexists; eexists.
    destruct (Hafter eq_refl
                {| ev_type := Replace;
                   ev_from := Scenario.first;
                   ev_to := Materialized
                              {| d_id := Scenario.uuid 2;
                                 d_key := Scenario.uuid 3;
                                 d_url := Scenario.page "/bar/42";
                                 d_state := JsUndefined;
                                 d_sameDocument := true |};
                   ev_delta := 0;
                   ev_info := JsUndefined |}
                {| d_id := Scenario.uuid 2;
                   d_key := Scenario.uuid 3;
                   d_url := Scenario.page "/bar/42";
                   d_state := JsUndefined;
                   d_sameDocument := true |})
      as (Hdone & Hpolls).
    + vm_compute. left. reflexivity.
    + split; [exact Hdone |]. split; [exact Hpolls | reflexivity].
Defined.

(** C5 as stated fails at depth 25: of the 26 redirects a handler that
    always redirects raises, the last one is not followed.  The run dies on
    the guard of [handleError]; no transition is begun for it, nothing is
    committed and no after-handler is called. *)
Lemma redirect_reenters_counterexample :
  let r := request Scenario.env
             (ReqNavigate (inl "/next"%string) Scenario.plain false)
             (perform Scenario.env (OpOnNavigation Scenario.doubling)
                      (Scenario.withBefore Scenario.looping)) in
  failures (log r) = repeat (Redirect Scenario.toLoop) 26
  /\ length (begins (log r)) = 26%nat
  /\ outcome r = Died loopMessage
  /\ commits (log r) = []
  /\ afterPolls (log r) = [].
Proof. repeat split; vm_compute; reflexivity. Qed.

(** ** The event [navigate] builds *)

(** C7, as the code has it: with [history] absent or ['auto'], the event is
    a replace exactly when the key of the destination equals the key of the
    current entry, and a push otherwise.  A target with the origin and
    pathname of the current entry reuses the current key and draws one
    identifier, for the id, so the event is a replace.  Any other target
    goes through [makeDestination]: it draws two identifiers, for the id and
    the key, unless the state is a patched marker, whose id and key it
    adopts without drawing any. *)
Theorem navigateEvent_auto (W : Type) (env : Env W) (pathOrUrl : string + URL)
  (options : NavigateOptions) (st : Engine W) (from : Destination) :
  opt_history options = None \/ opt_history options = Some HistoryAuto ->
  JsArray.get (entries (observe env st)) (index (observe env st)) = Some from ->
  let url := getUrl env (env_origin env) pathOrUrl in
  exists to n,
    navigateEvent env pathOrUrl options st
    = mkRun (withDrawn st n) []
        (Done {| ev_type := if String.eqb (d_key from) (d_key to)
                            then Replace else Push;
                 ev_from := from;
                 ev_to := Materialized to;
                 ev_delta := if String.eqb (d_key from) (d_key to)
                             then 0 else 1;
                 ev_info := opt_info options |})
    /\ d_url to = url
    /\ (if String.eqb (url_origin url) (url_origin (d_url from))
           && String.eqb (url_pathname url) (url_pathname (d_url from))
        then d_key to = d_key from
             /\ d_id to = env_uuid env (drawn st)
             /\ n = S (drawn st)
             /\ String.eqb (d_key from) (d_key to) = true
        else match opt_state options with
             | JsMarked marker_id marker_key _ =>
                 d_id to = marker_id /\ d_key to = marker_key /\ n = drawn st
             | _ =>
                 d_id to = env_uuid env (drawn st)
                 /\ d_key to = env_uuid env (S (drawn st))
                 /\ n = S (S (drawn st))
             end).
Proof.
  intros Hauto Hfrom url.
  destruct (navigateEvent_spec env pathOrUrl options st)
    as [(Hnone & _) | (from' & to & n & Hfrom' & Hmake & Hrun)];
    [congruence |].
  rewrite Hfrom in Hfrom'. injection Hfrom' as <-.
  destruct (makeOrUpdateDestination_spec env (observe env st)
              (getUrl env (env_origin env) pathOrUrl) (opt_state options)
              (env_origin env) st Hfrom)
    as (to' & n' & Hmake' & Hurl & _ & Hids).
  rewrite Hmake in Hmake'. injection Hmake' as <- <-.
  exists to, n. split; [| split; [exact Hurl |]].
  - rewrite Hrun. unfold navigateType.
    destruct Hauto as [-> | ->];
      now destruct (String.eqb (d_key from) (d_key to)).
  - fold url in Hids.
    destruct (String.eqb (url_origin url) (url_origin (d_url from))
              && String.eqb (url_pathname url) (url_pathname (d_url from))).
    + destruct Hids as (Hkey & Hid & _ & Hn).
      repeat split; try assumption. rewrite Hkey. apply String.eqb_refl.
    + destruct (opt_state options); tauto.
Qed.

Lemma navigateEvent_auto_witness :
  exists to n,
    navigateEvent Scenario.env (inl "/foo/2"%string) Scenario.plain
                  Scenario.start
    = mkRun (withDrawn Scenario.start n) []
        (Done {| ev_type := if String.eqb (d_key Scenario.first) (d_key to)
                            then Replace else Push;
                 ev_from := Scenario.first;
                 ev_to := Materialized to;
                 ev_delta := if String.eqb (d_key Scenario.first) (d_key to)
                             then 0 else 1;
                 ev_info := JsUndefined |})
    /\ d_url to = Scenario.page "/foo/2".
Proof.
  destruct (@navigateEvent_auto Z Scenario.env (inl "/foo/2"%string)
              Scenario.plain Scenario.start Scenario.first)
    as (to & n & Hrun & Hurl & _).
  - left. reflexivity.
  - vm_compute. reflexivity.
  - exists to, n. split; [exact Hrun | exact Hurl].
Defined.

(** C7 as stated fails for a state that is a patched marker: the target
    differs from the current entry in its pathname and the event is a push,
    but the id and the key are the marker's and no identifier is drawn. *)
Lemma navigateEvent_auto_counterexample :
  let r := navigateEvent Scenario.env (inl "/other"%string)
             {| opt_history := None; opt_state := Scenario.marked;
                opt_info := JsUndefined |} Scenario.start in
  exists event to,
    outcome r = Done event
    /\ ev_type event = Push
    /\ ev_to event = Materialized to
    /\ d_id to <> Scenario.uuid (drawn Scenario.start)
    /\ d_key to <> Scenario.uuid (S (drawn Scenario.start))
    /\ drawn (final r) = drawn Scenario.start.
Proof.
  eexists; eexists. split; [vm_compute; reflexivity |].
  split; [reflexivity |]. split; [reflexivity |].
  split; [vm_compute; discriminate |].
  split; [vm_compute; discriminate | reflexivity].
Qed.

(** ** The delta of an event *)

(** After the first transition of a run only redirect events are begun,
    and they are replace events. *)
Lemma path_later_replace (W : Type) (env : Env W) fuel depth event skip
  (st : Engine W) r :
  Path env fuel depth event skip st r ->
  forall d e,
    In (d, e) (begins (log r)) ->
    (d, e) = (depth, event) \/ ev_type e = Replace.
Proof.
  intros H. path_cases H; intros d e Hin; cbn [log] in Hin.
  - contradiction.
  - subst rb. rewrite <- (app_nil_r (log _)) in Hin.
    rewrite opening_begins in Hin by apply before_log.
    destruct Hin as [<- | []]. now left.
  - subst rb. rewrite <- (app_nil_r (log _)) in Hin.
    rewrite opening_begins in Hin by apply before_log.
    destruct Hin as [<- | []]. now left.
  - subst rb. rewrite opening_begins in Hin by apply before_log.
    destruct Hin as [<- | []]. now left.
  - subst rb. rewrite opening_begins in Hin by apply before_log.
    destruct Hin as [<- | Hin]; [now left |]. right.
    destruct (IH d e Hin) as [[= _ ->] | Hreplace]; [| exact Hreplace].
    subst rm.
    destruct (makeRedirectEvent_spec env (env_origin env) redirect from
                (final (runBeforeHandlers env event (begun env st event))))
      as (ev0 & n & to & Hm & -> & _).
    rewrite Hm in Hev. now injection Hev as <-.
  - subst rb rf. rewrite opening_begins in Hin by apply before_log.
    rewrite (proj1 (finishTransition_summary env _ event false _)) in Hin.
    destruct Hin as [<- | []]. now left.
  - subst rf. change (LBegin depth event :: LStore ?c :: ?l)
      with (LBegin depth event :: LStore c :: [] ++ l) in Hin.
    rewrite opening_begins in Hin by reflexivity.
    rewrite (proj1 (finishTransition_summary env _ event true _)) in Hin.
    destruct Hin as [<- | []]. now left.
Qed.

(** ** Skipping the commit *)

Lemma skip_log (W : Type) (env : Env W) fuel depth event (st : Engine W) :
  let r := runNavigationEvent env (S fuel) event depth true st in
  beforePolls (log r) = []
  /\ deferredRuns (log r) = []
  /\ failures (log r) = []
  /\ commits (log r) = []
  /\ begins (log r) = [(depth, event)].
Proof.
  cbv zeta. rewrite runNavigationEvent_skip_eq. cbn [log].
  destruct (finishTransition_summary env (observe env (begun env st event))
              event true (begun env st event))
    as (Hb & Hf & Hp & Hd & Hc & _).
  specialize (Hc eq_refl).
  unfold beforePolls, deferredRuns, failures, commits, begins in *.
  simpl. now rewrite Hb, Hf, Hp, Hd, Hc.
Qed.



(** ** The repository's tests, run on the model *)

(** [memory]: the counter after each step, and the three entries the bound
    keeps. *)
Example test_memory :
  let s1 := performAll Scenario.env
              [OpBeforeNavigation Scenario.counting;
               OpOnNavigation Scenario.doubling;
               Scenario.toPath "/foo/2"] Scenario.start in
  let s2 := performAll Scenario.env
              [OpRequest Z (ReqBack JsUndefined false);
               OpRequest Z (ReqForward JsUndefined false)] s1 in
  let s3 := performAll Scenario.env [Scenario.toPath "/foo/3"] s2 in
  let s4 := performAll Scenario.env
              [OpRequest Z (ReqTraverseTo (d_key Scenario.first) JsUndefined
                                          false);
               OpRequest Z (ReqForward JsUndefined false)] s3 in
  let s5 := performAll Scenario.env
              [Scenario.toPath "/foo/4"; Scenario.toPath "/foo/5";
               Scenario.toPath "/foo/6"] s4 in
  world s1 = 20 /\ world s2 = 140 /\ world s3 = 300 /\ world s4 = 1260
  /\ map (fun d => url_pathname (d_url d)) (entries (observe Scenario.env s5))
     = ["/foo/4"; "/foo/5"; "/foo/6"]%string.
Proof. repeat split; vm_compute; reflexivity. Qed.

(** [beforeNavigation / allows performing redirects]: the redirect replaces
    the current entry. *)
Example test_redirect :
  let s := perform Scenario.env (Scenario.toPath "/foo/1")
             (Scenario.withBefore Scenario.away) in
  map (fun d => url_pathname (d_url d)) (entries (observe Scenario.env s))
  = ["/bar/42"%string].
Proof. vm_compute. reflexivity. Qed.

(** [beforeNavigation / allows canceling navigation] *)
Example test_cancel :
  let s := perform Scenario.env (Scenario.toPath "/bar/42")
             (Scenario.withBefore Scenario.refusing) in
  entries (observe Scenario.env s) = [Scenario.first].
Proof. vm_compute. reflexivity. Qed.

(** [onNavigation / runs only after the url has been committed]: the
    before-handler is called twice, the after-handler once, with the
    redirect's path.  With identifiers that are all the same the first
    event is a replace, although the path is new. *)
Example test_onNavigation :
  let r := request Scenario.envSame
             (ReqNavigate (inl "/foo/2"%string) Scenario.plain false)
             Scenario.startSame in
  length (beforePolls (log r)) = 2%nat
  /\ map (fun p => url_pathname (d_url (nev_destination (snd p))))
         (afterPolls (log r)) = ["/bar/42"%string]
  /\ map (fun b => ev_type (snd b)) (begins (log r)) = [Replace; Replace].
Proof. repeat split; vm_compute; reflexivity. Qed.

(** * Part IV: the operations, the views and the window adapters *)

(** ** Runs in which no handler objects *)

Section Quiet.

Variable W : Type.
Variable env : Env W.
Hypothesis Hvalid : validBound env.
Hypothesis Hnone : env_newNavigationState env = None.

Implicit Types st : Engine W.

(** The answer of the last three phases, and the one call of the adapter's
    commit. *)
Lemma finishTransition_answer current event skip st :
  exists to,
    (forall d, ev_to event = Materialized d -> to = d)
    /\ let r := finishTransition env current event skip st in
       ((exists e,
            skip = false /\ outcome r = Failed e
            /\ commits (log r) = [(to, event, Some e)]
            /\ afterPolls (log r) = []
            /\ cell (final r) = cell st)
        \/ (outcome r = Done to
            /\ commits (log r) = (if skip then [] else [(to, event, None)])
            /\ cell (final r) = cellTransform env (mutated current event to))).
Proof.
  destruct (finishTransition_plain env current event skip st Hnone)
    as (to & n & Hto & [(w & e & Hs & Hr) | (w & lga & Hr & _ & Hitems)]);
    exists to; (split; [intros d Hd; rewrite Hd in Hto; tauto |]);
    cbv zeta in *; rewrite Hr; cbn [final log outcome].
  - left. exists e. now repeat split.
  - right. split; [reflexivity |]. split; [| reflexivity].
    apply after_items_only in Hitems. destruct Hitems as (_ & Hc & _).
    unfold commits in *. rewrite filterMap_app. simpl. rewrite Hc.
    destruct skip; reflexivity.
Qed.

(** A run without a failure of a handler is one pass through the
    pipeline: one transition, at most one call of commit. *)
Lemma path_quiet fuel depth event skip st r :
  Path env fuel depth event skip st r ->
  (0 < fuel)%nat ->
  failures (log r) = [] ->
  begins (log r) = [(depth, event)]
  /\ exists to,
       (forall d, ev_to event = Materialized d -> to = d)
       /\ ((exists e,
               skip = false /\ outcome r = Failed e
               /\ commits (log r) = [(to, event, Some e)])
           \/ (outcome r = Done to
               /\ commits (log r)
                  = (if skip then [] else [(to, event, None)]))).
Proof.
  intros H.
  path_cases H; intros Hpos Hquiet; cbn [final log outcome] in *.
  - lia.
  - exfalso. subst rb. rewrite <- (app_nil_r (log _)) in Hquiet.
    rewrite opening_failures in Hquiet.
    rewrite (@before_failures _ env event (begun env st event) _ Hout)
      in Hquiet.
    discriminate.
  - exfalso. subst rb. rewrite <- (app_nil_r (log _)) in Hquiet.
    rewrite opening_failures in Hquiet.
    rewrite (@before_failures _ env event (begun env st event) _ Hout)
      in Hquiet.
    discriminate.
  - exfalso. subst rb. rewrite opening_failures in Hquiet.
    rewrite (@before_failures _ env event (begun env st event) _ Hout)
      in Hquiet.
    discriminate.
  - exfalso. subst rm rb. rewrite opening_failures in Hquiet.
    rewrite (@before_failures _ env event (begun env st event) _ Hout)
      in Hquiet.
    discriminate.
  - subst rf.
    pose proof (before_log env event (begun env st event))
      as (Hb & Hc & _).
    cbv zeta in Hb, Hc. rewrite <- Hrb in Hb, Hc.
    rewrite opening_begins by assumption.
    rewrite opening_commits by assumption.
    destruct (finishTransition_summary env (observe env (begun env st event))
                event false (final rb)) as (Hbf & _).
    rewrite Hbf. split; [reflexivity |].
    destruct (finishTransition_answer (observe env (begun env st event))
                event false (final rb))
      as (to & Hto & [(e & _ & Ho & Hco & _) | (Ho & Hco & _)]);
      exists to; (split; [exact Hto |]).
    + left. exists e. now repeat split.
    + right. now split.
  - subst rf.
    change (LBegin depth event :: LStore ?c :: ?l)
      with (LBegin depth event :: LStore c :: [] ++ l).
    rewrite opening_begins by reflexivity.
    rewrite opening_commits by reflexivity.
    destruct (finishTransition_summary env (observe env (begun env st event))
                event true (begun env st event)) as (Hbf & _).
    rewrite Hbf. split; [reflexivity |].
    destruct (finishTransition_answer (observe env (begun env st event))
                event true (begun env st event))
      as (to & Hto & [(e & Hs & _) | (Ho & Hco & _)]);
      [discriminate |].
    exists to. split; [exact Hto |]. right. now split.
Qed.

(** What such a run leaves when it answers. *)
Lemma path_quiet_done fuel depth event skip st r answer :
  Path env fuel depth event skip st r ->
  wellFormed (observe env st) ->
  (0 < fuel)%nat ->
  failures (log r) = [] ->
  outcome r = Done answer ->
  (forall d, ev_to event = Materialized d -> answer = d)
  /\ commits (log r) = (if skip then [] else [(answer, event, None)])
  /\ mutation env (observe env st) (observe env (final r)) event answer.
Proof.
  intros H Hwf Hpos Hquiet Hdone.
  destruct (path_quiet H Hpos Hquiet)
    as (_ & to & Hto & [(e & _ & Ho & _) | (Ho & Hco)]);
    [congruence |].
  rewrite Hdone in Ho. injection Ho as ->.
  split; [exact Hto |]. split; [exact Hco |].
  apply (path_committed Hvalid H Hnone Hwf).
  destruct skip.
  - right. now repeat split.
  - left. rewrite Hco. now left.
Qed.

End Quiet.

(** ** Looking up a key *)

Lemma findIndexFrom_none {A} (p : A -> bool) (l : list A) :
  forall i0,
    (forall x, In x l -> p x = false) -> JsArray.findIndexFrom p l i0 = -1.
Proof.
  induction l as [| x l IH]; intros i0 Hall; simpl; [reflexivity |].
  rewrite (Hall x (or_introl eq_refl)).
  apply IH. intros y Hy. apply Hall. now right.
Qed.

Lemma findIndexFrom_first {A} (p : A -> bool) (l : list A) :
  forall i0 k x,
    nth_error l k = Some x ->
    p x = true ->
    (forall j y, (j < k)%nat -> nth_error l j = Some y -> p y = false) ->
    JsArray.findIndexFrom p l i0 = i0 + Z.of_nat k.
Proof.
  induction l as [| a l IH]; intros i0 k x Hk Hp Hbefore.
  - now destruct k.
  - destruct k as [| k]; simpl in *.
    + injection Hk as ->. rewrite Hp. lia.
    + rewrite (Hbefore 0%nat a ltac:(lia) eq_refl).
      rewrite (IH (i0 + 1) k x Hk Hp).
      * lia.
      * intros j y Hj Hy. apply (Hbefore (S j) y); [lia | exact Hy].
Qed.

(** In a list without two entries of one key, [findIndex] by the key of an
    entry finds that entry. *)
Lemma findIndex_key (es : list Destination) i x :
  NoDup (map d_key es) ->
  JsArray.get es i = Some x ->
  JsArray.findIndex (fun e => String.eqb (d_key e) (d_key x)) es = i.
Proof.
  intros Hnodup Hget. pose proof (get_some_range _ _ Hget) as [Hlo Hhi].
  unfold JsArray.get in Hget.
  destruct (Z.ltb_spec i 0) as [| _]; [lia |].
  unfold JsArray.findIndex.
  rewrite (@findIndexFrom_first _ _ es 0 (Z.to_nat i) x Hget).
  - lia.
  - apply String.eqb_refl.
  - intros j y Hj Hy.
    destruct (String.eqb_spec (d_key y) (d_key x)) as [Heq | _];
      [| reflexivity].
    exfalso.
    assert (nth_error (map d_key es) j = Some (d_key y)) as Hj'
        by (now apply map_nth_error).
    assert (nth_error (map d_key es) (Z.to_nat i) = Some (d_key y)) as Hi'
        by (rewrite Heq; now apply map_nth_error).
    rewrite NoDup_nth_error in Hnodup.
    assert (j = Z.to_nat i); [| lia].
    apply Hnodup; [| congruence].
    apply nth_error_Some. congruence.
Qed.

(** ** The operations, one by one *)

Section Steps.

Variable W : Type.
Variable env : Env W.

Implicit Types st : Engine W.

Lemma traverseTo_unknown key info skip st from :
  currentEntry env st = Some from ->
  (forall e, In e (entries (observe env st)) -> d_key e <> key) ->
  traverseTo env key info skip st = mkRun st [] (Done from).
Proof.
  unfold currentEntry. intros Hfrom Hkeys. unfold traverseTo.
  run_step (get_eq env st). rewrite Hfrom.
  run_step (orThrow_some from st).
  unfold JsArray.findIndex. rewrite findIndexFrom_none.
  - reflexivity.
  - intros e He. apply String.eqb_neq. now apply Hkeys.
Qed.

Lemma traverseTo_known key info skip st from i target :
  currentEntry env st = Some from ->
  JsArray.findIndex (fun e => String.eqb (d_key e) key)
                    (entries (observe env st)) = i ->
  JsArray.get (entries (observe env st)) i = Some target ->
  traverseTo env key info skip st
  = runNavigationEvent env redirectFuel (traversal env st from target i info)
                       0 skip (withDrawn st (S (drawn st))).
Proof.
  unfold currentEntry. intros Hfrom Hi Htarget. unfold traverseTo.
  run_step (get_eq env st). rewrite Hfrom.
  run_step (orThrow_some from st). rewrite Hi.
  pose proof (get_some_range _ _ Htarget) as [Hlo _].
  destruct (Z.eqb_spec i (-1)) as [Heq | _]; [lia |].
  run_step (makeUuid_eq env st).
  change (observe env (withDrawn st (S (drawn st)))) with (observe env st).
  rewrite Htarget.
  run_step (orThrow_some target (withDrawn st (S (drawn st)))).
  now rewrite run_eta.
Qed.

End Steps.

Section Moves.

Variable W : Type.
Variable env : Env W.
Hypothesis Hvalid : validBound env.
Hypothesis Hnone : env_newNavigationState env = None.

Implicit Types st : Engine W.

(** A traversal that no handler objects to and that the adapter commits. *)
Lemma traverseTo_quiet key info skip st from i target answer :
  wellFormed (observe env st) ->
  currentEntry env st = Some from ->
  JsArray.findIndex (fun e => String.eqb (d_key e) key)
                    (entries (observe env st)) = i ->
  JsArray.get (entries (observe env st)) i = Some target ->
  let r := traverseTo env key info skip st in
  failures (log r) = [] ->
  outcome r = Done answer ->
  answer = revisited target (env_uuid env (drawn st))
  /\ entries (observe env (final r)) = entries (observe env st)
  /\ index (observe env (final r)) = i
  /\ transition (observe env (final r)) = None
  /\ commits (log r)
     = (if skip then []
        else [(answer, traversal env st from target i info, None)]).
Proof.
  intros Hwf Hfrom Hi Htarget r. subst r.
  rewrite (@traverseTo_known _ env key info skip st from i target Hfrom Hi
             Htarget).
  intros Hquiet Hdone.
  pose proof (get_some_range _ _ Htarget) as Hrange.
  destruct (path_quiet_done Hvalid Hnone
              (runNavigationEvent_path env redirectFuel 0
                 (traversal env st from target i info) skip
                 (withDrawn st (S (drawn st))))
              Hwf ltac:(unfold redirectFuel; lia) Hquiet Hdone)
    as (Hto & Hcommits & Htr & Hes & Hidx).
  change (observe env (withDrawn st (S (drawn st)))) with (observe env st)
    in *.
  cbn [traversal ev_type ev_delta] in Hes, Hidx.
  split; [now apply Hto |]. split; [exact Hes |].
  split; [rewrite Hidx; lia |]. split; [exact Htr | exact Hcommits].
Qed.

Lemma back_known info skip st previous :
  canGoBack env st = true ->
  JsArray.get (entries (observe env st)) (index (observe env st) - 1)
  = Some previous ->
  back env info skip st = traverseTo env (d_key previous) info skip st.
Proof.
  unfold canGoBack. intros Hcan Hprevious. unfold back.
  run_step (get_eq env st).
  destruct (Z.eqb_spec (index (observe env st)) 0) as [Heq | _];
    [rewrite Heq in Hcan; discriminate |].
  rewrite Hprevious. run_step (orThrow_some previous st).
  now rewrite run_eta.
Qed.

Lemma forward_known info skip st next :
  canGoForward env st = true ->
  JsArray.get (entries (observe env st)) (index (observe env st) + 1)
  = Some next ->
  forward env info skip st = traverseTo env (d_key next) info skip st.
Proof.
  unfold canGoForward. intros Hcan Hnext. unfold forward.
  run_step (get_eq env st).
  destruct (Z.eqb_spec (index (observe env st))
                       (JsArray.len (entries (observe env st)) - 1))
    as [Heq | _];
    [rewrite Heq, Z.ltb_irrefl in Hcan; discriminate |].
  rewrite Hnext. run_step (orThrow_some next st).
  now rewrite run_eta.
Qed.

(** One step back, one step forward, among entries of distinct keys. *)
Lemma back_quiet info skip st answer :
  wellFormed (observe env st) ->
  NoDup (map d_key (entries (observe env st))) ->
  canGoBack env st = true ->
  let r := back env info skip st in
  failures (log r) = [] ->
  outcome r = Done answer ->
  entries (observe env (final r)) = entries (observe env st)
  /\ index (observe env (final r)) = index (observe env st) - 1
  /\ transition (observe env (final r)) = None.
Proof.
  intros Hwf Hnodup Hcan r. subst r.
  assert (0 < index (observe env st)) as Hpos
      by (unfold canGoBack in Hcan; now apply Z.ltb_lt in Hcan).
  destruct (get_in_range (entries (observe env st))
              (i := index (observe env st) - 1)) as (previous & Hprevious);
    [unfold wellFormed in Hwf; lia |].
  destruct (get_in_range (entries (observe env st)) Hwf) as (from & Hfrom).
  rewrite (@back_known info skip st previous Hcan Hprevious).
  intros Hquiet Hdone.
  destruct (@traverseTo_quiet (d_key previous) info skip st from
              (index (observe env st) - 1) previous answer Hwf Hfrom
              (@findIndex_key _ _ _ Hnodup Hprevious) Hprevious Hquiet Hdone)
    as (_ & Hes & Hidx & Htr & _).
  now repeat split.
Qed.

Lemma forward_quiet info skip st answer :
  wellFormed (observe env st) ->
  NoDup (map d_key (entries (observe env st))) ->
  canGoForward env st = true ->
  let r := forward env info skip st in
  failures (log r) = [] ->
  outcome r = Done answer ->
  entries (observe env (final r)) = entries (observe env st)
  /\ index (observe env (final r)) = index (observe env st) + 1
  /\ transition (observe env (final r)) = None.
Proof.
  intros Hwf Hnodup Hcan r. subst r.
  assert (index (observe env st) < JsArray.len (entries (observe env st)) - 1)
    as Hpos by (unfold canGoForward in Hcan; now apply Z.ltb_lt in Hcan).
  destruct (get_in_range (entries (observe env st))
              (i := index (observe env st) + 1)) as (next & Hnext);
    [unfold wellFormed in Hwf; lia |].
  destruct (get_in_range (entries (observe env st)) Hwf) as (from & Hfrom).
  rewrite (@forward_known info skip st next Hcan Hnext).
  intros Hquiet Hdone.
  destruct (@traverseTo_quiet (d_key next) info skip st from
              (index (observe env st) + 1) next answer Hwf Hfrom
              (@findIndex_key _ _ _ Hnodup Hnext) Hnext Hquiet Hdone)
    as (_ & Hes & Hidx & Htr & _).
  now repeat split.
Qed.

End Moves.

(** ** At the ends of the list *)

(** X1: at the first entry [back] does nothing, and at the last entry
    [forward] does nothing: when [canGoBack] (or [canGoForward]) reads
    false, the operation answers with the current entry, begins no
    transition, calls no handler and leaves the engine as it was. *)
Theorem back_forward_at_the_ends (W : Type) (env : Env W) (info : JsValue)
  (skip : bool) (st : Engine W) :
  wellFormed (observe env st) ->
  exists current,
    currentEntry env st = Some current
    /\ (canGoBack env st = false ->
        back env info skip st = mkRun st [] (Done current))
    /\ (canGoForward env st = false ->
        forward env info skip st = mkRun st [] (Done current)).
Proof.
  intros Hwf.
  destruct (get_in_range (entries (observe env st)) Hwf) as (current & Hcur).
  exists current. split; [exact Hcur |].
  destruct Hwf as [Hlo Hhi]. split.
  - unfold canGoBack. intros Hcan. apply Z.ltb_ge in Hcan.
    unfold back. run_step (get_eq env st).
    destruct (Z.eqb_spec (index (observe env st)) 0) as [_ | Hne]; [| lia].
    now rewrite Hcur.
  - unfold canGoForward. intros Hcan. apply Z.ltb_ge in Hcan.
    unfold forward. run_step (get_eq env st).
    destruct (Z.eqb_spec (index (observe env st))
                         (JsArray.len (entries (observe env st)) - 1))
      as [_ | Hne]; [| lia].
    now rewrite Hcur.
Qed.

Lemma back_forward_at_the_ends_witness :
  back Scenario.env JsUndefined false Scenario.start
  = mkRun Scenario.start [] (Done Scenario.first)
  /\ forward Scenario.env JsUndefined false Visited.three
     = mkRun Visited.three [] (Done Visited.third).
Proof.
  split.
  - destruct (@back_forward_at_the_ends Z Scenario.env JsUndefined false
                Scenario.start) as (current & Hcur & Hback & _).
    + split; vm_compute; [discriminate | reflexivity].
    + vm_compute in Hcur. injection Hcur as <-. now apply Hback.
  - destruct (@back_forward_at_the_ends Z Scenario.env JsUndefined false
                Visited.three) as (current & Hcur & _ & Hforward).
    + split; vm_compute; [discriminate | reflexivity].
    + vm_compute in Hcur. injection Hcur as <-. now apply Hforward.
Defined.

(** ** Traversing *)

(** X2: [traverseTo] with a key that no entry carries answers with the
    current entry and does nothing else: no transition is begun, no handler
    is called, no identifier is drawn and the cell is not written. *)
Theorem traverseTo_unknown_key (W : Type) (env : Env W) (key : Uuid)
  (info : JsValue) (skip : bool) (st : Engine W) :
  wellFormed (observe env st) ->
  (forall e, In e (entries (observe env st)) -> d_key e <> key) ->
  exists current,
    currentEntry env st = Some current
    /\ traverseTo env key info skip st = mkRun st [] (Done current).
Proof.
  intros Hwf Hkeys.
  destruct (get_in_range (entries (observe env st)) Hwf) as (current & Hcur).
  exists current. split; [exact Hcur |].
  now apply traverseTo_unknown.
Qed.

Lemma traverseTo_unknown_key_witness :
  traverseTo Scenario.env "nowhere"%string JsUndefined false Visited.three
  = mkRun Visited.three [] (Done Visited.third).
Proof.
  destruct (@traverseTo_unknown_key Z Scenario.env "nowhere"%string
              JsUndefined false Visited.three)
    as (current & Hcur & Hrun).
  - split; vm_compute; [discriminate | reflexivity].
  - vm_compute. intros e [<- | [<- | [<- | []]]]; discriminate.
  - vm_compute in Hcur. injection Hcur as <-. exact Hrun.
Defined.

(** X3: [traverseTo] with the key of an entry, when no handler objects and
    the operation answers: the index becomes the position of the first
    entry that carries the key and the entries are left as they were.  The
    answer is that entry under a newly drawn id; the entry in the cell
    keeps the id it had. *)
Theorem traverseTo_known_key (W : Type) (env : Env W) (key : Uuid)
  (info : JsValue) (skip : bool) (st : Engine W) (i : Z)
  (target answer : Destination) :
  validBound env ->
  env_newNavigationState env = None ->
  wellFormed (observe env st) ->
  JsArray.findIndex (fun e => String.eqb (d_key e) key)
                    (entries (observe env st)) = i ->
  JsArray.get (entries (observe env st)) i = Some target ->
  let r := traverseTo env key info skip st in
  failures (log r) = [] ->
  outcome r = Done answer ->
  answer = {| d_id := env_uuid env (drawn st);
              d_key := d_key target;
              d_url := d_url target;
              d_state := d_state target;
              d_sameDocument := d_sameDocument target |}
  /\ entries (observe env (final r)) = entries (observe env st)
  /\ index (observe env (final r)) = i
  /\ currentEntry env (final r) = Some target
  /\ transition (observe env (final r)) = None.
Proof.
  intros Hvalid Hnone Hwf Hi Htarget r Hquiet Hdone.
  destruct (get_in_range (entries (observe env st)) Hwf) as (from & Hfrom).
  destruct (@traverseTo_quiet _ env Hvalid Hnone key info skip st from i
              target answer Hwf Hfrom Hi Htarget Hquiet Hdone)
    as (Hanswer & Hes & Hidx & Htr & _).
  split; [exact Hanswer |]. split; [exact Hes |]. split; [exact Hidx |].
  split; [| exact Htr].
  unfold currentEntry, r. now rewrite Hes, Hidx.
Qed.

Lemma traverseTo_known_key_witness :
  let r := traverseTo Scenario.env (Scenario.uuid 1) JsUndefined false
                      Visited.three in
  outcome r = Done {| d_id := Scenario.uuid 6;
                      d_key := Scenario.uuid 1;
                      d_url := Scenario.page "/foo/1";
                      d_state := JsOpaque "x";
                      d_sameDocument := true |}
  /\ index (observe Scenario.env (final r)) = 0
  /\ currentEntry Scenario.env (final r) = Some Scenario.first.
Proof.
  cbv zeta.
  destruct (@traverseTo_known_key Z Scenario.env (Scenario.uuid 1)
              JsUndefined false Visited.three 0 Scenario.first
              {| d_id := Scenario.uuid 6;
                 d_key := Scenario.uuid 1;
                 d_url := Scenario.page "/foo/1";
                 d_state := JsOpaque "x";
                 d_sameDocument := true |})
    as (_ & _ & Hidx & Hcur & _).
  - unfold validBound. simpl. lia.
  - reflexivity.
  - split; vm_compute; [discriminate | reflexivity].
  - vm_compute. reflexivity.
  - vm_compute. reflexivity.
  - vm_compute. reflexivity.
  - vm_compute. reflexivity.
  - split; [vm_compute; reflexivity |]. split; assumption.
Defined.

(** X4: [back] followed by [forward] comes back to where it started.
    Among entries of distinct keys, when no handler objects and both
    operations answer, [back] moves the index one entry down, and
    [forward] after it restores the index; the entries are the same
    throughout. *)
Theorem back_then_forward (W : Type) (env : Env W) (info : JsValue)
  (skip : bool) (st : Engine W) (there here : Destination) :
  validBound env ->
  env_newNavigationState env = None ->
  wellFormed (observe env st) ->
  NoDup (map d_key (entries (observe env st))) ->
  canGoBack env st = true ->
  let r1 := back env info skip st in
  let r2 := forward env info skip (final r1) in
  failures (log r1) = [] -> outcome r1 = Done there ->
  failures (log r2) = [] -> outcome r2 = Done here ->
  index (observe env (final r1)) = index (observe env st) - 1
  /\ entries (observe env (final r1)) = entries (observe env st)
  /\ index (observe env (final r2)) = index (observe env st)
  /\ entries (observe env (final r2)) = entries (observe env st)
  /\ currentEntry env (final r2) = currentEntry env st.
Proof.
  intros Hvalid Hnone Hwf Hnodup Hcan r1 r2 Hq1 Hd1 Hq2 Hd2.
  unfold r2, r1 in *. clear r2 r1.
  destruct (@back_quiet _ env Hvalid Hnone info skip st there Hwf Hnodup Hcan
              Hq1 Hd1) as (Hes1 & Hidx1 & _).
  set (st1 := final (back env info skip st)) in *.
  assert (0 < index (observe env st)) as Hpos
      by (unfold canGoBack in Hcan; now apply Z.ltb_lt in Hcan).
  assert (wellFormed (observe env st1)) as Hwf1.
  { unfold wellFormed in *. rewrite Hes1, Hidx1. lia. }
  assert (canGoForward env st1 = true) as Hcan1.
  { unfold canGoForward. apply Z.ltb_lt. rewrite Hes1, Hidx1.
    unfold wellFormed in Hwf. lia. }
  destruct (@forward_quiet _ env Hvalid Hnone info skip st1 here Hwf1
              ltac:(now rewrite Hes1) Hcan1 Hq2 Hd2) as (Hes2 & Hidx2 & _).
  split; [exact Hidx1 |]. split; [exact Hes1 |].
  split; [lia |]. split; [congruence |].
  unfold currentEntry. rewrite Hes2, Hes1, Hidx2, Hidx1. f_equal. lia.
Qed.

Lemma back_then_forward_witness :
  let r1 := back Scenario.env JsUndefined false Visited.three in
  let r2 := forward Scenario.env JsUndefined false (final r1) in
  index (observe Scenario.env (final r1)) = 1
  /\ index (observe Scenario.env (final r2)) = 2
  /\ currentEntry Scenario.env (final r2) = Some Visited.third.
Proof.
  cbv zeta.
  destruct (@back_then_forward Z Scenario.env JsUndefined false Visited.three
              (revisited Visited.second (Scenario.uuid 6))
              (revisited Visited.third (Scenario.uuid 7)))
    as (H1 & _ & H2 & _ & Hcur).
  - unfold validBound. simpl. lia.
  - reflexivity.
  - split; vm_compute; [discriminate | reflexivity].
  - vm_compute. repeat constructor; simpl; intuition discriminate.
  - vm_compute. reflexivity.
  - vm_compute. reflexivity.
  - vm_compute. reflexivity.
  - vm_compute. reflexivity.
  - vm_compute. reflexivity.
  - split; [exact H1 |]. split; [exact H2 |]. exact Hcur.
Defined.

(** ** After a push *)

Lemma get_suffix {A} (evicted l : list A) (i : Z) :
  0 <= i ->
  JsArray.get l i = JsArray.get (evicted ++ l) (JsArray.len evicted + i).
Proof.
  intros Hi. unfold JsArray.get, JsArray.len.
  destruct (Z.ltb_spec i 0) as [| _]; [lia |].
  destruct (Z.ltb_spec (Z.of_nat (length evicted) + i) 0) as [| _]; [lia |].
  replace (Z.to_nat (Z.of_nat (length evicted) + i))
    with (length evicted + Z.to_nat i)%nat by lia.
  now rewrite nth_error_app2, Nat.add_comm, Nat.add_sub by lia.
Qed.

Lemma get_firstn_snoc {A} (l : list A) (x : A) (i : Z) :
  0 <= i < JsArray.len l ->
  JsArray.get (firstn (Z.to_nat (i + 1)) l ++ [x]) i = JsArray.get l i.
Proof.
  intros [Hlo Hhi]. unfold JsArray.get, JsArray.len in *.
  destruct (Z.ltb_spec i 0) as [| _]; [lia |].
  rewrite nth_error_app1 by (rewrite length_firstn; lia).
  rewrite nth_error_firstn.
  destruct (Nat.ltb_spec (Z.to_nat i) (Z.to_nat (i + 1))); [reflexivity | lia].
Qed.

(** X5: once a push is committed there is nothing left to go forward to:
    the pushed destination is the current and the last entry.  When the
    bound on the entries is 2 or more (or there is none), the entry before
    it is the entry that was current before, so [canGoBack] holds. *)
Theorem push_discards_forward (W : Type) (env : Env W) (q : Request)
  (st : Engine W) (to : Destination) (event : TransitionEvent) :
  validBound env ->
  env_newNavigationState env = None ->
  wellFormed (observe env st) ->
  let r := request env q st in
  In (to, event, None) (commits (log r)) ->
  ev_type event = Push ->
  currentEntry env (final r) = Some to
  /\ canGoForward env (final r) = false
  /\ (match env_maxEntries env with
      | Some maxEntries => 2 <= maxEntries
      | None => True
      end ->
      canGoBack env (final r) = true
      /\ JsArray.get (entries (observe env (final r)))
                     (index (observe env (final r)) - 1)
         = currentEntry env st).
Proof.
  intros Hvalid Hnone Hwf r. subst r.
  destruct (request_launched env q st)
    as [-> | [(x & -> & _) | (ev0 & n & -> & _ & _)]];
    [intros [] | intros [] |].
  intros Hin Hpush.
  pose proof (path_committed Hvalid
                (runNavigationEvent_path env redirectFuel 0 ev0 (skips q)
                   (withDrawn st n)) Hnone Hwf (or_introl Hin))
    as (_ & Hm).
  change (observe env (withDrawn st n)) with (observe env st) in Hm.
  rewrite Hpush in Hm.
  destruct Hm as ((evicted & Hgrown) & Hlen & Hidx & Hto).
  set (new := observe env
                (final (runNavigationEvent env redirectFuel ev0 0 (skips q)
                          (withDrawn st n)))) in *.
  split; [exact Hto |]. split.
  - unfold canGoForward. fold new. apply Z.ltb_ge. lia.
  - intros Hroom. pose proof Hwf as [Hlo Hhi].
    assert (2 <= JsArray.len (entries new)) as Htwo
        by (rewrite Hlen; destruct (env_maxEntries env); lia).
    split.
    + unfold canGoBack. fold new. apply Z.ltb_lt. lia.
    + unfold currentEntry. fold new.
      pose proof (push_grown (entries (observe env st)) to Hwf) as Hsize.
      rewrite Hgrown, len_app in Hsize.
      rewrite (get_suffix evicted (entries new)) by lia.
      rewrite <- Hgrown.
      replace (JsArray.len evicted + (index new - 1))
        with (index (observe env st)) by lia.
      now apply get_firstn_snoc.
Qed.

Lemma push_discards_forward_witness :
  let r := request Scenario.env
             (ReqNavigate (inl "/foo/2"%string) Scenario.plain false)
             Scenario.start in
  currentEntry Scenario.env (final r) = Some Visited.second
  /\ canGoForward Scenario.env (final r) = false
  /\ canGoBack Scenario.env (final r) = true
  /\ JsArray.get (entries (observe Scenario.env (final r))) 0
     = Some Scenario.first.
Proof.
  cbv zeta.
  destruct (@push_discards_forward Z Scenario.env
              (ReqNavigate (inl "/foo/2"%string) Scenario.plain false)
              Scenario.start Visited.second Scenario.toSecond)
    as (Hcur & Hforward & Hback).
  - unfold validBound. simpl. lia.
  - reflexivity.
  - split; vm_compute; [discriminate | reflexivity].
  - vm_compute. left. reflexivity.
  - reflexivity.
  - split; [exact Hcur |]. split; [exact Hforward |].
    destruct Hback as (Hcan & Hprevious); [simpl; lia |].
    split; [exact Hcan |]. vm_compute in Hprevious |- *. exact Hprevious.
Defined.

(** ** When the adapter's commit fails *)

Section CommitFailure.

Variable W : Type.
Variable env : Env W.
Hypothesis Hvalid : validBound env.

Implicit Types st : Engine W.

(** The last three phases, for either kind of adapter, when the commit
    fails. *)
Lemma finishTransition_commits current event skip st :
  let r := finishTransition env current event skip st in
  (exists to e,
      outcome r = Failed e
      /\ log r = [LCommit to event (Some e)]
      /\ cell (final r) = cell st)
  \/ (forall to ev e, ~ In (to, ev, Some e) (commits (log r))).
Proof.
  cbv zeta.
  destruct (env_newNavigationState env) as [f |] eqn:Hn.
  - destruct (finishTransition_host env current event skip st Hn)
      as (to & n & w & [(e & _ & ->) | ->]); cbv zeta.
    + left. exists to, e. now repeat split.
    + right. intros to' ev e. cbn [log].
      destruct skip; simpl; intuition discriminate.
  - destruct (finishTransition_plain env current event skip st Hn)
      as (to & n & _ & [(w & e & _ & ->) | (w & lga & -> & _ & Hitems)]);
      cbv zeta.
    + left. exists to, e. now repeat split.
    + right. intros to' ev e. cbn [log].
      apply after_items_only in Hitems. destruct Hitems as (_ & Hc & _).
      unfold commits in *. rewrite filterMap_app. simpl. rewrite Hc.
      destruct skip; simpl; intuition discriminate.
Qed.

Lemma path_commit_failed fuel depth event skip st r :
  Path env fuel depth event skip st r ->
  forall to ev e,
    In (to, ev, Some e) (commits (log r)) ->
    outcome r = Failed e
    /\ afterPolls (log r) = []
    /\ observe env (final r) = withTransition (observe env st) (Some ev).
Proof.
  intros H.
  path_cases H; intros to0 ev0 e0 Hin; cbn [final log outcome] in *.
  - contradiction.
  - subst rb. rewrite <- (app_nil_r (log _)) in Hin.
    rewrite opening_commits in Hin by apply before_log. contradiction.
  - subst rb. rewrite <- (app_nil_r (log _)) in Hin.
    rewrite opening_commits in Hin by apply before_log. contradiction.
  - subst rb. rewrite opening_commits in Hin by apply before_log.
    contradiction.
  - rewrite opening_commits in Hin by (subst rb; apply before_log).
    rewrite opening_afterPolls by (subst rb; apply before_log).
    destruct (IH to0 ev0 e0 Hin) as (Hout' & Hafter & Hobs).
    split; [exact Hout' |]. split; [exact Hafter |].
    rewrite Hobs. subst rm rb.
    now rewrite (@observe_redirected _ env Hvalid st event event
                   (env_origin env) redirect from).
  - rewrite opening_commits in Hin by (subst rb; apply before_log).
    rewrite opening_afterPolls by (subst rb; apply before_log).
    subst rf.
    destruct (finishTransition_commits (observe env (begun env st event))
                event false (final rb))
      as [(to & e & Ho & Hl & Hc) | Hno];
      [| now contradiction (Hno to0 ev0 e0)].
    rewrite Hl in Hin |- *. rewrite Ho.
    destruct Hin as [[= <- <- <-] | []].
    split; [reflexivity |]. split; [reflexivity |].
    unfold observe at 1. rewrite Hc. fold (observe env (final rb)).
    subst rb. now apply observe_before.
  - subst rf.
    change (LBegin depth event :: LStore ?c :: ?l)
      with (LBegin depth event :: LStore c :: [] ++ l) in Hin.
    rewrite opening_commits in Hin by reflexivity.
    exfalso.
    destruct (finishTransition_summary env (observe env (begun env st event))
                event true (begun env st event))
      as (_ & _ & _ & _ & Hc & _).
    now rewrite (Hc eq_refl) in Hin.
Qed.

End CommitFailure.

(** X6: when the adapter's commit fails, the operation fails with the
    adapter's error and no after-handler is called.  The entries and the
    index are what they were, but the transition set at the start is still
    in the cell: the engine writes nothing after a failed commit. *)
Theorem commit_failure (W : Type) (env : Env W) (q : Request) (st : Engine W)
  (to : Destination) (event : TransitionEvent) (e : NavigationError) :
  validBound env ->
  let r := request env q st in
  In (to, event, Some e) (commits (log r)) ->
  outcome r = Failed e
  /\ afterPolls (log r) = []
  /\ entries (observe env (final r)) = entries (observe env st)
  /\ index (observe env (final r)) = index (observe env st)
  /\ transition (observe env (final r)) = Some event.
Proof.
  intros Hvalid r. subst r.
  destruct (request_launched env q st)
    as [-> | [(x & -> & _) | (ev0 & n & -> & _ & _)]];
    [intros [] | intros [] |].
  intros Hin.
  destruct (path_commit_failed Hvalid
              (runNavigationEvent_path env redirectFuel 0 ev0 (skips q)
                 (withDrawn st n)) to event e Hin)
    as (Hout & Hafter & ->).
  now repeat split.
Qed.

Lemma commit_failure_witness :
  let r := request Visited.offline
             (ReqNavigate (inl "/foo/2"%string) Scenario.plain false)
             Scenario.start in
  outcome r = Failed {| cause := "offline" |}
  /\ entries (observe Visited.offline (final r)) = [Scenario.first]
  /\ transition (observe Visited.offline (final r)) = Some Scenario.toSecond.
Proof.
  cbv zeta.
  destruct (@commit_failure Z Visited.offline
              (ReqNavigate (inl "/foo/2"%string) Scenario.plain false)
              Scenario.start Visited.second Scenario.toSecond
              {| cause := "offline" |})
    as (Hout & _ & Hes & _ & Htr).
  - unfold validBound. simpl. lia.
  - vm_compute. left. reflexivity.
  - split; [exact Hout |]. split; [| exact Htr].
    rewrite Hes. reflexivity.
Defined.

(** ** What an operation answers with *)

Section Answers.

Variable W : Type.
Variable env : Env W.

Implicit Types st : Engine W.

Lemma navigate_started p o skip st :
  started env st skip (navigate env p o skip st).
Proof.
  unfold navigate.
  destruct (navigateEvent_spec env p o st)
    as [(_ & Hrun) | (from & to & n & _ & _ & Hrun)].
  - left. unfold bind. rewrite Hrun. reflexivity.
  - run_step Hrun. rewrite run_eta.
    right. right. eexists; exists n. split; [reflexivity |].
    unfold settled, navigateType. cbn [ev_type].
    destruct (match opt_history o with Some h => h | None => HistoryAuto end);
      try destruct (String.eqb (d_key from) (d_key to)); exact I.
Qed.

Lemma traverseTo_started key info skip st :
  started env st skip (traverseTo env key info skip st).
Proof.
  destruct (currentEntry env st) as [from |] eqn:Hfrom.
  - destruct (findIndex_spec (fun e => String.eqb (d_key e) key)
                (entries (observe env st)))
      as [Hnone | (_ & target & Htarget & Hkey)].
    + right. left. exists from. split; [| exact Hfrom].
      unfold currentEntry in Hfrom. unfold traverseTo.
      run_step (get_eq env st). rewrite Hfrom.
      run_step (orThrow_some from st). now rewrite Hnone.
    + right. right.
      rewrite (@traverseTo_known _ env key info skip st from _ target Hfrom
                 eq_refl Htarget).
      eexists; exists (S (drawn st)). split; [reflexivity |].
      unfold settled. cbn [traversal ev_type ev_delta ev_to].
      exists target, (env_uuid env (drawn st)).
      apply String.eqb_eq in Hkey. rewrite Hkey.
      split; [rewrite <- Htarget; f_equal; lia |].
      split; [reflexivity | lia].
  - left. unfold currentEntry in Hfrom. unfold traverseTo.
    run_step (get_eq env st). now rewrite Hfrom.
Qed.

Lemma back_started info skip st : started env st skip (back env info skip st).
Proof.
  unfold back. run_step (get_eq env st).
  destruct (index (observe env st) =? 0).
  - destruct (JsArray.get (entries (observe env st)) (index (observe env st)))
      as [d |] eqn:Hd.
    + right. left. exists d. now split.
    + now left.
  - destruct (JsArray.get (entries (observe env st))
                          (index (observe env st) - 1)) as [previous |].
    + run_step (orThrow_some previous st). rewrite run_eta.
      apply traverseTo_started.
    + left. reflexivity.
Qed.

Lemma forward_started info skip st :
  started env st skip (forward env info skip st).
Proof.
  unfold forward. run_step (get_eq env st).
  destruct (index (observe env st) =? JsArray.len (entries (observe env st)) - 1).
  - destruct (JsArray.get (entries (observe env st)) (index (observe env st)))
      as [d |] eqn:Hd.
    + right. left. exists d. now split.
    + now left.
  - destruct (JsArray.get (entries (observe env st))
                          (index (observe env st) + 1)) as [next |].
    + run_step (orThrow_some next st). rewrite run_eta.
      apply traverseTo_started.
    + left. reflexivity.
Qed.

Lemma reload_started info skip st :
  started env st skip (reload env info skip st).
Proof.
  unfold reload. run_step (get_eq env st).
  destruct (JsArray.get (entries (observe env st)) (index (observe env st)))
    as [current |] eqn:Hcur.
  - run_step (orThrow_some current st). rewrite run_eta.
    right. right. eexists; exists (drawn st). rewrite withDrawn_same.
    split; [reflexivity |]. unfold settled. cbn [ev_type ev_to].
    now exists current.
  - left. reflexivity.
Qed.

Lemma updateCurrentEntry_started state st :
  started env st false (updateCurrentEntry env state st).
Proof.
  unfold updateCurrentEntry. run_step (get_eq env st).
  destruct (JsArray.get (entries (observe env st)) (index (observe env st)))
    as [current |].
  - run_step (orThrow_some current st). rewrite run_eta.
    right. right. eexists; exists (drawn st). rewrite withDrawn_same.
    split; [reflexivity | exact I].
  - left. reflexivity.
Qed.

Lemma request_started q st : started env st (skips q) (request env q st).
Proof.
  destruct q; simpl.
  - apply navigate_started.
  - apply back_started.
  - apply forward_started.
  - apply traverseTo_started.
  - apply reload_started.
  - apply updateCurrentEntry_started.
Qed.

Hypothesis Hvalid : validBound env.
Hypothesis Hnone : env_newNavigationState env = None.

Lemma finish_done st st2 event skip answer :
  wellFormed (observe env st) ->
  settled (observe env st) event ->
  observe env st2 = withTransition (observe env st) (Some event) ->
  let r := finishTransition env (withTransition (observe env st) (Some event))
                            event skip st2 in
  outcome r = Done answer ->
  transition (observe env (final r)) = None
  /\ exists current,
       currentEntry env (final r) = Some current
       /\ sameEntry answer current
       /\ (ev_type event <> Traverse -> answer = current).
Proof.
  intros Hwf Hsettled Hobs r Hdone. subst r.
  destruct (@finish_state _ env Hvalid st st2 event skip Hnone Hwf Hobs)
    as [(e & to & _ & Hout & _) | (to & lga & Hout & _ & _ & _ & Hm & _)];
    [congruence |].
  rewrite Hdone in Hout. injection Hout as <-.
  destruct (@finishTransition_answer _ env Hnone
              (withTransition (observe env st) (Some event)) event skip st2)
    as (to' & Hto & [(e & _ & Hout & _) | (Hout & _)]); [congruence |].
  cbv zeta in Hout. rewrite Hdone in Hout. injection Hout as <-.
  destruct Hm as (Htr & Hm). split; [exact Htr |].
  unfold currentEntry, settled in *.
  destruct (ev_type event).
  - destruct Hm as (_ & _ & _ & Hget).
    exists answer. split; [exact Hget |]. now repeat split.
  - destruct Hm as (_ & Hidx & Hget & _).
    exists answer. rewrite Hidx. split; [exact Hget |]. now repeat split.
  - destruct Hm as (Hes & Hidx).
    destruct Hsettled as (current & Hcur & Htarget).
    rewrite (Hto _ Htarget).
    exists current. rewrite Hes, Hidx. split; [exact Hcur |].
    now repeat split.
  - destruct Hm as (Hes & Hidx).
    destruct Hsettled as (target & id & Htarget & Hev & _).
    rewrite (Hto _ Hev).
    exists target. rewrite Hes, (Hidx (get_some_range _ _ Htarget)).
    split; [exact Htarget |]. split; [now repeat split | congruence].
Qed.

Lemma path_done fuel depth event skip st r answer :
  Path env fuel depth event skip st r ->
  wellFormed (observe env st) ->
  settled (observe env st) event ->
  outcome r = Done answer ->
  transition (observe env (final r)) = None
  /\ exists current,
       currentEntry env (final r) = Some current
       /\ sameEntry answer current
       /\ (ev_type event <> Traverse -> answer = current).
Proof.
  intros H.
  path_cases H; intros Hwf Hsettled Hdone; cbn [final log outcome] in *.
  - discriminate.
  - discriminate.
  - discriminate.
  - injection Hdone as <-.
    assert (observe env (final rb)
            = withTransition (observe env st) (Some event)) as Hobs
        by (subst rb; now apply observe_before).
    assert (observe env (withCell (final rb) stored)
            = withTransition (observe env st) None) as Hfinal.
    { unfold observe at 1. cbn [cell withCell]. subst stored. rewrite Hobs.
      rewrite cellTransform_idem by assumption.
      change (withTransition (withTransition (observe env st) (Some event)) None)
        with (withTransition (observe env st) None).
      apply readable_withTransition. now apply observe_readable. }
    unfold currentEntry. rewrite Hfinal. split; [reflexivity |].
    rewrite Hobs in Hget. exists from. now repeat split.
  - assert (observe env (final rm)
            = withTransition (observe env st) (Some event)) as Hobs
        by (subst rm rb; now apply observe_redirected).
    destruct (redirect_event_type env (env_origin env) redirect from
                (final rb) ltac:(subst rm; exact Hev)) as (Hrep & _).
    destruct IH as (Htr & current & Hcur & Hsame & Heq).
    + now rewrite Hobs.
    + unfold settled. now rewrite Hrep.
    + exact Hdone.
    + split; [exact Htr |]. exists current.
      split; [exact Hcur |]. split; [exact Hsame |].
      intros _. apply Heq. rewrite Hrep. discriminate.
  - subst rf. rewrite (@observe_begun _ env st event Hvalid) in *.
    assert (observe env (final rb)
            = withTransition (observe env st) (Some event)) as Hobs
        by (subst rb; now apply observe_before).
    exact (@finish_done st (final rb) event false answer Hwf Hsettled Hobs
             Hdone).
  - subst rf. rewrite (@observe_begun _ env st event Hvalid) in *.
    pose proof (@observe_begun _ env st event Hvalid) as Hobs.
    exact (@finish_done st (begun env st event) event true answer Hwf
             Hsettled Hobs Hdone).
Qed.

End Answers.

(** ** The delta and the target of an event *)

(** C9, as the code has it: every replace and every reload event the
    engine begins has delta 0, and every push event has delta 1.  A
    traverse event is the first event of its request, and its delta is the
    signed distance from the current index to the index of its target: the
    entry at the index plus delta is the entry the event goes to (under a
    new id), and it is the first entry that carries its key, the one
    [findIndex] found. *)
Theorem request_deltas (W : Type) (env : Env W) (q : Request) (st : Engine W)
  (depth : nat) (event : TransitionEvent) :
  In (depth, event) (begins (log (request env q st))) ->
  let s := observe env st in
  match ev_type event with
  | Push => ev_delta event = 1
  | Replace | Reload => ev_delta event = 0
  | Traverse =>
      depth = 0%nat
      /\ 0 <= index s + ev_delta event < JsArray.len (entries s)
      /\ exists target id,
           JsArray.get (entries s) (index s + ev_delta event) = Some target
           /\ ev_to event = Materialized {| d_id := id;
                                            d_key := d_key target;
                                            d_url := d_url target;
                                            d_state := d_state target;
                                            d_sameDocument :=
                                              d_sameDocument target |}
           /\ ev_delta event
              = JsArray.findIndex (fun e => String.eqb (d_key e) (d_key target))
                                  (entries s)
                - index s
  end.
Proof.
  intros Hin. cbv zeta.
  destruct (request_launched env q st)
    as [Hr | [(x & Hr & _) | (first & n & Hr & Hrule & Hfits)]];
    [rewrite Hr in Hin; destruct Hin | rewrite Hr in Hin; destruct Hin |].
  pose proof (runNavigationEvent_path env redirectFuel 0 first (skips q)
                (withDrawn st n)) as Hpath.
  rewrite Hr in Hin.
  pose proof (path_deltas Hpath Hrule depth event Hin) as Hdelta.
  unfold deltaRule in Hdelta.
  destruct (ev_type event) eqn:Htype; try exact Hdelta.
  destruct (path_later_replace Hpath depth event Hin) as [[= -> ->] | Hreplace];
    [| congruence].
  split; [reflexivity |]. split; [now apply Hfits |].
  destruct (request_started env q st)
    as [Hs | [(x & Hs & _) | (first' & n' & Hs & Hsettled)]];
    [rewrite Hr in Hs | rewrite Hr in Hs |].
  - apply (f_equal (fun r => begins (log r))) in Hs.
    destruct (path_first_begin Hpath) as [Hfuel | (rest & Hfirst)];
      [discriminate | rewrite Hfirst in Hs; discriminate].
  - apply (f_equal (fun r => begins (log r))) in Hs.
    destruct (path_first_begin Hpath) as [Hfuel | (rest & Hfirst)];
      [discriminate | rewrite Hfirst in Hs; discriminate].
  - assert (first' = first) as ->.
    { rewrite Hr in Hs. apply (f_equal (fun r => begins (log r))) in Hs.
      destruct (path_first_begin Hpath) as [Hfuel | (rest & Hfirst)];
        [discriminate |].
      destruct (path_first_begin
                  (runNavigationEvent_path env redirectFuel 0 first' (skips q)
                     (withDrawn st n'))) as [Hfuel | (rest' & Hfirst')];
        [discriminate |].
      rewrite Hfirst, Hfirst' in Hs. now injection Hs as -> _. }
    unfold settled in Hsettled. rewrite Htype in Hsettled.
    destruct Hsettled as (target & id & Htarget & Hto & Hfound).
    exists target, id. split; [exact Htarget |]. split; [exact Hto |]. lia.
Qed.

Lemma request_deltas_witness :
  let s := observe Scenario.env Visited.three in
  let event := traversal Scenario.env Visited.three Visited.third
                 Scenario.first 0 JsUndefined in
  ev_delta event = -2
  /\ JsArray.findIndex
       (fun e => String.eqb (d_key e) (d_key Scenario.first)) (entries s) = 0
  /\ (0%nat = 0%nat
      /\ 0 <= index s + ev_delta event < JsArray.len (entries s)
      /\ exists target id,
           JsArray.get (entries s) (index s + ev_delta event) = Some target
           /\ ev_to event = Materialized {| d_id := id;
                                            d_key := d_key target;
                                            d_url := d_url target;
                                            d_state := d_state target;
                                            d_sameDocument :=
                                              d_sameDocument target |}
           /\ ev_delta event
              = JsArray.findIndex (fun e => String.eqb (d_key e) (d_key target))
                                  (entries s)
                - index s).
Proof.
  cbv zeta. split; [vm_compute; reflexivity |].
  split; [vm_compute; reflexivity |].
  apply (@request_deltas Z Scenario.env
           (ReqTraverseTo (Scenario.uuid 1) JsUndefined false)
           Visited.three 0
           (traversal Scenario.env Visited.three Visited.third
              Scenario.first 0 JsUndefined)).
  vm_compute. left. reflexivity.
Defined.

(** C9 as stated fails for a push: the event [navigate] begins for a new
    path has type push and delta 1. *)
Lemma request_deltas_counterexample :
  In (0%nat, Scenario.toSecond)
     (begins (log (request Scenario.env
                     (ReqNavigate (inl "/foo/2"%string) Scenario.plain false)
                     Scenario.start)))
  /\ ev_type Scenario.toSecond = Push
  /\ ev_delta Scenario.toSecond <> 0.
Proof.
  split; [vm_compute; left; reflexivity |].
  split; [reflexivity | vm_compute; discriminate].
Qed.

(** X7: an operation that answers leaves no transition in flight.  From a
    state without a transition, whichever way the operation went (nothing
    to do, cancelled, redirected, committed or run with [skipCommit]), the
    transition read from the cell once the operation has answered is
    [None], and the two registries of handlers are what they were. *)
Theorem request_clears_transition (W : Type) (env : Env W) (q : Request)
  (st : Engine W) (answer : Destination) :
  validBound env ->
  env_newNavigationState env = None ->
  wellFormed (observe env st) ->
  transition (observe env st) = None ->
  let r := request env q st in
  outcome r = Done answer ->
  transition (observe env (final r)) = None
  /\ beforeHandlers (final r) = beforeHandlers st
  /\ handlers (final r) = handlers st.
Proof.
  intros Hvalid Hnone Hwf Hidle r. subst r.
  destruct (request_started env q st)
    as [-> | [(x & -> & _) | (event & n & -> & Hsettled)]].
  - discriminate.
  - intros _. now repeat split.
  - intros Hdone.
    pose proof (runNavigationEvent_path env redirectFuel 0 event (skips q)
                  (withDrawn st n)) as Hpath.
    destruct (path_done Hvalid Hnone Hpath Hwf Hsettled Hdone) as (Htr & _).
    split; [exact Htr |]. exact (path_registries Hpath).
Qed.

Lemma request_clears_transition_witness :
  let r := request Scenario.env
             (ReqNavigate (inl "/foo/2"%string) Scenario.plain false)
             (Scenario.withBefore Scenario.detour) in
  outcome r = Done {| d_id := Scenario.uuid 4; d_key := Scenario.uuid 5;
                      d_url := Scenario.page "/bar/42";
                      d_state := JsUndefined; d_sameDocument := true |}
  /\ transition (observe Scenario.env (final r)) = None.
Proof.
  cbv zeta.
  destruct (@request_clears_transition Z Scenario.env
              (ReqNavigate (inl "/foo/2"%string) Scenario.plain false)
              (Scenario.withBefore Scenario.detour)
              {| d_id := Scenario.uuid 4; d_key := Scenario.uuid 5;
                 d_url := Scenario.page "/bar/42";
                 d_state := JsUndefined; d_sameDocument := true |})
    as (Htr & _).
  - unfold validBound. simpl. lia.
  - reflexivity.
  - split; vm_compute; [discriminate | reflexivity].
  - reflexivity.
  - vm_compute. reflexivity.
  - split; [vm_compute; reflexivity | exact Htr].
Defined.

(** X8: the destination an operation answers with is the entry that is
    current once it has answered.  For [navigate], [reload],
    [updateCurrentEntry] and for any operation that was cancelled or
    redirected the answer is that entry itself; for a traversal the answer
    has the key, the URL, the state and the sameDocument flag of the
    current entry, under an id of its own. *)
Theorem request_answers_current (W : Type) (env : Env W) (q : Request)
  (st : Engine W) (answer : Destination) :
  validBound env ->
  env_newNavigationState env = None ->
  wellFormed (observe env st) ->
  let r := request env q st in
  outcome r = Done answer ->
  exists current,
    currentEntry env (final r) = Some current
    /\ d_key answer = d_key current
    /\ d_url answer = d_url current
    /\ d_state answer = d_state current
    /\ d_sameDocument answer = d_sameDocument current
    /\ ((forall depth event,
            In (depth, event) (firstn 1 (begins (log r))) ->
            ev_type event <> Traverse) ->
        answer = current).
Proof.
  intros Hvalid Hnone Hwf r. subst r.
  destruct (request_started env q st)
    as [-> | [(x & -> & Hx) | (event & n & -> & Hsettled)]].
  - discriminate.
  - intros [= <-]. exists x. now repeat split.
  - intros Hdone.
    pose proof (runNavigationEvent_path env redirectFuel 0 event (skips q)
                  (withDrawn st n)) as Hpath.
    destruct (path_done Hvalid Hnone Hpath Hwf Hsettled Hdone)
      as (_ & current & Hcur & (Hk & Hu & Hs & Hd) & Heq).
    exists current. repeat (split; [assumption |]).
    intros Hfirst. apply Heq.
    destruct (path_first_begin Hpath) as [Hfuel | (rest & Hbegins)];
      [discriminate |].
    apply (Hfirst 0%nat). rewrite Hbegins. now left.
Qed.

Lemma request_answers_current_witness :
  let r := request Scenario.env (ReqReload JsUndefined false) Visited.middle in
  outcome r = Done Visited.second
  /\ currentEntry Scenario.env (final r) = Some Visited.second.
Proof.
  cbv zeta.
  destruct (@request_answers_current Z Scenario.env
              (ReqReload JsUndefined false) Visited.middle Visited.second)
    as (current & Hcur & _ & _ & _ & _ & Heq).
  - unfold validBound. simpl. lia.
  - reflexivity.
  - split; vm_compute; [discriminate | reflexivity].
  - vm_compute. reflexivity.
  - split; [vm_compute; reflexivity |].
    rewrite Hcur. f_equal. symmetry. apply Heq.
    vm_compute. intros depth event [[= <- <-] | []]. discriminate.
Defined.

(** ** Registering and releasing handlers *)

Lemma deleteBefore_middle {W} (h : BeforeNavigationHandler W) l1 l2 :
  ~ In (bh_name h) (map (@bh_name W) l1) ->
  deleteBefore (bh_name h) (l1 ++ h :: l2) = l1 ++ l2.
Proof.
  induction l1 as [| k l1 IH]; simpl.
  - intros _. now rewrite Nat.eqb_refl.
  - intros Hfresh. destruct (Nat.eqb_spec (bh_name k) (bh_name h)) as [Heq | _].
    + contradiction Hfresh. now left.
    + f_equal. apply IH. intros Hin. apply Hfresh. now right.
Qed.

Lemma firstn_In {A} (n : nat) (l : list A) (x : A) :
  In x (firstn n l) -> In x l.
Proof.
  revert l. induction n as [| n IH]; intros [| y l]; simpl; try tauto.
  intros [-> | Hin]; [now left | right; now apply IH].
Qed.

Lemma opening_beforePolls d ev c lb rest :
  beforePolls (LBegin d ev :: LStore c :: lb ++ rest)
  = beforePolls lb ++ beforePolls rest.
Proof. unfold beforePolls. simpl. now rewrite filterMap_app. Qed.

Section Registered.

Variable W : Type.
Variable env : Env W.

Implicit Types st : Engine W.

(** Only registered handlers are polled. *)
Lemma before_polls_registered event st :
  forall n e a,
    In (n, e, a) (beforePolls (log (runBeforeHandlers env event st))) ->
    In n (map (@bh_name W) (beforeHandlers st)).
Proof.
  intros n e a Hin.
  destruct (runBeforeHandlers_spec env event st)
    as (polls & runs & w & _ & Hlog & Hcases).
  cbv zeta in *. rewrite Hlog in Hin.
  unfold beforePolls in Hin. rewrite filterMap_app in Hin.
  apply in_app_or in Hin. destruct Hin as [Hin | Hin].
  - apply filterMap_in in Hin. destruct Hin as (x & Hx & Hf).
    apply in_map_iff in Hx. destruct Hx as ([n0 a0] & <- & Hp).
    simpl in Hf. injection Hf as <- _ _.
    assert (In n0 (map fst polls)) as Hn
        by (apply in_map_iff; now exists (n0, a0)).
    destruct Hcases as [(done & k & e0 & _ & _ & Hnames & _) | (Hnames & _)];
      rewrite Hnames in Hn; [| exact Hn].
    now apply firstn_In in Hn.
  - apply filterMap_in in Hin. destruct Hin as (x & Hx & Hf).
    apply in_map_iff in Hx. destruct Hx as ([n0 f0] & <- & _).
    discriminate.
Qed.

Lemma path_polls_registered fuel depth event skip st r :
  Path env fuel depth event skip st r ->
  forall n e a,
    In (n, e, a) (beforePolls (log r)) ->
    In n (map (@bh_name W) (beforeHandlers st)).
Proof.
  intros H. path_cases H; intros n e a Hin; cbn [log] in Hin.
  - contradiction.
  - subst rb. rewrite <- (app_nil_r (log _)) in Hin.
    rewrite opening_beforePolls, app_nil_r in Hin.
    now apply before_polls_registered in Hin.
  - subst rb. rewrite <- (app_nil_r (log _)) in Hin.
    rewrite opening_beforePolls, app_nil_r in Hin.
    now apply before_polls_registered in Hin.
  - subst rb. rewrite opening_beforePolls in Hin.
    apply in_app_or in Hin. destruct Hin as [Hin | []].
    now apply before_polls_registered in Hin.
  - rewrite opening_beforePolls in Hin.
    apply in_app_or in Hin. destruct Hin as [Hin | Hin].
    + subst rb. now apply before_polls_registered in Hin.
    + apply IH in Hin. subst rm.
      destruct (redirect_registries env (env_origin env) redirect from
                  (final rb)) as (Hb & _).
      cbv zeta in Hb. rewrite Hb in Hin. subst rb.
      destruct (before_registries env event (begun env st event))
        as (Hb' & _).
      rewrite Hb' in Hin. exact Hin.
  - rewrite opening_beforePolls in Hin.
    apply in_app_or in Hin. destruct Hin as [Hin | Hin].
    + subst rb. now apply before_polls_registered in Hin.
    + subst rf.
      destruct (finishTransition_summary env
                  (observe env (begun env st event)) event false (final rb))
        as (_ & _ & Hp & _).
      now rewrite Hp in Hin.
  - change (LBegin depth event :: LStore ?c :: ?l)
      with (LBegin depth event :: LStore c :: [] ++ l) in Hin.
    rewrite opening_beforePolls in Hin. simpl in Hin. subst rf.
    destruct (finishTransition_summary env
                (observe env (begun env st event)) event true
                (begun env st event))
      as (_ & _ & Hp & _).
    now rewrite Hp in Hin.
Qed.

Lemma register_all (hs : list (BeforeNavigationHandler W)) st :
  fold_left (fun s k => final (beforeNavigation k s)) hs st
  = {| cell := cell st;
       beforeHandlers := beforeHandlers st ++ hs;
       handlers := handlers st;
       drawn := drawn st;
       world := world st |}.
Proof.
  revert st. induction hs as [| k hs IH]; intros st; simpl.
  - rewrite app_nil_r. now destruct st.
  - rewrite IH. simpl. now rewrite <- app_assoc.
Qed.

End Registered.

(** X10: releasing a before-handler takes its registration, and only that
    one, out of the registry.  When the handler was registered under a
    name of its own, and whatever was registered after it, the release
    leaves the handlers registered before and after it in their order,
    touches nothing else of the engine, and no operation polls the handler
    again. *)
Theorem release_unregisters (W : Type) (env : Env W)
  (h : BeforeNavigationHandler W) (later : list (BeforeNavigationHandler W))
  (q : Request) (st : Engine W) :
  ~ In (bh_name h) (map (@bh_name W) (beforeHandlers st)) ->
  ~ In (bh_name h) (map (@bh_name W) later) ->
  let registered :=
    fold_left (fun s k => final (beforeNavigation k s)) (h :: later) st in
  let released := final (releaseBeforeNavigation h registered) in
  beforeHandlers registered = beforeHandlers st ++ h :: later
  /\ released = fold_left (fun s k => final (beforeNavigation k s)) later st
  /\ beforeHandlers released = beforeHandlers st ++ later
  /\ forall n e a,
       In (n, e, a) (beforePolls (log (request env q released))) ->
       n <> bh_name h.
Proof.
  intros Hfresh Hlater registered released.
  assert (beforeHandlers registered = beforeHandlers st ++ h :: later)
    as Hregistered by (unfold registered; now rewrite register_all).
  assert (released
          = fold_left (fun s k => final (beforeNavigation k s)) later st)
    as Hreleased.
  { unfold released, releaseBeforeNavigation. cbn [final].
    rewrite Hregistered, deleteBefore_middle by assumption.
    unfold registered. now rewrite !register_all. }
  assert (beforeHandlers released = beforeHandlers st ++ later) as Hnames
      by (rewrite Hreleased; now rewrite register_all).
  split; [exact Hregistered |]. split; [exact Hreleased |].
  split; [exact Hnames |].
  intros n e a Hin Heq. subst n.
  assert (In (bh_name h) (map (@bh_name W) (beforeHandlers released)))
    as Hpolled.
  { destruct (request_launched env q released)
      as [Hr | [(x & Hr & _) | (ev0 & k & Hr & _)]];
      rewrite Hr in Hin; [contradiction | contradiction |].
    exact (path_polls_registered
             (runNavigationEvent_path env redirectFuel 0 ev0 (skips q)
                (withDrawn released k)) _ _ _ Hin). }
  rewrite Hnames, map_app in Hpolled.
  apply in_app_or in Hpolled. tauto.
Qed.

Lemma release_unregisters_witness :
  let registered :=
    fold_left (fun s k => final (beforeNavigation k s))
              [Scenario.refusing; Scenario.counting] Scenario.start in
  let released := final (releaseBeforeNavigation Scenario.refusing registered) in
  map (@bh_name Z) (beforeHandlers registered) = [4%nat; 1%nat]
  /\ map (@bh_name Z) (beforeHandlers released) = [1%nat]
  /\ forall n e a,
       In (n, e, a)
          (beforePolls (log (request Scenario.env
                               (ReqReload JsUndefined false) released))) ->
       n <> 4%nat.
Proof.
  cbv zeta.
  destruct (@release_unregisters Z Scenario.env Scenario.refusing
              [Scenario.counting] (ReqReload JsUndefined false) Scenario.start)
    as (Hregistered & _ & Hreleased & Hpolls).
  - simpl. tauto.
  - simpl. intros [[=] | []].
  - split; [now rewrite Hregistered |].
    split; [now rewrite Hreleased | exact Hpolls].
Defined.

(** ** Updating the current entry *)

Section Updates.

Variable W : Type.
Variable env : Env W.
Hypothesis Hvalid : validBound env.
Hypothesis Hnone : env_newNavigationState env = None.

Implicit Types st : Engine W.

Lemma updateCurrentEntry_known state st current :
  currentEntry env st = Some current ->
  updateCurrentEntry env state st
  = runNavigationEvent env redirectFuel (restatement current state) 0 false st.
Proof.
  unfold currentEntry. intros Hcur. unfold updateCurrentEntry.
  run_step (get_eq env st). rewrite Hcur.
  run_step (orThrow_some current st). now rewrite run_eta.
Qed.

Lemma updateCurrentEntry_quiet state st current answer :
  wellFormed (observe env st) ->
  currentEntry env st = Some current ->
  let r := updateCurrentEntry env state st in
  failures (log r) = [] ->
  outcome r = Done answer ->
  answer = restated current state
  /\ commits (log r) = [(answer, restatement current state, None)]
  /\ transition (observe env (final r)) = None
  /\ JsArray.len (entries (observe env (final r)))
     = JsArray.len (entries (observe env st))
  /\ index (observe env (final r)) = index (observe env st)
  /\ currentEntry env (final r) = Some answer
  /\ (forall i, i <> index (observe env st) ->
                JsArray.get (entries (observe env (final r))) i
                = JsArray.get (entries (observe env st)) i).
Proof.
  intros Hwf Hcur r. subst r.
  rewrite (updateCurrentEntry_known state st Hcur).
  intros Hquiet Hdone.
  destruct (path_quiet_done Hvalid Hnone
              (runNavigationEvent_path env redirectFuel 0
                 (restatement current state) false st)
              Hwf ltac:(unfold redirectFuel; lia) Hquiet Hdone)
    as (Hto & Hcommits & Htr & Hlen & Hidx & Hget & Hothers).
  split; [now apply Hto |]. split; [exact Hcommits |].
  split; [exact Htr |]. split; [exact Hlen |]. split; [exact Hidx |].
  split; [| exact Hothers].
  unfold currentEntry. now rewrite Hidx.
Qed.

(** A run that answers went through both halves of a sequence. *)
Lemma bind_done_inv {A B} (m : M W A) (f : A -> M W B) st b :
  outcome (bind m f st) = Done b ->
  exists a,
    outcome (m st) = Done a
    /\ bind m f st
       = mkRun (final (f a (final (m st))))
               (log (m st) ++ log (f a (final (m st))))
               (outcome (f a (final (m st)))).
Proof.
  unfold bind. destruct (outcome (m st)) as [a | e | msg |] eqn:Hout;
    cbn [outcome]; try discriminate.
  intros _. now exists a.
Qed.

End Updates.

(** ** The history adapter *)

(** X11: what the history adapter's commit writes is read back by
    [makeDestination].  For a push, a replace and a traverse the commit
    hands the host exactly one state, the marker made of the id, the key
    and the state of the destination, and never fails; a reload writes
    none.  The marker is a patched state whose original state is the
    destination's, and [makeDestination] (so also the cell
    [setupWithHistory] builds after a page load) makes of it, at the
    destination's URL, the destination again, with its id and key and
    without drawing an identifier. *)
Theorem history_marker_roundtrip (U : Type) (env : Env (U * list HostCall))
  (to : Destination) (event : TransitionEvent) (u : U) (host : list HostCall)
  (origin : string) (st : Engine (U * list HostCall)) :
  exists calls,
    historyCommit to event (u, host) = ((u, host ++ calls), None)
    /\ filterMap writtenState calls
       = match ev_type event with
         | Reload => []
         | _ => [JsMarked (d_id to) (d_key to) (d_state to)]
         end
    /\ forall data,
         In data (filterMap writtenState calls) ->
         let read := {| d_id := d_id to;
                        d_key := d_key to;
                        d_url := d_url to;
                        d_state := d_state to;
                        d_sameDocument :=
                          String.eqb (url_origin (d_url to)) origin |} in
         isPatchedState data = true
         /\ getOriginalState data = d_state to
         /\ makeDestination env (d_url to) data origin st
            = mkRun st [] (Done read)
         /\ setupWithHistory env (d_url to) data origin st
            = mkRun st []
                (Done {| entries := [read]; index := 0; transition := None |}).
Proof.
  unfold historyCommit.
  destruct (ev_type event); eexists; (split; [reflexivity |]);
    (split; [reflexivity |]); simpl; intros data Hin;
    try contradiction; destruct Hin as [<- | []];
    repeat split; destruct st; reflexivity.
Qed.

Section HistoryEvents.

Variable U : Type.
Variable env : Env (U * list HostCall).
Hypothesis Hvalid : validBound env.
Hypothesis Hnone : env_newNavigationState env = None.

Implicit Types st : Engine (U * list HostCall).

Lemma handle_traverse delta skip st from :
  wellFormed (observe env st) ->
  NoDup (map d_key (entries (observe env st))) ->
  currentEntry env st = Some from ->
  let s := observe env st in
  let toIndex :=
    Z.min (Z.max 0 (index s + delta)) (JsArray.len (entries s) - 1) in
  exists target,
    JsArray.get (entries s) toIndex = Some target
    /\ handleHistoryEvent env (TraverseEvent delta skip) st
       = runNavigationEvent env redirectFuel
           (traversal env st from target toIndex JsUndefined) 0 skip
           (withDrawn st (S (drawn st))).
Proof.
  intros Hwf Hnodup Hfrom s toIndex.
  destruct (get_in_range (entries s) (i := toIndex)) as (target & Htarget);
    [unfold wellFormed in Hwf; subst toIndex s; lia |].
  exists target. split; [exact Htarget |].
  unfold handleHistoryEvent. run_step (get_eq env st).
  fold s. fold toIndex. rewrite Htarget.
  run_step (orThrow_some target st). rewrite run_eta.
  apply traverseTo_known; [exact Hfrom | | exact Htarget].
  now apply findIndex_key.
Qed.

End HistoryEvents.

(** X12: a traversal asked of the patched [history] ([go], [back],
    [forward]) never leaves the entries: among entries of distinct keys the
    engine begins a traverse transition to the entry at the index clipped
    to the list, [min(max(0, index + delta), length - 1)].  At the first
    entry [history.back()] is therefore a traverse transition of delta 0
    to the current entry itself, with handlers and commit run, and not the
    no-op that [back] of the engine is. *)
Theorem history_traverse_clamped (U : Type) (env : Env (U * list HostCall))
  (delta : Z) (skip : bool) (st : Engine (U * list HostCall)) :
  wellFormed (observe env st) ->
  NoDup (map d_key (entries (observe env st))) ->
  let s := observe env st in
  let toIndex :=
    Z.min (Z.max 0 (index s + delta)) (JsArray.len (entries s) - 1) in
  let r := handleHistoryEvent env (TraverseEvent delta skip) st in
  exists from target event more,
    currentEntry env st = Some from
    /\ JsArray.get (entries s) toIndex = Some target
    /\ event = {| ev_type := Traverse;
                  ev_from := from;
                  ev_to := Materialized
                             {| d_id := env_uuid env (drawn st);
                                d_key := d_key target;
                                d_url := d_url target;
                                d_state := d_state target;
                                d_sameDocument := d_sameDocument target |};
                  ev_delta := toIndex - index s;
                  ev_info := JsUndefined |}
    /\ r = runNavigationEvent env redirectFuel event 0 skip
                              (withDrawn st (S (drawn st)))
    /\ begins (log r) = (0%nat, event) :: more
    /\ 0 <= index s + ev_delta event < JsArray.len (entries s).
Proof.
  intros Hwf Hnodup s toIndex r.
  destruct (get_in_range (entries s) Hwf) as (from & Hfrom).
  destruct (@handle_traverse U env delta skip st from Hwf Hnodup Hfrom)
    as (target & Htarget & Hrun).
  fold s toIndex in Htarget, Hrun.
  pose proof (runNavigationEvent_path env redirectFuel 0
                (traversal env st from target toIndex JsUndefined) skip
                (withDrawn st (S (drawn st)))) as Hpath.
  destruct (path_first_begin Hpath) as [Hfuel | (more & Hbegins)];
    [discriminate |].
  exists from, target, (traversal env st from target toIndex JsUndefined),
    more.
  split; [exact Hfrom |]. split; [exact Htarget |].
  split; [reflexivity |]. split; [exact Hrun |].
  split; [unfold r; rewrite Hrun; exact Hbegins |].
  cbn [traversal ev_delta]. fold s.
  unfold wellFormed in Hwf. fold s in Hwf. lia.
Qed.

Lemma history_traverse_clamped_witness :
  let r := handleHistoryEvent Visited.window PatchedHistory.back
                              Visited.windowStart in
  exists event more,
    begins (log r) = (0%nat, event) :: more
    /\ ev_type event = Traverse
    /\ ev_delta event = 0.
Proof.
  cbv zeta.
  destruct (@history_traverse_clamped unit Visited.window (-1) false
              Visited.windowStart)
    as (from & target & event & more & _ & _ & Hevent & _ & Hbegins & _).
  - split; vm_compute; [discriminate | reflexivity].
  - vm_compute. repeat constructor. simpl. tauto.
  - exists event, more. split; [exact Hbegins |].
    rewrite Hevent. split; reflexivity.
Defined.

Section Navigations.

Variable W : Type.
Variable env : Env W.
Hypothesis Hvalid : validBound env.
Hypothesis Hnone : env_newNavigationState env = None.

Implicit Types st : Engine W.

(** A navigation that no handler objects to and that the adapter
    commits. *)
Lemma navigate_quiet p o skip st answer :
  wellFormed (observe env st) ->
  let r := navigate env p o skip st in
  failures (log r) = [] ->
  outcome r = Done answer ->
  exists from n,
    currentEntry env st = Some from
    /\ makeOrUpdateDestination env (observe env st)
         (getUrl env (env_origin env) p) (opt_state o) (env_origin env) st
       = mkRun (withDrawn st n) [] (Done answer)
    /\ currentEntry env (final r) = Some answer
    /\ transition (observe env (final r)) = None.
Proof.
  intros Hwf r. subst r. unfold navigate.
  destruct (navigateEvent_spec env p o st)
    as [(Hcur & _) | (from & to & n & Hfrom & Hmake & Hrun)].
  - destruct (get_in_range (entries (observe env st)) Hwf) as (x & Hx).
    congruence.
  - run_step Hrun.
    set (event := {| ev_type := navigateType o from to;
                     ev_from := from;
                     ev_to := Materialized to;
                     ev_delta := if type_eqb (navigateType o from to) Replace
                                 then 0 else 1;
                     ev_info := opt_info o |}).
    intros Hquiet Hdone.
    destruct (path_quiet_done Hvalid Hnone
                (runNavigationEvent_path env redirectFuel 0 event skip
                   (withDrawn st n))
                Hwf ltac:(unfold redirectFuel; lia) Hquiet Hdone)
      as (Hto & _ & Htr & Hm).
    rewrite (Hto to eq_refl) in *.
    exists from, n. split; [exact Hfrom |]. split; [exact Hmake |].
    split; [| exact Htr].
    unfold currentEntry.
    change (observe env (withDrawn st n)) with (observe env st) in Hm.
    assert (ev_type event = Push \/ ev_type event = Replace) as [Ht | Ht].
    { unfold event, navigateType. cbn [ev_type].
      destruct (match opt_history o with Some h => h | None => HistoryAuto end);
        try destruct (String.eqb (d_key from) (d_key to)); tauto. }
    + rewrite Ht in Hm. now destruct Hm as (_ & _ & _ & Hget).
    + rewrite Ht in Hm. destruct Hm as (_ & Hidx & Hget & _).
      now rewrite Hidx.
Qed.

End Navigations.

(** X13: the state handed to the patched [history.pushState] together
    with a URL does not reach the engine.  The shim turns the call into a
    navigation with no option at all: when no handler objects and the
    operation answers, the destination it answers with, which is the
    current entry from then on, has the URL asked for and the state
    [undefined], whatever state the caller passed. *)
Theorem history_pushState_drops_state (U : Type)
  (env : Env (U * list HostCall)) (origin : string) (state : JsValue)
  (url : option (string + URL)) (u : string + URL)
  (st : Engine (U * list HostCall)) (answer : Destination) :
  validBound env ->
  env_newNavigationState env = None ->
  wellFormed (observe env st) ->
  PatchedHistory.truthy url = Some u ->
  let r := handleHistoryEvent env
             (PatchedHistory.pushState env origin state url) st in
  failures (log r) = [] ->
  outcome r = Done answer ->
  d_url answer = getUrl env origin u
  /\ d_state answer = JsUndefined
  /\ currentEntry env (final r) = Some answer
  /\ r = handleHistoryEvent env
           (PatchedHistory.pushState env origin JsUndefined url) st.
Proof.
  intros Hvalid Hnone Hwf Hurl r. subst r.
  unfold PatchedHistory.pushState. rewrite Hurl.
  cbn [handleHistoryEvent]. intros Hquiet Hdone.
  destruct (@navigate_quiet _ env Hvalid Hnone (inr (getUrl env origin u))
              noOptions false st answer Hwf Hquiet Hdone)
    as (from & n & Hfrom & Hmake & Hcur & _).
  destruct (makeOrUpdateDestination_spec env (observe env st)
              (getUrl env (env_origin env) (inr (getUrl env origin u)))
              (opt_state noOptions) (env_origin env) st Hfrom)
    as (to & n' & Hmake' & Hto_url & _ & Hcases).
  rewrite Hmake in Hmake'. injection Hmake' as _ <-.
  split; [exact Hto_url |]. split; [| split; [exact Hcur | reflexivity]].
  destruct (_ && _); cbn [opt_state noOptions] in Hcases; tauto.
Qed.

Lemma history_pushState_drops_state_witness :
  let r := handleHistoryEvent Visited.window
             (PatchedHistory.pushState Visited.window Scenario.site
                (JsOpaque "draft") (Some (inl "/foo/2"%string)))
             Visited.windowStart in
  outcome r = Done Visited.second
  /\ d_state Visited.second = JsUndefined
  /\ world (final r)
     = (tt, [HostPushState
               (JsMarked (Scenario.uuid 2) (Scenario.uuid 3) JsUndefined)
               (Scenario.page "/foo/2")]).
Proof.
  cbv zeta.
  destruct (@history_pushState_drops_state unit Visited.window Scenario.site
              (JsOpaque "draft") (Some (inl "/foo/2"%string))
              (inl "/foo/2"%string) Visited.windowStart Visited.second)
    as (_ & Hstate & _ & _).
  - exact I.
  - reflexivity.
  - split; vm_compute; [discriminate | reflexivity].
  - reflexivity.
  - vm_compute. reflexivity.
  - vm_compute. reflexivity.
  - split; [vm_compute; reflexivity |]. split; [exact Hstate |].
    vm_compute. reflexivity.
Defined.

(** X14: the patched [history.pushState] and [history.replaceState]
    without a URL do not add an entry: both become [updateCurrentEntry].
    When no handler objects and the operation answers, the current entry
    keeps its id, key and URL and takes the given state, the other entries
    and the index are what they were, and the adapter's commit is called
    once, with a replace event. *)
Theorem history_state_without_url (U : Type) (env : Env (U * list HostCall))
  (origin : string) (state : JsValue) (url : option (string + URL))
  (st : Engine (U * list HostCall)) (answer : Destination) :
  validBound env ->
  env_newNavigationState env = None ->
  wellFormed (observe env st) ->
  PatchedHistory.truthy url = None ->
  let r := handleHistoryEvent env
             (PatchedHistory.pushState env origin state url) st in
  failures (log r) = [] ->
  outcome r = Done answer ->
  r = handleHistoryEvent env
        (PatchedHistory.replaceState env origin state url) st
  /\ exists current event,
       currentEntry env st = Some current
       /\ answer = {| d_id := d_id current;
                      d_key := d_key current;
                      d_url := d_url current;
                      d_state := state;
                      d_sameDocument := d_sameDocument current |}
       /\ currentEntry env (final r) = Some answer
       /\ JsArray.len (entries (observe env (final r)))
          = JsArray.len (entries (observe env st))
       /\ index (observe env (final r)) = index (observe env st)
       /\ (forall i, i <> index (observe env st) ->
                     JsArray.get (entries (observe env (final r))) i
                     = JsArray.get (entries (observe env st)) i)
       /\ commits (log r) = [(answer, event, None)]
       /\ ev_type event = Replace.
Proof.
  intros Hvalid Hnone Hwf Hurl r. subst r.
  unfold PatchedHistory.pushState, PatchedHistory.replaceState.
  rewrite Hurl. cbn [handleHistoryEvent]. intros Hquiet Hdone.
  split; [reflexivity |].
  destruct (get_in_range (entries (observe env st)) Hwf) as (current & Hcur).
  destruct (@updateCurrentEntry_quiet _ env Hvalid Hnone state st current
              answer Hwf Hcur Hquiet Hdone)
    as (Hanswer & Hcommits & _ & Hlen & Hidx & Hafter & Hothers).
  exists current, (restatement current state).
  split; [exact Hcur |]. split; [exact Hanswer |]. split; [exact Hafter |].
  split; [exact Hlen |]. split; [exact Hidx |]. split; [exact Hothers |].
  split; [exact Hcommits | reflexivity].
Qed.

Lemma history_state_without_url_witness :
  let r := handleHistoryEvent Visited.window
             (PatchedHistory.pushState Visited.window Scenario.site
                (JsOpaque "draft") (Some (inl ""%string)))
             Visited.windowStart in
  currentEntry Visited.window (final r)
  = Some {| d_id := Scenario.uuid 0; d_key := Scenario.uuid 1;
            d_url := Scenario.page "/foo/1";
            d_state := JsOpaque "draft"; d_sameDocument := true |}
  /\ JsArray.len (entries (observe Visited.window (final r))) = 1.
Proof.
  cbv zeta.
  destruct (@history_state_without_url unit Visited.window Scenario.site
              (JsOpaque "draft") (Some (inl ""%string)) Visited.windowStart
              {| d_id := Scenario.uuid 0; d_key := Scenario.uuid 1;
                 d_url := Scenario.page "/foo/1";
                 d_state := JsOpaque "draft"; d_sameDocument := true |})
    as (_ & current & event & _ & _ & Hafter & Hlen & _).
  - exact I.
  - reflexivity.
  - split; vm_compute; [discriminate | reflexivity].
  - reflexivity.
  - vm_compute. reflexivity.
  - vm_compute. reflexivity.
  - split; [exact Hafter |]. rewrite Hlen. reflexivity.
Defined.

(** X15: a [popstate] event whose state is a patched marker brings the
    engine to the entry of the marker's key and gives that entry the
    marker's state.  The listener has the engine traverse with
    [skipCommit] and then update the current entry: when no handler
    objects and the operation answers, the index is the position of the
    (first) entry with the key, that entry keeps its id, key and URL and
    takes the state of the marker, the other entries are untouched, and
    the adapter's commit is called once, for the replace event only: the
    traversal itself is not committed. *)
Theorem history_popstate (U : Type) (env : Env (U * list HostCall))
  (marker_id marker_key : Uuid) (marker_state : JsValue) (href : URL)
  (st : Engine (U * list HostCall)) (i : Z) (target answer : Destination) :
  validBound env ->
  env_newNavigationState env = None ->
  wellFormed (observe env st) ->
  JsArray.findIndex (fun e => String.eqb (d_key e) marker_key)
                    (entries (observe env st)) = i ->
  JsArray.get (entries (observe env st)) i = Some target ->
  let r := handleHistoryEvent env
             (PatchedHistory.onPopState
                (JsMarked marker_id marker_key marker_state) href) st in
  failures (log r) = [] ->
  outcome r = Done answer ->
  answer = {| d_id := d_id target;
              d_key := d_key target;
              d_url := d_url target;
              d_state := marker_state;
              d_sameDocument := d_sameDocument target |}
  /\ index (observe env (final r)) = i
  /\ currentEntry env (final r) = Some answer
  /\ JsArray.len (entries (observe env (final r)))
     = JsArray.len (entries (observe env st))
  /\ (forall j, j <> i ->
                JsArray.get (entries (observe env (final r))) j
                = JsArray.get (entries (observe env st)) j)
  /\ exists event,
       commits (log r) = [(answer, event, None)] /\ ev_type event = Replace.
Proof.
  intros Hvalid Hnone Hwf Hi Htarget r. subst r.
  cbn [PatchedHistory.onPopState handleHistoryEvent].
  intros Hquiet Hdone.
  destruct (bind_done_inv _ _ _ Hdone) as (there & Hdone1 & Hrun).
  rewrite Hrun in Hquiet, Hdone |- *. cbn [final log outcome] in *.
  rewrite failures_app in Hquiet.
  apply app_eq_nil in Hquiet. destruct Hquiet as (Hquiet1 & Hquiet2).
  destruct (get_in_range (entries (observe env st)) Hwf) as (from & Hfrom).
  destruct (@traverseTo_quiet _ env Hvalid Hnone marker_key JsUndefined true
              st from i target there Hwf Hfrom Hi Htarget Hquiet1 Hdone1)
    as (_ & Hes1 & Hidx1 & _ & Hcommits1).
  set (st1 := final (traverseTo env marker_key JsUndefined true st)) in *.
  assert (wellFormed (observe env st1)) as Hwf1.
  { unfold wellFormed. rewrite Hes1, Hidx1.
    exact (get_some_range _ _ Htarget). }
  assert (currentEntry env st1 = Some target) as Hcur1
      by (unfold currentEntry; now rewrite Hes1, Hidx1).
  destruct (@updateCurrentEntry_quiet _ env Hvalid Hnone marker_state st1
              target answer Hwf1 Hcur1 Hquiet2 Hdone)
    as (Hanswer & Hcommits2 & _ & Hlen & Hidx & Hafter & Hothers).
  split; [exact Hanswer |]. split; [now rewrite Hidx |].
  split; [exact Hafter |]. split; [now rewrite Hlen, Hes1 |].
  split.
  - intros j Hj. rewrite Hothers by (rewrite Hidx1; exact Hj).
    now rewrite Hes1.
  - exists (restatement target marker_state).
    split; [| reflexivity].
    rewrite <- commits_app, Hcommits1, Hcommits2. reflexivity.
Qed.

Lemma history_popstate_witness :
  let r := handleHistoryEvent Visited.window
             (PatchedHistory.onPopState
                (JsMarked (Scenario.uuid 0) (Scenario.uuid 1)
                          (JsOpaque "restored"))
                (Scenario.page "/foo/1"))
             Visited.windowTwo in
  index (observe Visited.window (final r)) = 0
  /\ currentEntry Visited.window (final r)
     = Some {| d_id := Scenario.uuid 0; d_key := Scenario.uuid 1;
               d_url := Scenario.page "/foo/1";
               d_state := JsOpaque "restored"; d_sameDocument := true |}.
Proof.
  cbv zeta.
  destruct (@history_popstate unit Visited.window (Scenario.uuid 0)
              (Scenario.uuid 1) (JsOpaque "restored") (Scenario.page "/foo/1")
              Visited.windowTwo 0 Scenario.first
              {| d_id := Scenario.uuid 0; d_key := Scenario.uuid 1;
                 d_url := Scenario.page "/foo/1";
                 d_state := JsOpaque "restored"; d_sameDocument := true |})
    as (_ & Hidx & Hcur & _).
  - exact I.
  - reflexivity.
  - split; vm_compute; [discriminate | reflexivity].
  - vm_compute. reflexivity.
  - vm_compute. reflexivity.
  - vm_compute. reflexivity.
  - vm_compute. reflexivity.
  - split; assumption.
Defined.

Section Skipped.

Variable W : Type.
Variable env : Env W.
Hypothesis Hvalid : validBound env.
Hypothesis Hnone : env_newNavigationState env = None.

Implicit Types st : Engine W.

(** A navigation run with [skipCommit] always answers. *)
Lemma navigate_skipped p o st :
  wellFormed (observe env st) ->
  let r := navigate env p o true st in
  failures (log r) = []
  /\ beforePolls (log r) = []
  /\ commits (log r) = []
  /\ exists answer, outcome r = Done answer.
Proof.
  intros Hwf r. subst r. unfold navigate.
  destruct (navigateEvent_spec env p o st)
    as [(Hcur & _) | (from & to & n & Hfrom & Hmake & Hrun)].
  - destruct (get_in_range (entries (observe env st)) Hwf) as (x & Hx).
    congruence.
  - run_step Hrun.
    set (event := {| ev_type := navigateType o from to;
                     ev_from := from;
                     ev_to := Materialized to;
                     ev_delta := if type_eqb (navigateType o from to) Replace
                                 then 0 else 1;
                     ev_info := opt_info o |}).
    destruct (skip_log env 25 0 event (withDrawn st n))
      as (Hpolls & _ & Hquiet & Hcommits & _).
    cbv zeta in *. change (S 25) with redirectFuel in *.
    split; [exact Hquiet |]. split; [exact Hpolls |].
    split; [exact Hcommits |].
    destruct (path_quiet Hnone
                (runNavigationEvent_path env redirectFuel 0 event true
                   (withDrawn st n))
                ltac:(unfold redirectFuel; lia) Hquiet)
      as (_ & answer & _ & [(e & Hs & _) | (Hdone & _)]);
      [discriminate |].
    now exists answer.
Qed.

End Skipped.

(** X16: a [popstate] event whose state carries no marker is taken as a
    replacement of the current entry by the location the host is at.  The
    listener has the engine navigate there with [history: 'replace'] and
    [skipCommit]: the operation always answers, no before-handler is
    polled and the adapter's commit is not called; the current entry is
    replaced by a destination with the URL of the location and the state
    of the event, and the number of entries and the index are what they
    were. *)
Theorem history_popstate_plain (U : Type) (env : Env (U * list HostCall))
  (state : JsValue) (href : URL) (st : Engine (U * list HostCall)) :
  validBound env ->
  env_newNavigationState env = None ->
  wellFormed (observe env st) ->
  isPatchedState state = false ->
  let r := handleHistoryEvent env (PatchedHistory.onPopState state href) st in
  exists answer,
    outcome r = Done answer
    /\ d_url answer = href
    /\ d_state answer = state
    /\ currentEntry env (final r) = Some answer
    /\ JsArray.len (entries (observe env (final r)))
       = JsArray.len (entries (observe env st))
    /\ index (observe env (final r)) = index (observe env st)
    /\ beforePolls (log r) = []
    /\ commits (log r) = [].
Proof.
  intros Hvalid Hnone Hwf Hplain r.
  assert (r = navigate env (inr href)
                {| opt_history := Some HistoryReplace;
                   opt_state := state;
                   opt_info := JsUndefined |} true st) as Hr
      by (unfold r; destruct state; try reflexivity; discriminate).
  rewrite Hr. clear Hr r.
  set (o := {| opt_history := Some HistoryReplace;
               opt_state := state;
               opt_info := JsUndefined |}).
  destruct (@navigate_skipped _ env Hnone (inr href) o st Hwf)
    as (Hquiet & Hpolls & Hcommits & answer & Hdone).
  exists answer. split; [exact Hdone |].
  destruct (@navigate_quiet _ env Hvalid Hnone (inr href) o true st answer Hwf
              Hquiet Hdone) as (from & n & Hfrom & Hmake & Hcur & _).
  destruct (makeOrUpdateDestination_spec env (observe env st)
              (getUrl env (env_origin env) (inr href)) (opt_state o)
              (env_origin env) st Hfrom)
    as (to & n' & Hmake' & Hto_url & _ & Hcases).
  rewrite Hmake in Hmake'. injection Hmake' as _ <-.
  split; [exact Hto_url |]. split.
  { cbn [opt_state o] in Hcases. destruct (_ && _).
    - destruct Hcases as (_ & _ & -> & _). now destruct state.
    - destruct state; try tauto. discriminate. }
  split; [exact Hcur |].
  unfold navigate in *.
  destruct (navigateEvent_spec env (inr href) o st)
    as [(Hnocur & _) | (from' & to' & k & Hfrom' & _ & Hrun)];
    [unfold currentEntry in Hfrom; congruence |].
  revert Hquiet Hdone Hpolls Hcommits. run_step Hrun.
  intros Hquiet Hdone Hpolls Hcommits.
  destruct (path_quiet_done Hvalid Hnone
              (runNavigationEvent_path env redirectFuel 0 _ true
                 (withDrawn st k))
              Hwf ltac:(unfold redirectFuel; lia) Hquiet Hdone)
    as (_ & _ & _ & Hm).
  cbn [ev_type navigateType opt_history o] in Hm.
  destruct Hm as (Hlen & Hidx & _).
  now repeat split.
Qed.

Lemma history_popstate_plain_witness :
  let r := handleHistoryEvent Visited.window
             (PatchedHistory.onPopState (JsOpaque "legacy")
                (Scenario.page "/foo/9"))
             Visited.windowTwo in
  exists answer,
    outcome r = Done answer
    /\ d_url answer = Scenario.page "/foo/9"
    /\ d_state answer = JsOpaque "legacy"
    /\ world (final r) = world Visited.windowTwo.
Proof.
  cbv zeta.
  destruct (@history_popstate_plain unit Visited.window (JsOpaque "legacy")
              (Scenario.page "/foo/9") Visited.windowTwo)
    as (answer & Hdone & Hurl & Hstate & _).
  - exact I.
  - reflexivity.
  - split; vm_compute; [discriminate | reflexivity].
  - reflexivity.
  - exists answer. split; [exact Hdone |]. split; [exact Hurl |].
    split; [exact Hstate |]. vm_compute. reflexivity.
Defined.

(** ** Where the memory adapter starts *)

Lemma get_skipn {A} (l : list A) (k i : Z) :
  0 <= k -> 0 <= i ->
  JsArray.get (skipn (Z.to_nat k) l) i = JsArray.get l (k + i).
Proof.
  intros Hk Hi. unfold JsArray.get.
  destruct (Z.ltb_spec i 0) as [| _]; [lia |].
  destruct (Z.ltb_spec (k + i) 0) as [| _]; [lia |].
  rewrite nth_error_skipn. f_equal. lia.
Qed.

(** X17: where [memory] starts.  With a bound that is a finite number of
    at least 1 and at least one entry, the first state read from the cell
    holds the last [maxEntries] entries of the options (the bound being
    truncated), and its index is [Math.min(Math.max(0, asked), kept - 1)]
    for the index asked for ([currentIndex], or the last entry when it is
    missing).  For an integer that is the index clipped to the entries
    kept, not moved with them: when [dropped] entries fall off the front,
    the engine starts at the entry [dropped] places after the one asked
    for, or at the last one.  For NaN the index read is NaN and there is no
    current entry.  The origin, when none is given, is read from
    [entries[currentIndex ?? 0]]. *)
Theorem memory_start (W : Type) (uuid : nat -> Uuid)
  (newURL : string -> string -> URL) (options : MemoryOptions W)
  (maxEntries : Z) :
  JsNumber.toIntegerOrInfinity (setupMemoryBound options) = inl maxEntries ->
  1 <= maxEntries ->
  mo_entries options <> [] ->
  let n := JsArray.len (mo_entries options) in
  let dropped := Z.max (n - maxEntries) 0 in
  let asked := orElse (mo_currentIndex options) (JsNumber.ofZ (n - 1)) in
  let s := memoryStart options in
  let current := JsNumber.get (Unchecked.entries s) (Unchecked.index s) in
  Unchecked.entries s = skipn (Z.to_nat dropped) (mo_entries options)
  /\ Unchecked.index s
     = JsNumber.minInt (JsNumber.max0 asked) (n - dropped - 1)
  /\ Unchecked.transition s = None
  /\ (forall i,
        JsNumber.asInteger asked = Some i ->
        let clipped := Z.min (Z.max 0 i) (n - dropped - 1) in
        JsNumber.asInteger (Unchecked.index s) = Some clipped
        /\ current = JsArray.get (mo_entries options) (dropped + clipped)
        /\ (dropped = 0 -> 0 <= i < n ->
            current = JsArray.get (mo_entries options) i))
  /\ (asked = JsNumber.NaN ->
      Unchecked.index s = JsNumber.NaN /\ current = None)
  /\ (forall env,
        memory uuid newURL options = MemoryReady env ->
        (forall drawn0 w0 start,
            memoryEngine options drawn0 w0 = Some start ->
            checked s = Some (observe env start))
        /\ (mo_origin options = None ->
            exists first,
              JsNumber.get (mo_entries options)
                           (orElse (mo_currentIndex options) (JsNumber.ofZ 0))
              = Some first
              /\ env_origin env = url_origin (d_url first))).
Proof.
  intros Hbound Hone Hentries n dropped asked s current.
  assert (0 < n) as Hn.
  { pose proof (len_nonneg (mo_entries options)).
    assert (n <> 0) by (unfold n; now rewrite len_nil_iff). lia. }
  assert (Unchecked.entries s
          = skipn (Z.to_nat dropped) (mo_entries options)) as Hes.
  { unfold s, memoryStart, Unchecked.clampNavigationState, setupMemoryState.
    cbn [Unchecked.entries].
    rewrite (@sliceFrom_opp _ _ maxEntries (mo_entries options) Hbound).
    now apply slice_last. }
  assert (Unchecked.index s
          = JsNumber.minInt (JsNumber.max0 asked) (n - dropped - 1)) as Hidx.
  { unfold s, memoryStart, Unchecked.clampNavigationState, setupMemoryState.
    cbn [Unchecked.entries Unchecked.index].
    rewrite (@sliceFrom_opp _ _ maxEntries (mo_entries options) Hbound).
    rewrite len_slice_last by assumption. fold n asked.
    f_equal. lia. }
  split; [exact Hes |]. split; [exact Hidx |]. split; [reflexivity |].
  split; [| split].
  - intros i Hi clipped.
    assert (JsNumber.asInteger (Unchecked.index s) = Some clipped) as Hclip
        by (rewrite Hidx; now apply clip_integer).
    assert (current
            = JsArray.get (mo_entries options) (dropped + clipped)) as Hcur.
    { unfold current, JsNumber.get. rewrite Hclip, Hes.
      apply get_skipn; unfold clipped; lia. }
    split; [exact Hclip |]. split; [exact Hcur |].
    intros Hnone Hin. rewrite Hcur. f_equal. unfold clipped. lia.
  - intros Hasked. unfold current. rewrite Hidx, Hasked. now split.
  - intros env Hmemory. split.
    + intros drawn0 w0 start Hstart.
      exact (@memory_first_read _ uuid newURL options env drawn0 w0 start
               Hmemory Hstart).
    + intros Horigin. unfold memory in Hmemory. rewrite Horigin in Hmemory.
      destruct (JsNumber.get (mo_entries options)
                             (orElse (mo_currentIndex options)
                                     (JsNumber.ofZ 0)))
        as [first |]; [| discriminate].
      exists first. split; [reflexivity |].
      cbn [option_map] in Hmemory.
      destruct (JsNumber.toIntegerOrInfinity (setupMemoryBound options));
        [| discriminate].
      now injection Hmemory as <-.
Qed.

Lemma memory_start_witness :
  let s := memoryStart Visited.crowded in
  Unchecked.entries s = [Visited.second; Visited.third]
  /\ JsNumber.asInteger (Unchecked.index s) = Some 0
  /\ JsNumber.get (Unchecked.entries s) (Unchecked.index s)
     = Some Visited.second
  /\ JsArray.get (mo_entries Visited.crowded) 0 = Some Scenario.first.
Proof.
  cbv zeta.
  destruct (@memory_start Z Scenario.uuid Scenario.newURL Visited.crowded 2)
    as (Hes & _ & _ & Hint & _).
  - reflexivity.
  - lia.
  - discriminate.
  - destruct (Hint 0 eq_refl) as (Hidx & Hcur & _).
    split; [exact Hes |]. split; [exact Hidx |].
    split; [rewrite Hcur |]; reflexivity.
Defined.

(** ** Search parameters and records *)

Lemma fold_left_pointwise {A B} (f g : A -> B -> A) (l : list B) (a : A) :
  (forall x y, f x y = g x y) -> fold_left f l a = fold_left g l a.
Proof.
  intros Hfg. revert a. induction l as [| y l IH]; intros a; simpl.
  - reflexivity.
  - now rewrite Hfg, IH.
Qed.

Section Records.

Context {V : Type}.
Implicit Types o : list (string * V).

Lemma lookup_define key key' (value : V) o :
  JsObject.lookup key (JsObject.define key' value o)
  = if String.eqb key' key then Some value else JsObject.lookup key o.
Proof.
  induction o as [| [k v] o IH]; simpl.
  - reflexivity.
  - destruct (String.eqb_spec k key') as [-> | Hne]; simpl.
    + now destruct (String.eqb key' key).
    + rewrite IH. destruct (String.eqb_spec k key) as [-> | _];
        [| reflexivity].
      destruct (String.eqb_spec key' key) as [-> | _];
        [now contradiction Hne | reflexivity].
Qed.

Lemma keys_define key (value : V) o :
  map fst (JsObject.define key value o)
  = if existsb (String.eqb key) (map fst o) then map fst o
    else map fst o ++ [key].
Proof.
  induction o as [| [k v] o IH]; simpl; [reflexivity |].
  rewrite (String.eqb_sym key k).
  destruct (String.eqb k key); simpl; [reflexivity |].
  rewrite IH. now destruct (existsb _ _).
Qed.

Lemma define_NoDup key (value : V) o :
  NoDup (map fst o) -> NoDup (map fst (JsObject.define key value o)).
Proof.
  intros Hnodup. rewrite keys_define.
  destruct (existsb (String.eqb key) (map fst o)) eqn:Hin; [assumption |].
  apply NoDup_app; [assumption | repeat constructor; tauto |].
  intros k Hk [-> | []].
  assert (existsb (String.eqb k) (map fst o) = true); [| congruence].
  apply existsb_exists. exists k. split; [exact Hk | apply String.eqb_refl].
Qed.

Lemma lookup_assign key key' (value : V) o :
  JsObject.lookup key (JsObject.assign key' value o)
  = if String.eqb key' "__proto__" then JsObject.lookup key o
    else if String.eqb key' key then Some value else JsObject.lookup key o.
Proof.
  unfold JsObject.assign.
  destruct (String.eqb key' "__proto__"); [reflexivity | apply lookup_define].
Qed.

Lemma assign_NoDup key (value : V) o :
  NoDup (map fst o) -> NoDup (map fst (JsObject.assign key value o)).
Proof.
  unfold JsObject.assign.
  destruct (String.eqb key "__proto__"); [tauto | apply define_NoDup].
Qed.

Lemma lookup_absent key o :
  ~ In key (map fst o) -> JsObject.lookup key o = None.
Proof.
  induction o as [| [k v] o IH]; simpl; [reflexivity |].
  intros Hnot. destruct (String.eqb_spec k key) as [-> | _]; [tauto |].
  apply IH. tauto.
Qed.

Lemma lookup_In key (value : V) o :
  NoDup (map fst o) ->
  (JsObject.lookup key o = Some value <-> In (key, value) o).
Proof.
  induction o as [| [k v] o IH]; simpl; intros Hnodup.
  - split; [discriminate | tauto].
  - apply NoDup_cons_iff in Hnodup. destruct Hnodup as (Hk & Hnodup).
    destruct (String.eqb_spec k key) as [-> | Hne].
    + split.
      * intros [= ->]. now left.
      * intros [[= ->] | Hin]; [reflexivity |].
        contradiction Hk. apply in_map_iff. now exists (key, value).
    + rewrite (IH Hnodup). split; [tauto |].
      intros [[= -> _] | Hin]; [now contradiction Hne | exact Hin].
Qed.

(** Two enumerations of the same properties give the same lookups. *)
Lemma lookup_Permutation key o o' :
  NoDup (map fst o) -> Permutation o' o ->
  JsObject.lookup key o' = JsObject.lookup key o.
Proof.
  intros Hnodup Hperm.
  assert (NoDup (map fst o')) as Hnodup'.
  { eapply Permutation_NoDup; [| exact Hnodup].
    apply Permutation_map. now symmetry. }
  destruct (JsObject.lookup key o) as [v |] eqn:Hv.
  - apply lookup_In; [assumption |]. apply lookup_In in Hv; [| assumption].
    eapply Permutation_in; [symmetry; exact Hperm | exact Hv].
  - destruct (JsObject.lookup key o') as [v' |] eqn:Hv'; [| reflexivity].
    apply lookup_In in Hv'; [| assumption].
    assert (In (key, v') o) as Hin
        by (eapply Permutation_in; [exact Hperm | exact Hv']).
    apply lookup_In in Hin; [| assumption]. congruence.
Qed.

Implicit Types p : list (string * V).

Lemma getAll_app name p1 p2 :
  URLSearchParams.getAll name (p1 ++ p2)
  = URLSearchParams.getAll name p1 ++ URLSearchParams.getAll name p2.
Proof.
  unfold URLSearchParams.getAll. now rewrite filter_app, map_app.
Qed.

Lemma getAll_absent name p :
  ~ In name (map fst p) -> URLSearchParams.getAll name p = [].
Proof.
  unfold URLSearchParams.getAll.
  induction p as [| [k v] p IH]; simpl; intros Hnot; [reflexivity |].
  destruct (String.eqb_spec k name) as [-> | _]; [tauto |].
  apply IH. tauto.
Qed.

Lemma getAll_named name key (values : list V) :
  URLSearchParams.getAll name (map (pair key) values)
  = if String.eqb key name then values else [].
Proof.
  unfold URLSearchParams.getAll.
  induction values as [| v values IH]; simpl.
  - now destruct (String.eqb key name).
  - destruct (String.eqb key name); simpl; [now rewrite IH | exact IH].
Qed.

Lemma has_getAll name p :
  URLSearchParams.has name p
  = match URLSearchParams.getAll name p with [] => false | _ => true end.
Proof.
  unfold URLSearchParams.has, URLSearchParams.getAll.
  induction p as [| [k v] p IH]; simpl; [reflexivity |].
  destruct (String.eqb k name); simpl; [reflexivity | exact IH].
Qed.

Lemma set_absent name (value : V) p :
  URLSearchParams.has name p = false ->
  URLSearchParams.set name value p = p ++ [(name, value)].
Proof.
  unfold URLSearchParams.has.
  induction p as [| [k v] p IH]; simpl; [reflexivity |].
  destruct (String.eqb k name); simpl; [discriminate |].
  intros Hp. now rewrite IH.
Qed.

Lemma append_all key (values : list V) p :
  fold_left (fun q v => URLSearchParams.append key v q) values p
  = p ++ map (pair key) values.
Proof.
  revert p. induction values as [| v values IH]; intros p; simpl.
  - now rewrite app_nil_r.
  - rewrite IH. unfold URLSearchParams.append. now rewrite <- app_assoc.
Qed.

End Records.

Section ParamFacts.

Variable entriesOf :
  list (string * ParamValue) -> list (string * ParamValue).

Lemma unpack_pack values : unpack (pack values) = values.
Proof. now destruct values as [| v [| v' values]]. Qed.

Lemma writeParams_absent p key v :
  URLSearchParams.has key p = false ->
  writeParams p (key, v) = p ++ map (pair key) (unpack v).
Proof.
  intros Habsent. unfold writeParams. destruct v as [value | values]; simpl.
  - now apply set_absent.
  - apply append_all.
Qed.

Lemma written_values (o : list (string * ParamValue)) :
  forall p name,
    NoDup (map fst o) ->
    (forall key, In key (map fst o) -> URLSearchParams.has key p = false) ->
    URLSearchParams.getAll name (fold_left writeParams o p)
    = URLSearchParams.getAll name p
      ++ match JsObject.lookup name o with
         | Some v => unpack v
         | None => []
         end.
Proof.
  induction o as [| [k v] o IH]; intros p name Hnodup Hfresh; simpl.
  - now rewrite app_nil_r.
  - apply NoDup_cons_iff in Hnodup. destruct Hnodup as (Hk & Hnodup).
    cbn [fst] in Hk.
    rewrite writeParams_absent by (apply Hfresh; now left).
    rewrite IH; [| assumption |].
    + rewrite getAll_app, getAll_named, <- app_assoc. f_equal.
      destruct (String.eqb_spec k name) as [<- | _]; [| reflexivity].
      now rewrite (lookup_absent _ _ Hk), app_nil_r.
    + intros key Hkey. rewrite has_getAll, getAll_app, getAll_named.
      specialize (Hfresh key (or_intror Hkey)).
      rewrite has_getAll in Hfresh.
      destruct (URLSearchParams.getAll key p); [| discriminate].
      destruct (String.eqb_spec k key) as [-> | _]; [contradiction |].
      reflexivity.
Qed.

Lemma urlSearchParamsToStruct_eq searchParams :
  urlSearchParamsToStruct searchParams
  = fold_left (readParams searchParams) searchParams [].
Proof.
  unfold urlSearchParamsToStruct. apply fold_left_pointwise.
  intros struct kv. unfold readParams, pack.
  now destruct (URLSearchParams.getAll (fst kv) searchParams)
    as [| v [| v' values]].
Qed.

Lemma read_values searchParams (q : list (string * string)) :
  forall struct name,
    NoDup (map fst struct) ->
    NoDup (map fst (fold_left (readParams searchParams) q struct))
    /\ JsObject.lookup name (fold_left (readParams searchParams) q struct)
       = if URLSearchParams.has name q && negb (String.eqb name "__proto__")
         then Some (pack (URLSearchParams.getAll name searchParams))
         else JsObject.lookup name struct.
Proof.
  induction q as [| [k v] q IH]; intros struct name Hnodup; simpl.
  - now split.
  - destruct (IH (readParams searchParams struct (k, v)) name
                 (assign_NoDup _ _ _ Hnodup)) as (Hn & Hl).
    split; [exact Hn |]. rewrite Hl.
    unfold readParams. cbn [fst]. rewrite lookup_assign.
    destruct (String.eqb_spec k "__proto__") as [-> | Hk];
      destruct (String.eqb_spec name "__proto__") as [-> | Hname];
      rewrite ?andb_false_r, ?andb_true_r; try reflexivity.
    + destruct (String.eqb_spec "__proto__" name) as [<- | _];
        [now contradiction Hname | reflexivity].
    + destruct (String.eqb_spec k "__proto__") as [-> | _];
        [now contradiction Hk | reflexivity].
    + destruct (URLSearchParams.has name q); [now rewrite orb_true_r |].
      rewrite orb_false_r.
      now destruct (String.eqb_spec k name) as [-> | _].
Qed.

Hypothesis entriesOf_enumerates :
  forall struct, Permutation (entriesOf struct) struct.

Lemma structToUrlSearchParams_values struct name :
  NoDup (map fst struct) ->
  URLSearchParams.getAll name (structToUrlSearchParams entriesOf struct)
  = match JsObject.lookup name struct with
    | Some v => unpack v
    | None => []
    end.
Proof.
  intros Hnodup.
  assert (NoDup (map fst (entriesOf struct))) as Hnodup'.
  { eapply Permutation_NoDup; [| exact Hnodup].
    apply Permutation_map. symmetry. apply entriesOf_enumerates. }
  unfold structToUrlSearchParams.
  change (fun searchParams kv => _) with writeParams.
  rewrite written_values; [| assumption | reflexivity].
  simpl. now rewrite (lookup_Permutation name Hnodup
                        (entriesOf_enumerates struct)).
Qed.

Lemma urlSearchParamsToStruct_values searchParams name :
  NoDup (map fst (urlSearchParamsToStruct searchParams))
  /\ JsObject.lookup name (urlSearchParamsToStruct searchParams)
     = if String.eqb name "__proto__" then None
       else match URLSearchParams.getAll name searchParams with
            | [] => None
            | values => Some (pack values)
            end.
Proof.
  rewrite urlSearchParamsToStruct_eq.
  destruct (@read_values searchParams searchParams [] name (NoDup_nil _))
    as (Hn & Hl).
  split; [exact Hn |]. rewrite Hl, has_getAll.
  destruct (String.eqb name "__proto__");
    [now rewrite andb_false_r | rewrite andb_true_r].
  now destruct (URLSearchParams.getAll name searchParams).
Qed.

End ParamFacts.

(** X18: search parameters survive the trip through a record, all but
    those named [__proto__].  For every other name, the values [getAll]
    reads from
    [structToUrlSearchParams(urlSearchParamsToStruct(searchParams))] are
    the values it reads from [searchParams], in the same order, whatever
    the order in which [Object.entries] enumerates the record (pairs of
    different names may change places).  A parameter named [__proto__]
    makes no property of the record and is gone after the trip. *)
Theorem searchParams_roundtrip
  (entriesOf : list (string * ParamValue) -> list (string * ParamValue))
  (searchParams : list (string * string)) (name : string) :
  (forall struct, Permutation (entriesOf struct) struct) ->
  URLSearchParams.getAll name
    (structToUrlSearchParams entriesOf (urlSearchParamsToStruct searchParams))
  = if String.eqb name "__proto__" then []
    else URLSearchParams.getAll name searchParams.
Proof.
  intros Henumerates.
  destruct (urlSearchParamsToStruct_values searchParams name) as (Hn & Hl).
  rewrite (@structToUrlSearchParams_values entriesOf Henumerates _ name Hn), Hl.
  destruct (String.eqb name "__proto__"); [reflexivity |].
  destruct (URLSearchParams.getAll name searchParams) as [| v values] eqn:Hv;
    [reflexivity |].
  apply unpack_pack.
Qed.

Lemma searchParams_roundtrip_witness :
  let searchParams :=
    [("tag", "a"); ("__proto__", "x"); ("page", "2"); ("tag", "b")]%string in
  let back := structToUrlSearchParams (fun struct => struct)
                (urlSearchParamsToStruct searchParams) in
  URLSearchParams.getAll "tag" back = ["a"; "b"]%string
  /\ URLSearchParams.getAll "__proto__" back = [].
Proof.
  cbv zeta. split.
  - apply (@searchParams_roundtrip (fun struct => struct)
             [("tag", "a"); ("__proto__", "x"); ("page", "2");
              ("tag", "b")]%string
             "tag"%string).
    intros struct. apply Permutation_refl.
  - apply (@searchParams_roundtrip (fun struct => struct)
             [("tag", "a"); ("__proto__", "x"); ("page", "2");
              ("tag", "b")]%string
             "__proto__"%string).
    intros struct. apply Permutation_refl.
Defined.

(** X19: a record does not survive the trip through search parameters
    unchanged: it is normalised.  After
    [urlSearchParamsToStruct(structToUrlSearchParams(struct))] a property
    that held a string or an array of two or more strings holds the same
    value, a property that held an array of one string holds that string,
    and a property that held an empty array is gone; so is an own property
    named [__proto__]. *)
Theorem struct_roundtrip
  (entriesOf : list (string * ParamValue) -> list (string * ParamValue))
  (struct : list (string * ParamValue)) (name : string) :
  (forall o, Permutation (entriesOf o) o) ->
  NoDup (map fst struct) ->
  JsObject.lookup name
    (urlSearchParamsToStruct (structToUrlSearchParams entriesOf struct))
  = if String.eqb name "__proto__" then None
    else match JsObject.lookup name struct with
         | Some (Single value) => Some (Single value)
         | Some (Many []) => None
         | Some (Many [value]) => Some (Single value)
         | Some (Many values) => Some (Many values)
         | None => None
         end.
Proof.
  intros Henumerates Hnodup.
  destruct (urlSearchParamsToStruct_values
              (structToUrlSearchParams entriesOf struct) name) as (_ & ->).
  destruct (String.eqb name "__proto__"); [reflexivity |].
  rewrite (@structToUrlSearchParams_values entriesOf Henumerates _ name
             Hnodup).
  destruct (JsObject.lookup name struct) as [[value | values] |];
    [reflexivity | | reflexivity].
  now destruct values as [| v [| v' values]].
Qed.

Lemma struct_roundtrip_witness :
  let struct := [("tag", Many ["a"]); ("page", Single "2");
                 ("sort", Many [])]%string in
  let back := urlSearchParamsToStruct
                (structToUrlSearchParams (fun o => o) struct) in
  JsObject.lookup "tag" back = Some (Single "a")
  /\ JsObject.lookup "sort" back = None.
Proof.
  cbv zeta. split.
  - apply (@struct_roundtrip (fun o => o)
             [("tag", Many ["a"]); ("page", Single "2");
              ("sort", Many [])]%string "tag"%string).
    + intros o. apply Permutation_refl.
    + repeat constructor; simpl; intuition discriminate.
  - apply (@struct_roundtrip (fun o => o)
             [("tag", Many ["a"]); ("page", Single "2");
              ("sort", Many [])]%string "sort"%string).
    + intros o. apply Permutation_refl.
    + repeat constructor; simpl; intuition discriminate.
Defined.

(** ** Form data and records *)

Section FormFacts.

Variable clock : nat -> Z.
Variable entriesOf : list (string * FormDataEntryValue)
                     -> list (string * FormDataEntryValue).

(** The entries [append] stores for the pairs of [l], from call [k] on. *)
Fixpoint storedFrom (k : nat) (l : list (string * FormDataEntryValue))
  : list (string * FormData.Value) :=
  match l with
  | [] => []
  | (name, value) :: rest =>
      (name, FormData.store (clock k) value) :: storedFrom (S k) rest
  end.

Lemma structToFormData_eq struct :
  structToFormData clock entriesOf struct = storedFrom 0 (entriesOf struct).
Proof.
  unfold structToFormData.
  assert (forall l acc,
             fold_left (fun formData (kv : string * FormDataEntryValue) =>
                          FormData.append (clock (length formData)) (fst kv)
                                          (snd kv) formData)
                       l acc = acc ++ storedFrom (length acc) l) as Hfold.
  { induction l as [| [k v] l IH]; intros acc; simpl.
    - now rewrite app_nil_r.
    - rewrite IH. unfold FormData.append.
      rewrite length_app, <- app_assoc. simpl.
      now replace (length acc + 1)%nat with (S (length acc)) by lia. }
  apply Hfold.
Qed.

Lemma lastOf_map {A B} (f : A -> B) (l : list A) :
  lastOf (map f l) = option_map f (lastOf l).
Proof.
  induction l as [| x l IH]; simpl; [reflexivity |].
  rewrite IH. now destruct (lastOf l).
Qed.

Lemma recorded (formData : list (string * FormData.Value)) :
  forall record name,
    NoDup (map fst record) ->
    let result :=
      fold_left (fun r kv =>
                   JsObject.assign (fst kv) (FormData.read (snd kv)) r)
                formData record in
    NoDup (map fst result)
    /\ JsObject.lookup name result
       = if String.eqb name "__proto__" then JsObject.lookup name record
         else match lastOf (FormData.getAll name formData) with
              | Some v => Some (FormData.read v)
              | None => JsObject.lookup name record
              end.
Proof.
  induction formData as [| [k v] formData IH]; intros record name Hnodup;
    cbv zeta; simpl.
  - split; [assumption | now destruct (String.eqb name "__proto__")].
  - destruct (IH (JsObject.assign k (FormData.read v) record) name
                 (assign_NoDup _ _ _ Hnodup)) as (Hn & Hl).
    split; [exact Hn |]. cbv zeta in Hl. rewrite Hl, lookup_assign.
    unfold FormData.getAll. simpl.
    destruct (String.eqb_spec name "__proto__") as [-> | Hname].
    + destruct (String.eqb_spec k "__proto__") as [_ | Hk]; [reflexivity |].
      now destruct (String.eqb_spec k "__proto__").
    + destruct (String.eqb_spec k name) as [-> | _]; simpl.
      * destruct (String.eqb_spec name "__proto__"); [contradiction |].
        now destruct (lastOf _).
      * now destruct (String.eqb k "__proto__").
Qed.

(** Among pairs of distinct names, the entries stored under a name are the
    one value the pairs had for it, as one call of [append] stored it. *)
Lemma getAll_storedFrom name (l : list (string * FormDataEntryValue)) :
  NoDup (map fst l) ->
  forall k0,
    match JsObject.lookup name l with
    | Some v =>
        exists k, (k0 <= k < k0 + length l)%nat
                  /\ FormData.getAll name (storedFrom k0 l)
                     = [FormData.store (clock k) v]
    | None => FormData.getAll name (storedFrom k0 l) = []
    end.
Proof.
  unfold FormData.getAll.
  induction l as [| [k v] l IH]; simpl; intros Hnodup k0; [reflexivity |].
  apply NoDup_cons_iff in Hnodup. destruct Hnodup as (Hk & Hnodup).
  destruct (String.eqb_spec k name) as [<- | _]; simpl.
  - exists k0. split; [lia |].
    specialize (IH Hnodup (S k0)). rewrite (lookup_absent _ _ Hk) in IH.
    now rewrite IH.
  - specialize (IH Hnodup (S k0)).
    destruct (JsObject.lookup name l); [| exact IH].
    destruct IH as (k1 & Hk1 & IH). exists k1. split; [lia | exact IH].
Qed.

Lemma getAll_unnamed name (formData : list (string * FormData.Value)) :
  ~ In name (map fst formData) -> FormData.getAll name formData = [].
Proof.
  unfold FormData.getAll.
  induction formData as [| [k v] p IH]; simpl; intros Hnot; [reflexivity |].
  destruct (String.eqb_spec k name) as [-> | _]; [tauto |].
  apply IH. tauto.
Qed.

Lemma store_read now v : FormData.store now (FormData.read v) = v.
Proof. now destruct v. Qed.

End FormFacts.

(** X20: records and form data.  When no property is named [__proto__],
    a record written to a [FormData] with [structToFormData] and read back
    with [formDataToStruct] has the properties it had, whatever the order
    in which [Object.entries] enumerates it: a string and a [File] come
    back as they were, and a [Blob] comes back as the [File] that [append]
    made of it, with the bytes and the type of the [Blob], the name [blob]
    and the time of the call.  The other way round is lossy: a [FormData]
    without an entry of that name, read into a record and written back,
    keeps for each name only the last of its values. *)
Theorem formData_roundtrip (clock : nat -> Z)
  (entriesOf : list (string * FormDataEntryValue)
               -> list (string * FormDataEntryValue))
  (struct : list (string * FormDataEntryValue))
  (formData : list (string * FormData.Value)) (name : string) :
  (forall o, Permutation (entriesOf o) o) ->
  NoDup (map fst struct) ->
  ~ In "__proto__"%string (map fst struct) ->
  ~ In "__proto__"%string (map fst formData) ->
  let back :=
    JsObject.lookup name
      (formDataToStruct (structToFormData clock entriesOf struct)) in
  match JsObject.lookup name struct with
  | Some (EntryBlob blob) =>
      exists k,
        (k < length struct)%nat
        /\ back = Some (EntryFile {| file_name := "blob";
                                     file_type := blob_type blob;
                                     file_lastModified := clock k;
                                     file_data := blob_data blob |})
  | Some value => back = Some value
  | None => back = None
  end
  /\ FormData.getAll name
       (structToFormData clock entriesOf (formDataToStruct formData))
     = match lastOf (FormData.getAll name formData) with
       | Some v => [v]
       | None => []
       end.
Proof.
  intros Henumerates Hnodup Hstruct Hform. cbv zeta.
  assert (forall o, NoDup (map fst o) -> NoDup (map fst (entriesOf o)))
    as Hkeys.
  { intros o Ho. eapply Permutation_NoDup; [| exact Ho].
    apply Permutation_map. symmetry. apply Henumerates. }
  split.
  - unfold formDataToStruct. rewrite structToFormData_eq.
    destruct (@recorded (storedFrom clock 0 (entriesOf struct)) [] name
                (NoDup_nil _)) as (_ & Hl).
    cbv zeta in Hl. rewrite Hl. clear Hl.
    destruct (String.eqb_spec name "__proto__") as [-> | _];
      [now rewrite (lookup_absent _ _ Hstruct) |].
    pose proof (@getAll_storedFrom clock name (entriesOf struct)
                  (Hkeys _ Hnodup) 0%nat) as Hstored.
    rewrite (@lookup_Permutation _ name struct (entriesOf struct) Hnodup
               (Henumerates struct)) in Hstored.
    rewrite (Permutation_length (Henumerates struct)) in Hstored.
    destruct (JsObject.lookup name struct) as [value |];
      [| now rewrite Hstored].
    destruct Hstored as (k & Hk & ->).
    destruct value; simpl; [| reflexivity | reflexivity].
    exists k. split; [lia | reflexivity].
  - rewrite structToFormData_eq.
    destruct (@recorded formData [] name (NoDup_nil _)) as (Hn & Hl).
    cbv zeta in Hn, Hl. fold (formDataToStruct formData) in Hn, Hl.
    pose proof (@getAll_storedFrom clock name
                  (entriesOf (formDataToStruct formData)) (Hkeys _ Hn) 0%nat)
      as Hstored.
    rewrite (@lookup_Permutation _ name (formDataToStruct formData)
               (entriesOf (formDataToStruct formData)) Hn (Henumerates _))
      in Hstored.
    rewrite Hl in Hstored.
    destruct (String.eqb_spec name "__proto__") as [-> | _].
    + rewrite (getAll_unnamed _ _ Hform). exact Hstored.
    + destruct (lastOf (FormData.getAll name formData)) as [v |];
        [| exact Hstored].
      destruct Hstored as (k & _ & ->). now rewrite store_read.
Qed.

Lemma formData_roundtrip_witness :
  let clock := fun k => 1000 + Z.of_nat k in
  let picture := {| blob_type := "image/png"; blob_data := [Byte.x89] |} in
  let struct := [("name"%string, EntryString "x");
                 ("avatar"%string, EntryBlob picture)] in
  let formData := [("file"%string, FormData.Text "a");
                   ("name"%string, FormData.Text "b");
                   ("file"%string, FormData.Text "c")] in
  (exists k,
      (k < 2)%nat
      /\ JsObject.lookup "avatar"
           (formDataToStruct (structToFormData clock (fun o => o) struct))
         = Some (EntryFile {| file_name := "blob";
                              file_type := "image/png";
                              file_lastModified := clock k;
                              file_data := [Byte.x89] |}))
  /\ JsObject.lookup "avatar"
       (formDataToStruct (structToFormData clock (fun o => o) struct))
     <> Some (EntryBlob picture)
  /\ FormData.getAll "file"
       (structToFormData clock (fun o => o) (formDataToStruct formData))
     = [FormData.Text "c"].
Proof.
  cbv zeta.
  destruct (@formData_roundtrip (fun k => 1000 + Z.of_nat k) (fun o => o)
              [("name"%string, EntryString "x");
               ("avatar"%string,
                EntryBlob {| blob_type := "image/png";
                             blob_data := [Byte.x89] |})]
              [("file"%string, FormData.Text "a");
               ("name"%string, FormData.Text "b");
               ("file"%string, FormData.Text "c")] "avatar"%string)
    as (Hback & _).
  - intros o. apply Permutation_refl.
  - repeat constructor; simpl; intuition discriminate.
  - simpl. intuition discriminate.
  - simpl. intuition discriminate.
  - split; [exact Hback |].
    split; [vm_compute; discriminate |].
    destruct (@formData_roundtrip (fun k => 1000 + Z.of_nat k) (fun o => o) []
                [("file"%string, FormData.Text "a");
                 ("name"%string, FormData.Text "b");
                 ("file"%string, FormData.Text "c")] "file"%string)
      as (_ & Hforth).
    + intros o. apply Permutation_refl.
    + constructor.
    + simpl. tauto.
    + simpl. intuition discriminate.
    + exact Hforth.
Defined.

(** ** Blocking *)

Section BlockFacts.

Variable V : Type.
Variable shouldBlock :
  option (TransitionEvent -> V -> V * (HandlerError + bool)).

Lemma blockHandler_blocked event (w : BlockWorld V) :
  isBlocking w = true ->
  blockHandler shouldBlock event w = (w, inr None).
Proof.
  unfold isBlocking, blockHandler.
  now destruct (blockState w).
Qed.

Lemma blockAll_blocked events (w : BlockWorld V) :
  isBlocking w = true ->
  blockAll shouldBlock events w = (w, map (fun _ => inr None) events).
Proof.
  intros Hw. induction events as [| event events IH]; simpl; [reflexivity |].
  now rewrite (blockHandler_blocked event w Hw), IH.
Qed.

Lemma blockings_none (events : list TransitionEvent) :
  blockings (map (fun _ => inr None) events) = [].
Proof. induction events; simpl; [reflexivity | assumption]. Qed.

Lemma blockHandler_step event (w : BlockWorld V) :
  let '(w1, answer) := blockHandler shouldBlock event w in
  match answer with
  | inr (Some d) =>
      isBlocking w = false /\ d = made w
      /\ blockState w1 = Blocked event d /\ made w1 = S (made w)
  | _ => blockState w1 = blockState w /\ made w1 = made w
  end.
Proof.
  unfold blockHandler, isBlocking.
  destruct (blockState w) eqn:Hstate; [| now split].
  destruct shouldBlock as [ask |]; [| now repeat split].
  destruct (ask event (user w)) as [v [e | [|]]]; now repeat split.
Qed.

End BlockFacts.

(** X21: [useBlockNavigation] blocks at most one transition in its
    lifetime.  The handler it registers leaves the [Blocked] state
    untouched ("can't block twice") and nothing else writes the cell, so
    over any sequence of transitions at most one answers with a [Deferred]
    to wait for; once blocking, the handler answers every later transition
    with no effect, without asking [shouldBlock], and [isBlocking] stays
    true. *)
Theorem block_at_most_once (V : Type)
  (shouldBlock : option (TransitionEvent -> V -> V * (HandlerError + bool)))
  (events : list TransitionEvent) (w : BlockWorld V) :
  let '(final, answers) := blockAll shouldBlock events w in
  (length (blockings answers) <= 1)%nat
  /\ (isBlocking w = true ->
      final = w /\ blockings answers = [])
  /\ (blockings answers <> [] -> isBlocking final = true)
  /\ (forall later,
         isBlocking final = true ->
         blockAll shouldBlock later final
         = (final, map (fun _ => inr None) later)).
Proof.
  destruct (blockAll shouldBlock events w) as [final answers] eqn:Hrun.
  assert ((length (blockings answers) <= 1)%nat
          /\ (blockings answers <> [] -> isBlocking final = true))
    as (Hcount & Hset).
  { revert w final answers Hrun.
    induction events as [| event events IH]; intros w final answers Hrun;
      simpl in Hrun.
    - injection Hrun as <- <-. simpl. split; [lia | tauto].
    - pose proof (blockHandler_step shouldBlock event w) as Hstep.
      destruct (blockHandler shouldBlock event w) as [w1 answer].
      destruct (blockAll shouldBlock events w1) as [w2 rest] eqn:Hrest.
      injection Hrun as <- <-.
      destruct answer as [e | [d |]]; cbn [blockings filterMap];
        try exact (IH w1 w2 rest Hrest).
      destruct Hstep as (_ & _ & Hs & _).
      assert (isBlocking w1 = true) as Hw1
          by (unfold isBlocking; now rewrite Hs).
      rewrite (blockAll_blocked shouldBlock events w1 Hw1) in Hrest.
      injection Hrest as <- <-.
      fold (blockings (map (fun _ : TransitionEvent =>
                              @inr HandlerError (option nat) None) events)).
      rewrite blockings_none. simpl. split; [lia | intros _; exact Hw1]. }
  split; [exact Hcount |]. split; [| split; [exact Hset |]].
  - intros Hw. rewrite (blockAll_blocked shouldBlock events w Hw) in Hrun.
    injection Hrun as <- <-. split; [reflexivity | apply blockings_none].
  - intros later Hfinal. now apply blockAll_blocked.
Qed.

(** ** The After phase *)

Lemma returned_subsequence {W} (answers : list (nat * option (AfterDeferred W))) :
  Subsequence (map fst (returned answers)) (map fst answers).
Proof.
  induction answers as [| [name [d |]] rest IH]; simpl.
  - constructor.
  - now constructor.
  - now constructor.
Qed.

(** X22: the After phase is the one the specification words, for
    handlers that answer with an [Option].  Every after-handler is called
    once, in the order of the registry, each in the world the call before
    left; only then are the effects the handlers returned run, in the
    order of the handlers that returned them, each in the world the effect
    before left.  The world the phase leaves is the
    world after the last effect, nothing else of the engine changes, and
    the log is all the calls followed by all the effects.
    [notifyInOrder] and [settle] compute the answers and the world by
    calling the handlers and the effects themselves. *)
Theorem runHandlers_order (W : Type) (env : Env W) (event : NavigationEvent)
  (st : Engine W) :
  let s := observe env st in
  let notified := notifyInOrder (handlers st) event s (world st) in
  let effects := returned (snd notified) in
  let r := runHandlers env event st in
  map fst (snd notified) = map (@nh_name W) (handlers st)
  /\ log r
     = map (fun h => LAfter (nh_name h) event) (handlers st)
       ++ map (fun m => LAfterDeferred (fst m)) effects
  /\ final r = withWorld st (settle effects s (fst notified))
  /\ Subsequence (map fst effects) (map (@nh_name W) (handlers st)).
Proof.
  cbv zeta.
  pose proof (runHandlers_exact env event st) as Hrun.
  pose proof (notifyInOrder_names (handlers st) event (observe env st)
                (world st)) as Hnames.
  cbv zeta in Hrun. unfold afterPhase in Hrun.
  destruct (notifyInOrder (handlers st) event (observe env st) (world st))
    as [w1 answers]. cbn [fst snd] in *.
  rewrite Hrun. cbn [final log].
  split; [exact Hnames |]. split; [reflexivity |]. split; [reflexivity |].
  rewrite <- Hnames. apply returned_subsequence.
Qed.
